(** * mptt.utils: tree utilities over flat, depth-first ordered node lists

    A shallow embedding of [previous_current_next], [tree_item_iterator],
    [get_cached_trees], [clean_tree_ids] and [_get_tree_model] from
    [mptt/utils.py], the properties the specification states about the
    first three, and further properties of the code.

    Conventions of the embedding:
    - Python objects live in a store ([heap]) and are named by references
      ([ref]); a list of nodes is a list of references, so the same object
      may occur twice in a list and every mutation is seen through all of
      its occurrences.
    - Python integers are [Z].
    - An exception ends the computation with [Raise e]; the store reached
      at that point is still returned, as the mutations done so far stay
      visible in Python.
    - A generator over a finite input is the list of what it yields. *)

From Stdlib Require Import Ascii String.
From Stdlib Require Import List ZArith Lia Bool Arith.
Import ListNotations.

(** ** Exceptions and results *)

Inductive exn : Type :=
| ValueError
| IndexError
| AttributeError
| KeyError.

Inductive result (A : Type) : Type :=
| Ok (a : A)
| Raise (e : exn).

Arguments Ok {A} a.
Arguments Raise {A} e.

Definition bind {A B : Type} (m : result A) (k : A -> result B) : result B :=
  match m with
  | Ok a => k a
  | Raise e => Raise e
  end.

Notation "x <- m ;; k" := (bind m (fun x => k))
  (at level 61, m at next level, right associativity).

(** ** previous_current_next

    [items] is any sequence of Python values; [none] is Python's [None],
    which is a value of the same kind as the items (nothing prevents an
    item from being [None] itself). *)

Section PreviousCurrentNext.

Context {V : Type}.
Variable none : V.

(** [zip(prev, cur, nex)]: stops with the shortest of the three. *)
Fixpoint zip3 (prev cur nex : list V) : list (V * V * V) :=
  match prev, cur, nex with
  | p :: prev', c :: cur', n :: nex' => (p, c, n) :: zip3 prev' cur' nex'
  | _, _, _ => []
  end.

(** [itertools.tee] gives three independent readers of [extend];
    [next(it)] advances a reader by one element, which is [tl]. *)
Definition previous_current_next (items : list V) : list (V * V * V) :=
  let extend := [none] ++ items ++ [none] in
  let prev := extend in
  let cur := tl extend in
  let nex := tl (tl extend) in
  zip3 prev cur nex.

End PreviousCurrentNext.

(** ** Model instances

    A node is a model instance: an object with a level, a parent
    attribute (named by [_mptt_meta.parent_attr]) and the two attributes
    [get_cached_trees] adds. An attribute that is not set is [None] here
    ([_mptt_use_cached_ancestors] is only ever set to [True]). Model
    instances are truthy: [django.db.models.Model] defines neither
    [__bool__] nor [__len__]. *)

Definition ref : Type := nat.

Record node : Type := mk_node {
  level : Z;
  parent : option ref;
  _cached_children : option (list ref);
  _mptt_use_cached_ancestors : bool
}.

Definition heap : Type := ref -> node.

Definition update (h : heap) (r : ref) (n : node) : heap :=
  fun r' => if Nat.eqb r' r then n else h r'.

(** [obj.get_level()], which is [getattr(obj, opts.level_attr)]. *)
Definition get_level (h : heap) (obj : ref) : Z := level (h obj).

(** [obj._cached_children = cs] *)
Definition set_cached_children (h : heap) (obj : ref) (cs : list ref) : heap :=
  update h obj
    {| level := level (h obj);
       parent := parent (h obj);
       _cached_children := Some cs;
       _mptt_use_cached_ancestors := _mptt_use_cached_ancestors (h obj) |}.

(** [setattr(obj, parent_attr, _parent)] *)
Definition set_parent (h : heap) (obj _parent : ref) : heap :=
  update h obj
    {| level := level (h obj);
       parent := Some _parent;
       _cached_children := _cached_children (h obj);
       _mptt_use_cached_ancestors := _mptt_use_cached_ancestors (h obj) |}.

(** [setattr(obj, "_mptt_use_cached_ancestors", True)] *)
Definition set_use_cached_ancestors (h : heap) (obj : ref) : heap :=
  update h obj
    {| level := level (h obj);
       parent := parent (h obj);
       _cached_children := _cached_children (h obj);
       _mptt_use_cached_ancestors := true |}.

(** ** tree_item_iterator *)

(** [list(range(start, stop, -1))]: [start, start-1, ..., stop+1], empty
    when [start <= stop]. *)
Definition range_down (start stop : Z) : list Z :=
  map (fun i => (start - Z.of_nat i)%Z) (seq 0 (Z.to_nat (start - stop))).

(** The [structure] dict: each of its three keys is present or not. The
    pair yielded with a node holds a deep copy of it, a value of the same
    type. *)
Record structure (label : Type) : Type := mk_structure {
  new_level : option bool;
  closed_levels : option (list Z);
  ancestors : option (list label)
}.

Arguments mk_structure {label} _ _ _.
Arguments new_level {label} _.
Arguments closed_levels {label} _.
Arguments ancestors {label} _.

(** [structure[key]] raises [KeyError] when the key is absent. *)
Definition getitem {A : Type} (entry : option A) : result A :=
  match entry with
  | Some a => Ok a
  | None => Raise KeyError
  end.

Section TreeItemIterator.

(** [with_ancestors] is the argument [ancestors] of the source (the name
    is taken by the key of the dict); [label] is what [callback]
    returns. *)
Context {label : Type}.
Variable h : heap.
Variable callback : ref -> label.
Variable with_ancestors : bool.

(** What the loop keeps from one iteration to the next: the dict and
    [first_item_level]. ([opts] is set once and only names the level
    attribute.) *)
Definition annotator_state : Type := (structure label * Z)%type.

Definition annotator_init : annotator_state :=
  (mk_structure None None None, 0%Z).

(** The [if previous: ... else: ...] part of the loop body. The values
    of the window are model instances or [None]; [None] is falsy. *)
Definition on_previous (st : annotator_state) (previous : option ref)
    (current_level : Z) : result annotator_state :=
  let '(s, first_item_level) := st in
  match previous with
  | Some prev =>
      let nl := (level (h prev) <? current_level)%Z in
      let s1 := mk_structure (Some nl) (closed_levels s) (ancestors s) in
      if with_ancestors then
        cl <- getitem (closed_levels s1) ;;
        s2 <- match cl with
              | [] => Ok s1
              | _ :: _ =>
                  anc <- getitem (ancestors s1) ;;
                  Ok (mk_structure (new_level s1) (closed_levels s1)
                        (Some (firstn (length anc - length cl) anc)))
              end ;;
        if nl then
          anc <- getitem (ancestors s2) ;;
          Ok (mk_structure (new_level s2) (closed_levels s2)
                (Some (anc ++ [callback prev])), first_item_level)
        else Ok (s2, first_item_level)
      else Ok (s1, first_item_level)
  | None =>
      let s1 := mk_structure (Some true) (closed_levels s) (ancestors s) in
      let s2 := if with_ancestors
                then mk_structure (new_level s1) (closed_levels s1) (Some [])
                else s1 in
      Ok (s2, current_level)
  end.

(** One iteration: the new loop state and the pair that is yielded.
    [current._mptt_meta] (or the level lookup) fails on [None]. *)
Definition tree_item_step (st : annotator_state)
    (triple : option ref * option ref * option ref)
  : result (annotator_state * (ref * structure label)) :=
  let '(previous, current, next_) := triple in
  match current with
  | None => Raise AttributeError
  | Some cur =>
      let current_level := level (h cur) in
      st1 <- on_previous st previous current_level ;;
      let '(s, first_item_level) := st1 in
      let cl := match next_ with
                | Some nx => range_down current_level (level (h nx))
                | None => range_down current_level (first_item_level - 1)
                end in
      let s' := mk_structure (new_level s) (Some cl) (ancestors s) in
      Ok ((s', first_item_level), (cur, s'))
  end.

Fixpoint tree_item_loop (triples : list (option ref * option ref * option ref))
    (st : annotator_state) : result (list (ref * structure label)) :=
  match triples with
  | [] => Ok []
  | triple :: rest =>
      r <- tree_item_step st triple ;;
      let '(st', out) := r in
      outs <- tree_item_loop rest st' ;;
      Ok (out :: outs)
  end.

(** The pairs yielded for a list of model instances, or the exception
    that ends the iteration. *)
Definition tree_item_iterator (items : list ref)
  : result (list (ref * structure label)) :=
  tree_item_loop (previous_current_next None (map Some items)) annotator_init.

End TreeItemIterator.

(** ** get_cached_trees *)

(** The argument of [get_cached_trees]: the nodes it iterates over, and
    what [hasattr(queryset, "query")] and [queryset.query.has_filters()]
    give: [None] for an input without a [query] attribute (a plain list),
    [Some b] when [has_filters()] returns [b]. *)
Record queryset : Type := mk_queryset {
  items : list ref;
  query : option bool
}.

Definition is_filtered_of (qs : queryset) : bool :=
  match query qs with
  | Some has_filters => has_filters
  | None => false
  end.

(** The local variables of the pass. [current_path] is kept as a stack:
    its head is Python's [current_path[-1]]. [top_nodes] is in Python's
    order. *)
Record pass_state : Type := mk_pass {
  root_level : option Z;
  current_path : list ref;
  top_nodes : list ref
}.

Definition pass_init : pass_state := mk_pass None [] [].

(** [while len(current_path) > bound: current_path.pop(-1)];
    [pop] on an empty list raises [IndexError]. *)
Fixpoint pop_path (path : list ref) (bound : Z) : result (list ref) :=
  match path with
  | [] => if (0 >? bound)%Z then Raise IndexError else Ok []
  | _ :: rest =>
      if (Z.of_nat (length path) >? bound)%Z then pop_path rest bound
      else Ok path
  end.

(** The first [if]/[elif] of the loop body: the root level to use for
    this node, or the ordering error. *)
Definition choose_root_level (is_filtered : bool) (rl : option Z)
    (node_level : Z) : result Z :=
  match rl with
  | None => Ok node_level
  | Some root =>
      if is_filtered && (node_level <? root)%Z then Ok node_level
      else if (node_level <? root)%Z then Raise ValueError
      else Ok root
  end.

(** The loop body for one [obj]. *)
Definition visit (is_filtered : bool) (obj : ref) (st : pass_state)
    (h : heap) : heap * result pass_state :=
  let node_level := get_level h obj in
  match choose_root_level is_filtered (root_level st) node_level with
  | Raise e => (h, Raise e)
  | Ok root =>
      let h1 := set_cached_children h obj [] in
      match pop_path (current_path st) (node_level - root) with
      | Raise e => (h1, Raise e)
      | Ok path =>
          if (node_level =? root)%Z then
            (h1, Ok (mk_pass (Some root) (obj :: path) (top_nodes st ++ [obj])))
          else
            match path with
            | [] => (h1, Raise IndexError)
            | _parent :: _ =>
                let h2 := set_parent h1 obj _parent in
                match _cached_children (h2 _parent) with
                | None => (h2, Raise AttributeError)
                | Some cs =>
                    let h3 := set_cached_children h2 _parent (cs ++ [obj]) in
                    let h4 := if (root =? 0)%Z
                              then set_use_cached_ancestors h3 obj
                              else h3 in
                    (h4, Ok (mk_pass (Some root) (obj :: path) (top_nodes st)))
                end
            end
      end
  end.

Fixpoint for_each (is_filtered : bool) (objs : list ref) (st : pass_state)
    (h : heap) : heap * result pass_state :=
  match objs with
  | [] => (h, Ok st)
  | obj :: rest =>
      match visit is_filtered obj st h with
      | (h', Ok st') => for_each is_filtered rest st' h'
      | (h', Raise e) => (h', Raise e)
      end
  end.

(** [if queryset:] is false for an empty list or queryset. *)
Definition get_cached_trees (qs : queryset) (h : heap)
  : heap * result (list ref) :=
  match items qs with
  | [] => (h, Ok [])
  | _ :: _ =>
      let is_filtered := is_filtered_of qs in
      match for_each is_filtered (items qs) pass_init h with
      | (h', Ok st) => (h', Ok (top_nodes st))
      | (h', Raise e) => (h', Raise e)
      end
  end.

(** ** clean_tree_ids *)

(** [s.replace("-", "")] *)
Fixpoint remove_dashes (s : string) : string :=
  match s with
  | EmptyString => EmptyString
  | String c s' =>
      if Ascii.eqb c "-"%char then remove_dashes s'
      else String c (remove_dashes s')
  end.

(** [vendor] is [kwargs.get("vendor")]: [None] when the keyword is not
    given. *)
Definition is_postgresql (vendor : option string) : bool :=
  match vendor with
  | Some v => String.eqb v "postgresql"
  | None => false
  end.

(** An id after [_clean_tree_id]: the id as it was sent in, or a string. *)
Inductive cleaned_id (T : Type) : Type :=
| Kept (t : T)
| Stripped (s : string).

Arguments Kept {T} t.
Arguments Stripped {T} s.

(** A value of [results]: a single id or a tuple of ids. *)
Inductive cleaned (T : Type) : Type :=
| Single (c : cleaned_id T)
| Tuple (l : list (cleaned_id T)).

Arguments Single {T} c.
Arguments Tuple {T} l.

Section CleanTreeIds.

(** A tree id is a value of some type [T] (a UUID, a string, an
    integer), never a tuple. [smart_str] is Django's conversion to
    [str], which is not part of this file; [truthy] is Python's truth
    value of a tree id. *)
Context {T : Type}.
Variable smart_str : T -> string.
Variable truthy : T -> bool.

Definition _clean_tree_id (tree_id : T) (vendor : option string)
  : cleaned_id T :=
  if negb (is_postgresql vendor)
  then Stripped (remove_dashes (smart_str tree_id))
  else Kept tree_id.

(** Python's truth value: an empty string and an empty tuple are
    false. *)
Definition truthy_id (c : cleaned_id T) : bool :=
  match c with
  | Kept t => truthy t
  | Stripped s => negb (String.eqb s EmptyString)
  end.

Definition truthy_results (results : cleaned T) : bool :=
  match results with
  | Single c => truthy_id c
  | Tuple [] => false
  | Tuple (_ :: _) => true
  end.

(** The body of the loop, once the id is cleaned. *)
Definition add_cleaned (results : cleaned T) (cleaned_tree_id : cleaned_id T)
  : cleaned T :=
  if negb (truthy_results results) then Single cleaned_tree_id
  else match results with
       | Tuple l => Tuple (l ++ [cleaned_tree_id])
       | Single r => Tuple [r; cleaned_tree_id]
       end.

(** [tree_ids] is the tuple of positional arguments; [root_ordering] is
    the truth value of [kwargs.get("root_ordering", False)].
    [tree_ids[0]] raises [IndexError] on the empty tuple. *)
Definition clean_tree_ids (tree_ids : list T) (root_ordering : bool)
    (vendor : option string) : result (cleaned T) :=
  if root_ordering then
    if (1 <? List.length tree_ids)%nat then Ok (Tuple (map Kept tree_ids))
    else match tree_ids with
         | [] => Raise IndexError
         | t :: _ => Ok (Single (Kept t))
         end
  else
    Ok (fold_left
          (fun results tree_id =>
             add_cleaned results (_clean_tree_id tree_id vendor))
          tree_ids (Tuple [])).

End CleanTreeIds.

(** ** _get_tree_model *)

(** What [_get_tree_model] looks at in a class of the MRO: whether it
    has an attribute [_mptt_meta], and the options [abstract] and
    [proxy] of its [_meta], when it has one. *)
Record meta_options : Type := mk_meta {
  abstract : bool;
  proxy : bool
}.

Record py_class : Type := mk_class {
  class_id : nat;
  hasattr_mptt_meta : bool;
  _meta : option meta_options
}.

(** The [while] loop, on the list [bases] in the order [bases.pop()]
    takes it: last class first. Reading [b._meta] raises
    [AttributeError] when the class has none. *)
Fixpoint scan_bases (bases : list py_class) : result (option py_class) :=
  match bases with
  | [] => Ok None
  | b :: rest =>
      if hasattr_mptt_meta b then
        match _meta b with
        | None => Raise AttributeError
        | Some m =>
            if negb (abstract m || proxy m) then Ok (Some b)
            else scan_bases rest
        end
      else scan_bases rest
  end.

(** [mro] is [list(model_class.mro())]. *)
Definition _get_tree_model (mro : list py_class) : result (option py_class) :=
  scan_bases (rev mro).

(** * Notions used by the specification *)

(** The levels of a list of nodes, in order. *)
Definition levels (h : heap) (nodes : list ref) : list Z :=
  map (get_level h) nodes.

(** First clause of invariant I1: from one node to the next the level
    grows by at most one. *)
Fixpoint level_step_ok (ls : list Z) : Prop :=
  match ls with
  | a :: (b :: _) as rest => (b <= a + 1)%Z /\ level_step_ok rest
  | _ => True
  end.

(** Second clause of I1: the sequence never retreats below the level of
    its first node (the root level of the run). *)
Definition never_below_first (ls : list Z) : Prop :=
  match ls with
  | [] => True
  | first :: _ => Forall (fun l => (first <= l)%Z) ls
  end.

Definition depth_first_consistent (ls : list Z) : Prop :=
  level_step_ok ls /\ never_below_first ls.

(** A list of integers that goes down by exactly one at each position. *)
Fixpoint contiguous_descending (l : list Z) : Prop :=
  match l with
  | a :: (b :: _) as rest => b = (a - 1)%Z /\ contiguous_descending rest
  | _ => True
  end.

(** The window of [previous_current_next] unfolded along the input: the
    first triple has the given predecessor [p]. *)
Fixpoint windows {V : Type} (none p : V) (l : list V) : list (V * V * V) :=
  match l with
  | [] => []
  | x :: rest =>
      (p, x, match rest with [] => none | y :: _ => y end)
        :: windows none x rest
  end.

(** What the annotator is expected to yield for [nodes] when the node
    before them is [prev] and the first node of the whole sequence has
    level [first_level]: the node, its [new_level] and its
    [closed_levels]. *)
Fixpoint annotation (h : heap) (first_level : Z) (prev : option ref)
    (nodes : list ref) : list (ref * bool * list Z) :=
  match nodes with
  | [] => []
  | c :: rest =>
      (c,
       match prev with
       | None => true
       | Some p => (level (h p) <? level (h c))%Z
       end,
       range_down (level (h c))
         (match rest with
          | [] => (first_level - 1)%Z
          | n :: _ => level (h n)
          end))
        :: annotation h first_level (Some c) rest
  end.

(** The level of the first node, 0 for an empty list (the initial value
    of [first_item_level]). *)
Definition first_level_of (h : heap) (nodes : list ref) : Z :=
  match nodes with
  | [] => 0%Z
  | first :: _ => level (h first)
  end.

(** The [new_level] and [closed_levels] a yielded pair carries. *)
Definition shape {label : Type} (out : ref * structure label)
  : ref * option bool * option (list Z) :=
  (fst out, new_level (snd out), closed_levels (snd out)).

Definition shape_of (a : ref * bool * list Z)
  : ref * option bool * option (list Z) :=
  let '(c, nl, cl) := a in (c, Some nl, Some cl).

(** Sum of a list of integers. *)
Definition Zsum (l : list Z) : Z := fold_right Z.add 0%Z l.

(** [len(closed_levels)] of a yielded pair, and 1 when its [new_level]
    is true. *)
Definition len_closed_levels (sh : ref * option bool * option (list Z)) : Z :=
  match snd sh with
  | Some cl => Z.of_nat (length cl)
  | None => 0%Z
  end.

Definition opens_level (sh : ref * option bool * option (list Z)) : Z :=
  match snd (fst sh) with
  | Some true => 1%Z
  | _ => 0%Z
  end.

(** Sum of [len(closed_levels)] over the yielded pairs, and number of
    pairs whose [new_level] is true. *)
Definition closed_total {label : Type} (frames : list (ref * structure label))
  : Z :=
  Zsum (map len_closed_levels (map shape frames)).

Definition opened_total {label : Type} (frames : list (ref * structure label))
  : Z :=
  Zsum (map opens_level (map shape frames)).

(** Number of nodes that are deeper than the node before them. *)
Fixpoint rises (ls : list Z) : Z :=
  match ls with
  | a :: (b :: _) as rest => ((if (a <? b)%Z then 1 else 0) + rises rest)%Z
  | _ => 0%Z
  end.

(** Number of nodes followed by a node at a shallower or equal level. *)
Fixpoint next_not_deeper (ls : list Z) : Z :=
  match ls with
  | a :: (b :: _) as rest =>
      ((if (b <=? a)%Z then 1 else 0) + next_not_deeper rest)%Z
  | _ => 0%Z
  end.

(** The first formula of the specification for the sum of
    [len(closed_levels)]: (first level - last level) + number of nodes
    whose next node is at a shallower or equal level. *)
Definition claimed_closed_total (ls : list Z) : Z :=
  ((hd 0 ls - last ls 0) + next_not_deeper ls)%Z.

(** The ancestors list after the [if previous:] branch, from the list
    [anc] and the [closed_levels] [cl] left by the previous iteration:
    [anc[:-len(cl)]] when [cl] is not empty, then the label of the
    previous node appended when the current node opens a level. *)
Definition ancestors_after {label : Type} (anc : list label) (cl : list Z)
    (nl : bool) (lbl : label) : list label :=
  let kept := match cl with
              | [] => anc
              | _ :: _ => firstn (length anc - length cl) anc
              end in
  if nl then kept ++ [lbl] else kept.

(** The level at which the closed levels of a node stop (exclusive):
    the level of the next node, or one below the first level after the
    last node. *)
Definition stop_level (h : heap) (first_level : Z) (nx : option ref) : Z :=
  match nx with
  | Some n => level (h n)
  | None => (first_level - 1)%Z
  end.

(** ** Notions about the reconstructed tree *)

(** The store after the [else] branch of the loop body has linked [obj]
    below [_parent], whose children were [cs]. *)
Definition link (h : heap) (obj _parent : ref) (cs : list ref) (root : Z)
  : heap :=
  let h2 := set_parent (set_cached_children h obj []) obj _parent in
  let h3 := set_cached_children h2 _parent (cs ++ [obj]) in
  if (root =? 0)%Z then set_use_cached_ancestors h3 obj else h3.

(** A node whose parent link points one level up. *)
Definition linked (h : heap) (r : ref) : Prop :=
  exists p, parent (h r) = Some p /\ level (h p) = (level (h r) - 1)%Z.

(** The levels along the stack [current_path]: [top] at its head, one
    less at each step down. *)
Fixpoint path_levels (h : heap) (path : list ref) (top : Z) : Prop :=
  match path with
  | [] => True
  | q :: rest => level (h q) = top /\ path_levels h rest (top - 1)%Z
  end.

(** Every node of the path has a children list, and the path is not
    empty once a root level is set. *)
Definition path_ready (h : heap) (st : pass_state) : Prop :=
  Forall (fun p => _cached_children (h p) <> None) (current_path st)
  /\ (root_level st <> None -> current_path st <> []).

(** Depth-first pre-order flattening of the forest below [roots]: each
    root, then its children list recursively, then the next root.
    [None] when a node has no children list or the fuel runs out (the
    links of a store may be cyclic). *)
Fixpoint flatten (fuel : nat) (h : heap) (roots : list ref)
  : option (list ref) :=
  match fuel with
  | O => None
  | S fuel' =>
      match roots with
      | [] => Some []
      | r :: rs =>
          match _cached_children (h r) with
          | None => None
          | Some cs =>
              match flatten fuel' h cs, flatten fuel' h rs with
              | Some below, Some after => Some (r :: below ++ after)
              | _, _ => None
              end
          end
      end
  end.

(** The same flattening as a relation. *)
Inductive flats (h : heap) : list ref -> list ref -> Prop :=
| flats_nil : flats h [] []
| flats_cons (r : ref) (cs rs below after : list ref) :
    _cached_children (h r) = Some cs ->
    flats h cs below ->
    flats h rs after ->
    flats h (r :: rs) (r :: below ++ after).

(** The forest under construction, seen along [current_path] (a stack,
    deepest node first): every node [q] of the path has children
    [closed ++ pending], where [pending] is the node above it on the path
    (nothing for the head) and the subtrees of [closed] are complete;
    below the path, [top] is the list of roots, in the same way. [l] is
    the flattening of what has been built. *)
Fixpoint spine (h : heap) (top path pending l : list ref) : Prop :=
  match path with
  | [] => exists closed, top = closed ++ pending /\ flats h closed l
  | q :: rest =>
      exists closed lc l0,
        _cached_children (h q) = Some (closed ++ pending)
        /\ flats h closed lc
        /\ l = l0 ++ q :: lc
        /\ spine h top rest [q] l0
  end.

(** The path and the root level agree: no path before the first node;
    afterwards the path is not empty, its bottom node is at the root
    level and each node above it one level deeper. *)
Definition path_inv (h : heap) (st : pass_state) : Prop :=
  match root_level st with
  | None => current_path st = []
  | Some root =>
      current_path st <> []
      /\ path_levels h (current_path st)
           (root + Z.of_nat (length (current_path st)) - 1)%Z
  end.

(** The levels still to be compared during the pass: the level of the
    node visited last (the head of the path), then those of the nodes to
    come. *)
Definition step_levels (h : heap) (st : pass_state) (rest : list ref)
  : list Z :=
  match current_path st with
  | prev :: _ => level (h prev) :: levels h rest
  | [] => levels h rest
  end.

(** The most recent node at level [lvl] among the nodes [before], which
    are listed from the most recent one back. *)
Definition nearest_at (h : heap) (before : list ref) (lvl : Z) : option ref :=
  find (fun q => (level (h q) =? lvl)%Z) before.

(** Entry [j] of an ancestors list is the label of the most recent node
    at [j] levels below [first_level]. *)
Definition labels_nearest {label : Type} (h : heap) (callback : ref -> label)
    (first_level : Z) (before : list ref) (anc : list label) : Prop :=
  forall j lbl,
    nth_error anc j = Some lbl ->
    exists q,
      nearest_at h before (first_level + Z.of_nat j)%Z = Some q
      /\ lbl = callback q.

(** The nodes whose level is at most the level of every node before
    them, in order; [m] is the smallest level seen so far. *)
Fixpoint prefix_minima (h : heap) (m : option Z) (nodes : list ref)
  : list ref :=
  match nodes with
  | [] => []
  | r :: rest =>
      if match m with
         | None => true
         | Some m0 => (level (h r) <=? m0)%Z
         end
      then r :: prefix_minima h (Some (level (h r))) rest
      else prefix_minima h m rest
  end.

(** Membership in a list of nodes, as a test. *)
Definition mem (r : ref) (l : list ref) : bool := existsb (Nat.eqb r) l.

(** The parent attribute of [c] is [p]. *)
Definition parent_is (h : heap) (c p : ref) : bool :=
  match parent (h c) with
  | Some q => Nat.eqb q p
  | None => false
  end.

(** The nodes of [nodes], in order, that are not roots and whose parent
    attribute is [p]. *)
Definition children_by_parent (h : heap) (top nodes : list ref) (p : ref)
  : list ref :=
  filter (fun c => negb (mem c top) && parent_is h c p) nodes.

(** What holds of the store and the pass state once the nodes [done]
    have been visited: the path and the roots are among them, every
    visited node that is not a root has a visited parent, and the
    children list of a visited node holds the visited non-root nodes
    that have it as parent. *)
Definition tree_inv (h : heap) (st : pass_state) (done : list ref) : Prop :=
  incl (current_path st) done
  /\ incl (top_nodes st) done
  /\ (forall c, In c done -> ~ In c (top_nodes st) ->
              exists p, parent (h c) = Some p /\ In p done)
  /\ (forall p, In p done ->
              _cached_children (h p)
              = Some (children_by_parent h (top_nodes st) done p)).

(** What holds of the parent links once the nodes [done] have been
    visited: every node of the path is the most recent visited node at
    its level, and every visited node that is not a root has as parent
    the most recent node one level up among those visited before it. *)
Definition near_inv (h : heap) (st : pass_state) (done : list ref) : Prop :=
  (forall q, In q (current_path st) ->
             nearest_at h (rev done) (level (h q)) = Some q)
  /\ (forall pre r post,
        done = pre ++ r :: post ->
        ~ In r (top_nodes st) ->
        exists p,
          parent (h r) = Some p
          /\ nearest_at h (rev pre) (level (h r) - 1)%Z = Some p).

(** ** Notions about tree ids and model classes *)

(** The ids a value of [results] holds. *)
Definition ids_of {T : Type} (results : cleaned T) : list (cleaned_id T) :=
  match results with
  | Single c => [c]
  | Tuple l => l
  end.

(** A class that [_get_tree_model] accepts: it has [_mptt_meta] and its
    [_meta] is neither abstract nor proxy. *)
Definition is_tree_model (b : py_class) : bool :=
  hasattr_mptt_meta b
  && match _meta b with
     | Some m => negb (abstract m || proxy m)
     | None => false
     end.

(** Every class with [_mptt_meta] has a [_meta], as Django models do. *)
Definition has_meta (b : py_class) : Prop :=
  hasattr_mptt_meta b = true -> _meta b <> None.

(** ** Concrete stores

    The store in which node [r] has the level at position [r] of [ls]
    (0 beyond the list) and no other attribute set. *)
Definition heap_of_levels (ls : list Z) : heap :=
  fun r => mk_node (nth r ls 0%Z) None None false.

(** A plain list of the first [n] nodes, and the same nodes as a
    queryset with filters. *)
Definition plain_list (n : nat) : queryset := mk_queryset (seq 0 n) None.

Definition filtered_queryset (n : nat) : queryset :=
  mk_queryset (seq 0 n) (Some true).

(** Four classes of an MRO, most derived first: two concrete tree
    models, an abstract one, and [object], which has neither
    [_mptt_meta] nor [_meta]. *)
Definition example_mro : list py_class :=
  [ mk_class 0 true (Some (mk_meta false false));
    mk_class 1 true (Some (mk_meta false false));
    mk_class 2 true (Some (mk_meta true false));
    mk_class 3 false None ].

(** The same levels as [heap_of_levels], in a store where every object
    carries links left over from elsewhere. *)
Definition stale_heap_of_levels (ls : list Z) : heap :=
  fun r => mk_node (nth r ls 0%Z) (Some 7%nat) (Some [9%nat; r]) true.

(** * Properties *)

(** ** Results *)

Lemma bind_ok {A B : Type} (m : result A) (k : A -> result B) (b : B) :
  bind m k = Ok b -> exists a, m = Ok a /\ k a = Ok b.
Proof. destruct m as [a|e]; cbn; [eauto | discriminate]. Qed.

(** ** The windowed iterator *)

Section PreviousCurrentNextFacts.

Context {V : Type}.
Variable none : V.

Lemma zip3_shift (p x y : V) (l : list V) :
  zip3 (p :: x :: y :: l) (x :: y :: l) (y :: l)
  = (p, x, y) :: zip3 (x :: y :: l) (y :: l) l.
Proof. reflexivity. Qed.

Lemma zip3_windows (p : V) (l : list V) :
  zip3 (p :: l ++ [none]) (l ++ [none]) (tl (l ++ [none]))
  = windows none p l.
Proof.
  revert p; induction l as [|x rest IH]; intros p; [reflexivity|].
  destruct rest as [|y rest'].
  - reflexivity.
  - cbn [app tl] in *. rewrite zip3_shift. cbn [windows]. f_equal.
    apply IH.
Qed.

Lemma previous_current_next_windows (l : list V) :
  previous_current_next none l = windows none none l.
Proof.
  unfold previous_current_next. cbn [app tl]. apply zip3_windows.
Qed.

Lemma windows_length (p : V) (l : list V) :
  length (windows none p l) = length l.
Proof.
  revert p; induction l as [|x rest IH]; intros p; cbn; [|rewrite IH];
    reflexivity.
Qed.

(** Triple [i] of the window, component by component: the item before,
    the item, the item after, [none] standing in at both ends. *)
Lemma windows_nth (l : list V) :
  forall (p : V) (i : nat) (a c b : V),
    nth_error (windows none p l) i = Some (a, c, b) ->
    nth_error l i = Some c
    /\ a = match i with O => p | S j => nth j l none end
    /\ b = nth (S i) l none.
Proof.
  induction l as [|x rest IH]; intros p i a c b H.
  - destruct i; discriminate.
  - destruct i as [|j]; cbn in H.
    + inversion H; subst. repeat split. destruct rest; reflexivity.
    + apply IH in H. destruct H as (Hc & Ha & Hb). repeat split.
      * exact Hc.
      * rewrite Ha. destruct j; reflexivity.
      * exact Hb.
Qed.

End PreviousCurrentNextFacts.

(** C6 (amended): for every finite input sequence of length n that does
    not contain [None] itself, [previous_current_next] yields exactly n
    triples; the current component of triple i is input[i]; its previous
    component is [None] if and only if i = 0 and its next component is
    [None] if and only if i = n-1. *)
Theorem previous_current_next_triples {V : Type} (none : V) (l : list V) :
  ~ In none l ->
  length (previous_current_next none l) = length l
  /\ forall (i : nat) (a c b : V),
       nth_error (previous_current_next none l) i = Some (a, c, b) ->
       nth_error l i = Some c
       /\ (a = none <-> i = 0%nat)
       /\ (b = none <-> S i = length l).
Proof.
  intros Hnone. rewrite previous_current_next_windows. split.
  - apply windows_length.
  - intros i a c b H. apply windows_nth in H. destruct H as (Hc & Ha & Hb).
    assert (Hi : (i < length l)%nat)
      by (apply nth_error_Some; congruence).
    split; [exact Hc|]. split.
    + destruct i as [|j]; [tauto|]. split; [|discriminate].
      intros E. exfalso. apply Hnone. rewrite <- E, Ha.
      apply nth_In. lia.
    + split.
      * intros E. destruct (Nat.eq_dec (S i) (length l)) as [|Hne]; [assumption|].
        exfalso. apply Hnone. rewrite <- E, Hb. apply nth_In. lia.
      * intros E. rewrite Hb. apply nth_overflow. lia.
Qed.

Lemma previous_current_next_triples_witness :
  ~ In None [Some 4%nat; Some 5%nat; Some 6%nat]
  /\ length (previous_current_next None [Some 4%nat; Some 5%nat; Some 6%nat])
     = 3%nat
  /\ forall (i : nat) (a c b : option nat),
       nth_error
         (previous_current_next None [Some 4%nat; Some 5%nat; Some 6%nat]) i
       = Some (a, c, b) ->
       nth_error [Some 4%nat; Some 5%nat; Some 6%nat] i = Some c
       /\ (a = None <-> i = 0%nat)
       /\ (b = None <-> S i = 3%nat).
Proof.
  assert (H : ~ In None [Some 4%nat; Some 5%nat; Some 6%nat]).
  { cbn. intros [E|[E|[E|[]]]]; discriminate E. }
  split; [exact H|].
  exact (previous_current_next_triples None _ H).
Defined.

(** C6 as stated fails when an item is [None]: in the triples of
    [[None; 1]] the previous component of triple 1 is [None]. *)
Lemma previous_current_next_none_item :
  nth_error (previous_current_next None [None; Some 1%nat]) 1
  = Some (None, Some 1%nat, None)
  /\ ~ (forall (i : nat) (a c b : option nat),
          nth_error (previous_current_next None [None; Some 1%nat]) i
          = Some (a, c, b) ->
          (a = None <-> i = 0%nat)).
Proof.
  split; [reflexivity|].
  intros H. specialize (H 1%nat None (Some 1%nat) None eq_refl).
  destruct H as [H _]. specialize (H eq_refl). discriminate H.
Qed.

(** For any input, also one with [None] items, triple i holds the item
    before input[i], input[i] and the item after it. *)
Lemma previous_current_next_neighbours {V : Type} (none : V) (l : list V)
    (i : nat) (a c b : V) :
  nth_error (previous_current_next none l) i = Some (a, c, b) ->
  nth_error l i = Some c
  /\ a = match i with O => none | S j => nth j l none end
  /\ b = nth (S i) l none.
Proof. rewrite previous_current_next_windows. apply windows_nth. Qed.

(** ** Python's descending range *)

Lemma range_down_length (a b : Z) :
  length (range_down a b) = Z.to_nat (a - b).
Proof. unfold range_down. now rewrite length_map, length_seq. Qed.

Lemma range_down_In (a b z : Z) :
  In z (range_down a b) <-> (b < z <= a)%Z.
Proof.
  unfold range_down. rewrite in_map_iff. split.
  - intros (i & <- & Hi). apply in_seq in Hi. lia.
  - intros Hz. exists (Z.to_nat (a - z)). split; [lia|].
    apply in_seq. lia.
Qed.

Lemma range_down_empty (a b : Z) :
  (a <= b)%Z -> range_down a b = [].
Proof.
  intros H. unfold range_down.
  replace (Z.to_nat (a - b)) with 0%nat by lia. reflexivity.
Qed.

Lemma contiguous_descending_map_seq (a : Z) (n s : nat) :
  contiguous_descending (map (fun i => (a - Z.of_nat i)%Z) (seq s n)).
Proof.
  revert s; induction n as [|n IH]; intros s; [exact I|].
  cbn [seq map]. destruct n as [|n']; [exact I|].
  specialize (IH (S s)). cbn [seq map] in *. split; [lia | exact IH].
Qed.

Lemma range_down_contiguous (a b : Z) :
  contiguous_descending (range_down a b).
Proof. apply contiguous_descending_map_seq. Qed.

(** ** The structural annotator *)

Section AnnotatorFacts.

Context {label : Type}.
Variable h : heap.
Variable callback : ref -> label.

(** The first iteration: [previous] is [None]. *)
Lemma tree_item_step_first (b : bool) (s : structure label) (fil : Z)
    (c : ref) (nx : option ref) :
  let s' := mk_structure (Some true)
              (Some (range_down (level (h c)) (stop_level h (level (h c)) nx)))
              (if b then Some [] else ancestors s) in
  tree_item_step h callback b (s, fil) (None, Some c, nx)
  = Ok ((s', level (h c)), (c, s')).
Proof. destruct b, nx; reflexivity. Qed.

(** A later iteration without ancestors. *)
Lemma tree_item_step_plain (s : structure label) (fil : Z)
    (p c : ref) (nx : option ref) :
  let s' := mk_structure (Some (level (h p) <? level (h c))%Z)
              (Some (range_down (level (h c)) (stop_level h fil nx)))
              (ancestors s) in
  tree_item_step h callback false (s, fil) (Some p, Some c, nx)
  = Ok ((s', fil), (c, s')).
Proof. destruct nx; reflexivity. Qed.

(** A later iteration with ancestors: both keys it reads are present. *)
Lemma tree_item_step_ancestors (s : structure label) (fil : Z)
    (p c : ref) (nx : option ref) (cl0 : list Z) (anc : list label) :
  closed_levels s = Some cl0 ->
  ancestors s = Some anc ->
  let nl := (level (h p) <? level (h c))%Z in
  let s' := mk_structure (Some nl)
              (Some (range_down (level (h c)) (stop_level h fil nx)))
              (Some (ancestors_after anc cl0 nl (callback p))) in
  tree_item_step h callback true (s, fil) (Some p, Some c, nx)
  = Ok ((s', fil), (c, s')).
Proof.
  intros Hcl Hanc. destruct s as [snl scl sanc]. cbn in Hcl, Hanc. subst.
  unfold ancestors_after.
  destruct cl0, nx, (level (h p) <? level (h c))%Z eqn:E; cbn; rewrite ?E;
    reflexivity.
Qed.

(** The loop after the first node: all iterations succeed, and the pairs
    they yield carry the expected [new_level] and [closed_levels]. *)
Lemma tree_item_loop_shape (b : bool) (rest : list ref) :
  forall (p c : ref) (s : structure label) (fil : Z),
    closed_levels s <> None ->
    (b = true -> ancestors s <> None) ->
    exists frames,
      tree_item_loop h callback b
        (windows None (Some p) (map Some (c :: rest))) (s, fil) = Ok frames
      /\ map shape frames = map shape_of (annotation h fil (Some p) (c :: rest)).
Proof.
  induction rest as [|n rest IH]; intros p c s fil Hcl Hanc.
  - destruct (closed_levels s) as [cl0|] eqn:Ecl; [|congruence].
    destruct b.
    + destruct (ancestors s) as [anc|] eqn:Ea; [|now exfalso; apply Hanc].
      cbn [map windows tree_item_loop].
      rewrite (tree_item_step_ancestors s fil p c None cl0 anc Ecl Ea).
      cbn. eexists; split; reflexivity.
    + cbn [map windows tree_item_loop].
      rewrite (tree_item_step_plain s fil p c None).
      cbn. eexists; split; reflexivity.
  - destruct (closed_levels s) as [cl0|] eqn:Ecl; [|congruence].
    change (map Some (c :: n :: rest)) with (Some c :: map Some (n :: rest)).
    cbn [windows tree_item_loop]. cbn [map].
    destruct b.
    + destruct (ancestors s) as [anc|] eqn:Ea; [|now exfalso; apply Hanc].
      rewrite (tree_item_step_ancestors s fil p c (Some n) cl0 anc Ecl Ea).
      cbn [bind].
      match goal with
      | |- context [tree_item_loop _ _ _ _ (?s', _)] =>
          destruct (IH c n s' fil) as (frames & Hf & Hs);
            [cbn; congruence | cbn; congruence |]
      end.
      cbn [map] in Hf. rewrite Hf. cbn [bind].
      eexists; split; [reflexivity|].
      cbn [map annotation]. rewrite Hs. reflexivity.
    + rewrite (tree_item_step_plain s fil p c (Some n)).
      cbn [bind].
      match goal with
      | |- context [tree_item_loop _ _ _ _ (?s', _)] =>
          destruct (IH c n s' fil) as (frames & Hf & Hs);
            [cbn; congruence | congruence |]
      end.
      cbn [map] in Hf. rewrite Hf. cbn [bind].
      eexists; split; [reflexivity|].
      cbn [map annotation]. rewrite Hs. reflexivity.
Qed.

(** The whole iterator: it never raises, and yields one pair per node,
    with the expected [new_level] and [closed_levels]. *)
Lemma tree_item_iterator_shape (b : bool) (nodes : list ref) :
  exists frames,
    tree_item_iterator h callback b nodes = Ok frames
    /\ map shape frames
       = map shape_of (annotation h (first_level_of h nodes) None nodes).
Proof.
  unfold tree_item_iterator, annotator_init.
  rewrite previous_current_next_windows.
  destruct nodes as [|c rest]; [exists []; split; reflexivity|].
  destruct rest as [|n rest].
  - cbn [map windows tree_item_loop].
    rewrite (tree_item_step_first b _ _ c None). cbn.
    eexists; split; reflexivity.
  - change (map Some (c :: n :: rest)) with (Some c :: map Some (n :: rest)).
    cbn [windows tree_item_loop]. cbn [map].
    rewrite (tree_item_step_first b _ _ c (Some n)). cbn [bind].
    match goal with
    | |- context [tree_item_loop _ _ _ _ (?s', _)] =>
        destruct (tree_item_loop_shape b rest c n s' (level (h c)))
          as (frames & Hf & Hs);
          [cbn; congruence | destruct b; cbn; congruence |]
    end.
    cbn [map] in Hf. rewrite Hf. cbn [bind].
    eexists; split; [reflexivity|].
    cbn [map annotation first_level_of]. rewrite Hs. reflexivity.
Qed.

End AnnotatorFacts.

(** ** The expected annotation *)

Lemma annotation_nodes (h : heap) (fil : Z) (nodes : list ref) :
  forall prev,
    map (fun a : ref * bool * list Z => fst (fst a))
      (annotation h fil prev nodes) = nodes.
Proof.
  induction nodes as [|c rest IH]; intros prev; [reflexivity|].
  cbn. now rewrite IH.
Qed.

Lemma annotation_nth (h : heap) (fil : Z) (nodes : list ref) :
  forall prev (i : nat) (c : ref) (nl : bool) (cl : list Z),
    nth_error (annotation h fil prev nodes) i = Some (c, nl, cl) ->
    nth_error nodes i = Some c
    /\ cl = range_down (level (h c)) (stop_level h fil (nth_error nodes (S i))).
Proof.
  induction nodes as [|x rest IH]; intros prev i c nl cl H.
  - destruct i; discriminate.
  - destruct i as [|j].
    + cbn in H. inversion H; subst. split; [reflexivity|].
      destruct rest; reflexivity.
    + cbn [annotation nth_error] in H. apply IH in H. exact H.
Qed.

Lemma shape_nth {label : Type} (frames : list (ref * structure label)) :
  forall (ann : list (ref * bool * list Z)) (i : nat) (c : ref)
         (fr : structure label),
    map shape frames = map shape_of ann ->
    nth_error frames i = Some (c, fr) ->
    exists nl cl,
      nth_error ann i = Some (c, nl, cl)
      /\ new_level fr = Some nl /\ closed_levels fr = Some cl.
Proof.
  induction frames as [|f frames IH]; intros ann i c fr Hm Hn.
  - destruct i; discriminate.
  - destruct ann as [|a ann]; [discriminate|].
    cbn [map] in Hm. inversion Hm as [[Hs Hrest]].
    destruct i as [|j].
    + cbn in Hn. inversion Hn; subst f. destruct a as [[c' nl] cl].
      unfold shape, shape_of in Hs. cbn in Hs. inversion Hs; subst.
      exists nl, cl. repeat split; assumption.
    + cbn in Hn. cbn [nth_error]. eapply IH; eassumption.
Qed.

Lemma shape_nodes {label : Type} (frames : list (ref * structure label))
    (ann : list (ref * bool * list Z)) :
  map shape frames = map shape_of ann ->
  map fst frames = map (fun a : ref * bool * list Z => fst (fst a)) ann.
Proof.
  revert ann; induction frames as [|f frames IH]; intros [|a ann] Hm;
    try discriminate; [reflexivity|].
  cbn [map] in *. inversion Hm as [[Hs Hrest]]. f_equal.
  - destruct a as [[c nl] cl]. unfold shape, shape_of in Hs.
    now inversion Hs.
  - now apply IH.
Qed.

(** C5: every pair yielded by [tree_item_iterator] has a [closed_levels]
    list that goes down one by one and holds exactly the levels from the
    level of the node down to, exclusive, the level of the next node
    (none when the next node is not shallower) and, for the last node,
    down to, inclusive, the level of the first node. The iterator yields
    one such pair per node, for every input. *)
Theorem closed_levels_range {label : Type} (h : heap)
    (callback : ref -> label) (b : bool) (nodes : list ref) :
  exists frames,
    tree_item_iterator h callback b nodes = Ok frames
    /\ map fst frames = nodes
    /\ forall (i : nat) (cur : ref) (fr : structure label),
         nth_error frames i = Some (cur, fr) ->
         exists cl,
           closed_levels fr = Some cl
           /\ contiguous_descending cl
           /\ match nth_error nodes (S i) with
              | Some nx =>
                  (forall z, In z cl <-> (level (h nx) < z <= level (h cur))%Z)
                  /\ ((level (h cur) <= level (h nx))%Z -> cl = [])
              | None =>
                  forall z,
                    In z cl
                    <-> (first_level_of h nodes <= z <= level (h cur))%Z
              end.
Proof.
  destruct (tree_item_iterator_shape h callback b nodes) as (frames & Hf & Hs).
  exists frames. split; [exact Hf|]. split.
  - rewrite (shape_nodes _ _ Hs). apply annotation_nodes.
  - intros i cur fr Hn.
    destruct (shape_nth _ _ _ _ _ Hs Hn) as (nl & cl & Ha & _ & Hcl).
    apply annotation_nth in Ha. destruct Ha as (_ & ->).
    eexists. split; [exact Hcl|]. split; [apply range_down_contiguous|].
    destruct (nth_error nodes (S i)) as [nx|]; cbn [stop_level].
    + split; [intros z; apply range_down_In | apply range_down_empty].
    + intros z. rewrite range_down_In. lia.
Qed.

(** The single-node case of the specification. *)
Lemma tree_item_iterator_single {label : Type} (h : heap)
    (callback : ref -> label) (c : ref) :
  tree_item_iterator h callback true [c]
  = Ok [(c, mk_structure (Some true) (Some [level (h c)]) (Some []))].
Proof.
  unfold tree_item_iterator, annotator_init.
  rewrite previous_current_next_windows. cbn [map windows tree_item_loop].
  rewrite tree_item_step_first. cbn. unfold range_down.
  replace (Z.to_nat (level (h c) - (level (h c) - 1))) with 1%nat by lia.
  cbn. repeat f_equal. lia.
Qed.

(** ** Depth-first consistent level lists *)

Lemma level_step_ok_tail (a : Z) (ls : list Z) :
  level_step_ok (a :: ls) -> level_step_ok ls.
Proof. destruct ls as [|b ls]; cbn; tauto. Qed.

Lemma depth_first_consistent_cons (h : heap) (c : ref) (rest : list ref) :
  depth_first_consistent (levels h (c :: rest)) ->
  level_step_ok (levels h (c :: rest))
  /\ Forall (fun l => (level (h c) <= l)%Z) (levels h (c :: rest)).
Proof. intros [Hs Hb]. split; assumption. Qed.

(** ** Length of the ancestors list *)

Lemma ancestors_after_length {label : Type} (anc : list label) (cl0 : list Z)
    (lbl : label) (lp lc fil : Z) :
  length cl0 = Z.to_nat (lp - lc) ->
  Z.of_nat (length anc) = (lp - fil)%Z ->
  (lc <= lp + 1)%Z ->
  (fil <= lc)%Z ->
  Z.of_nat (length (ancestors_after anc cl0 (lp <? lc)%Z lbl)) = (lc - fil)%Z.
Proof.
  intros Hcl Hanc Hstep Hfil. unfold ancestors_after.
  destruct cl0 as [|z cl0].
  - cbn in Hcl. destruct (Z.ltb_spec lp lc).
    + rewrite length_app. cbn. lia.
    + lia.
  - cbn [length] in Hcl. destruct (Z.ltb_spec lp lc); [lia|].
    rewrite length_firstn. cbn [length]. lia.
Qed.

Section AncestorsFacts.

Context {label : Type}.
Variable h : heap.
Variable callback : ref -> label.

(** The loop after the first node, on a depth-first consistent input:
    the invariant is that the ancestors list left by the node before has
    as many entries as that node is below the first level. *)
Lemma tree_item_loop_ancestors (rest : list ref) :
  forall (p c : ref) (s : structure label) (fil : Z) (anc : list label),
    closed_levels s = Some (range_down (level (h p)) (level (h c))) ->
    ancestors s = Some anc ->
    Z.of_nat (length anc) = (level (h p) - fil)%Z ->
    level_step_ok (levels h (p :: c :: rest)) ->
    Forall (fun l => (fil <= l)%Z) (levels h (c :: rest)) ->
    exists frames,
      tree_item_loop h callback true
        (windows None (Some p) (map Some (c :: rest))) (s, fil) = Ok frames
      /\ forall (x : ref) (fr : structure label),
           In (x, fr) frames ->
           exists a,
             ancestors fr = Some a
             /\ Z.of_nat (length a) = (level (h x) - fil)%Z.
Proof.
  induction rest as [|n rest IH]; intros p c s fil anc Hcl Hanc Hlen Hstep Hfil.
  - cbn [map windows tree_item_loop].
    rewrite (tree_item_step_ancestors h callback s fil p c None _ _ Hcl Hanc).
    cbn [bind]. eexists; split; [reflexivity|].
    intros x fr [E|[]]. inversion E; subst. eexists; split; [reflexivity|].
    cbn in Hstep. inversion Hfil; subst. unfold get_level in *.
    apply ancestors_after_length; try lia.
    rewrite range_down_length. reflexivity.
  - change (map Some (c :: n :: rest)) with (Some c :: map Some (n :: rest)).
    cbn [windows tree_item_loop]. cbn [map].
    rewrite (tree_item_step_ancestors h callback s fil p c (Some n) _ _ Hcl Hanc).
    cbn [bind].
    assert (Hstep' : level_step_ok (levels h (c :: n :: rest)))
      by (eapply level_step_ok_tail; exact Hstep).
    assert (Hc : (fil <= level (h c))%Z) by (inversion Hfil; assumption).
    assert (Hpc : (level (h c) <= level (h p) + 1)%Z)
      by (cbn in Hstep; unfold get_level in Hstep; lia).
    assert (Hnew : Z.of_nat (length (ancestors_after anc
                     (range_down (level (h p)) (level (h c)))
                     (level (h p) <? level (h c))%Z (callback p)))
                   = (level (h c) - fil)%Z).
    { apply ancestors_after_length; try lia. apply range_down_length. }
    match goal with
    | |- context [tree_item_loop _ _ _ _ (?s', _)] =>
        destruct (IH c n s' fil _ eq_refl eq_refl Hnew Hstep')
          as (frames & Hf & Hall)
    end.
    { inversion Hfil; assumption. }
    cbn [map] in Hf. rewrite Hf. cbn [bind].
    eexists; split; [reflexivity|].
    intros x fr [E|Hin].
    + inversion E; subst. eexists; split; [reflexivity | exact Hnew].
    + now apply Hall.
Qed.

End AncestorsFacts.

(** C4: on a depth-first consistent input, [tree_item_iterator] run with
    [ancestors=True] never raises, yields one pair per node, and in each
    pair the ancestors list has length level(node) - level(first node
    of the sequence). *)
Theorem ancestors_length {label : Type} (h : heap) (callback : ref -> label)
    (nodes : list ref) :
  depth_first_consistent (levels h nodes) ->
  exists frames,
    tree_item_iterator h callback true nodes = Ok frames
    /\ map fst frames = nodes
    /\ forall (cur : ref) (fr : structure label),
         In (cur, fr) frames ->
         exists anc,
           ancestors fr = Some anc
           /\ Z.of_nat (length anc)
              = (level (h cur) - first_level_of h nodes)%Z.
Proof.
  intros Hdfc.
  destruct (tree_item_iterator_shape h callback true nodes)
    as (frames & Hf & Hs).
  exists frames. split; [exact Hf|]. split.
  { rewrite (shape_nodes _ _ Hs). apply annotation_nodes. }
  clear Hs. revert Hf. unfold tree_item_iterator, annotator_init.
  rewrite previous_current_next_windows.
  destruct nodes as [|c rest]; [cbn; intros E; inversion E; intros ? ? []|].
  apply depth_first_consistent_cons in Hdfc. destruct Hdfc as [Hstep Hfil].
  destruct rest as [|n rest].
  - cbn [map windows tree_item_loop]. rewrite tree_item_step_first.
    cbn [bind]. intros E; inversion E; subst.
    intros cur fr [E'|[]]. inversion E'; subst. exists [].
    split; [reflexivity|]. cbn. lia.
  - change (map Some (c :: n :: rest)) with (Some c :: map Some (n :: rest)).
    cbn [windows tree_item_loop]. cbn [map].
    rewrite tree_item_step_first. cbn [bind stop_level].
    match goal with
    | |- context [tree_item_loop _ _ _ _ (?s', _)] =>
        destruct (tree_item_loop_ancestors h callback rest c n s'
                    (level (h c)) [] eq_refl eq_refl)
          as (frames' & Hf' & Hall)
    end.
    + cbn. lia.
    + exact Hstep.
    + inversion Hfil; assumption.
    + cbn [map] in Hf'. rewrite Hf'. cbn [bind].
      intros E; inversion E; subst.
      intros cur fr [E'|Hin].
      * inversion E'; subst. exists []. split; [reflexivity|]. cbn. lia.
      * cbn [first_level_of]. now apply Hall.
Qed.

Lemma ancestors_length_witness :
  depth_first_consistent
    (levels (heap_of_levels [0; 1; 2; 1; 0]%Z) [0; 1; 2; 3; 4]%nat)
  /\ exists frames,
       tree_item_iterator (heap_of_levels [0; 1; 2; 1; 0]%Z) (fun r => r) true
         [0; 1; 2; 3; 4]%nat = Ok frames
       /\ map fst frames = [0; 1; 2; 3; 4]%nat
       /\ forall (cur : ref) (fr : structure ref),
            In (cur, fr) frames ->
            exists anc,
              ancestors fr = Some anc
              /\ Z.of_nat (length anc)
                 = (level (heap_of_levels [0; 1; 2; 1; 0]%Z cur)
                    - first_level_of (heap_of_levels [0; 1; 2; 1; 0]%Z)
                        [0; 1; 2; 3; 4]%nat)%Z.
Proof.
  assert (H : depth_first_consistent
                (levels (heap_of_levels [0; 1; 2; 1; 0]%Z) [0; 1; 2; 3; 4]%nat)).
  { split; cbn; [lia | repeat constructor; lia]. }
  split; [exact H|].
  exact (ancestors_length (heap_of_levels [0; 1; 2; 1; 0]%Z) (fun r => r)
           [0; 1; 2; 3; 4]%nat H).
Defined.

(** The second clause of I1 is needed: on levels [1,0] the second node
    is below the first one, and its ancestors list is empty (its length
    cannot be level - first level = -1). *)
Lemma ancestors_below_first_level :
  level_step_ok (levels (heap_of_levels [1; 0]%Z) [0; 1]%nat)
  /\ tree_item_iterator (heap_of_levels [1; 0]%Z) (fun r => r) true
       [0; 1]%nat
     = Ok [ (0%nat, mk_structure (Some true) (Some [1%Z]) (Some []));
            (1%nat, mk_structure (Some false) (Some []) (Some [])) ].
Proof. split; [cbn; lia | reflexivity]. Qed.

(** The concrete scenario of the specification: levels [0,1,2,1,0]. *)
Lemma tree_item_iterator_scenario :
  tree_item_iterator (heap_of_levels [0; 1; 2; 1; 0]%Z) (fun r => r) true
    [0; 1; 2; 3; 4]%nat
  = Ok [ (0%nat, mk_structure (Some true) (Some []) (Some []));
         (1%nat, mk_structure (Some true) (Some []) (Some [0%nat]));
         (2%nat, mk_structure (Some true) (Some [2%Z]) (Some [0%nat; 1%nat]));
         (3%nat, mk_structure (Some false) (Some [1%Z]) (Some [0%nat]));
         (4%nat, mk_structure (Some false) (Some [0%Z]) (Some [])) ].
Proof. reflexivity. Qed.

(** ** Levels opened and closed *)

Lemma annotation_closed_total (h : heap) (fil : Z) (rest : list ref) :
  forall (c : ref) (prev : option ref),
    level_step_ok (levels h (c :: rest)) ->
    Forall (fun l => (fil <= l)%Z) (levels h (c :: rest)) ->
    Zsum (map len_closed_levels
            (map shape_of (annotation h fil prev (c :: rest))))
    = (rises (levels h (c :: rest)) + level (h c) - fil + 1)%Z.
Proof.
  induction rest as [|n rest IH]; intros c prev Hstep Hfil.
  - cbn. unfold len_closed_levels. cbn. rewrite range_down_length.
    inversion Hfil; subst. unfold get_level in *. lia.
  - assert (Hstep' : level_step_ok (levels h (n :: rest)))
      by (eapply level_step_ok_tail; exact Hstep).
    assert (Hfil' : Forall (fun l => (fil <= l)%Z) (levels h (n :: rest)))
      by (inversion Hfil; assumption).
    specialize (IH n (Some c) Hstep' Hfil').
    change (annotation h fil prev (c :: n :: rest))
      with ((c, match prev with
                | None => true
                | Some p => (level (h p) <? level (h c))%Z
                end, range_down (level (h c)) (level (h n)))
              :: annotation h fil (Some c) (n :: rest)).
    cbn [map Zsum fold_right]. fold (Zsum
      (map len_closed_levels
         (map shape_of (annotation h fil (Some c) (n :: rest))))).
    rewrite IH. unfold len_closed_levels, shape_of. cbn [snd].
    rewrite range_down_length.
    change (levels h (c :: n :: rest))
      with (level (h c) :: level (h n) :: levels h rest).
    change (levels h (n :: rest)) with (level (h n) :: levels h rest).
    cbn [rises].
    change (levels h (c :: n :: rest))
      with (level (h c) :: level (h n) :: levels h rest) in Hstep.
    cbn [level_step_ok] in Hstep.
    destruct (Z.ltb_spec (level (h c)) (level (h n))); lia.
Qed.

Lemma annotation_opened_total (h : heap) (fil : Z) (rest : list ref) :
  forall (c : ref) (prev : option ref),
    Zsum (map opens_level (map shape_of (annotation h fil prev (c :: rest))))
    = ((match prev with
        | None => 1
        | Some p => if (level (h p) <? level (h c))%Z then 1 else 0
        end) + rises (levels h (c :: rest)))%Z.
Proof.
  induction rest as [|n rest IH]; intros c prev.
  - cbn. unfold opens_level. cbn. destruct prev as [p|]; [|reflexivity].
    destruct (level (h p) <? level (h c))%Z; reflexivity.
  - specialize (IH n (Some c)).
    change (annotation h fil prev (c :: n :: rest))
      with ((c, match prev with
                | None => true
                | Some p => (level (h p) <? level (h c))%Z
                end, range_down (level (h c)) (level (h n)))
              :: annotation h fil (Some c) (n :: rest)).
    cbn [map Zsum fold_right]. fold (Zsum
      (map opens_level
         (map shape_of (annotation h fil (Some c) (n :: rest))))).
    rewrite IH. unfold opens_level, shape_of. cbn [snd fst].
    change (levels h (c :: n :: rest))
      with (level (h c) :: level (h n) :: levels h rest).
    change (levels h (n :: rest)) with (level (h n) :: levels h rest).
    cbn [rises].
    destruct prev as [p|]; [destruct (level (h p) <? level (h c))%Z|]; lia.
Qed.

(** C7 (amended): on a depth-first consistent input the sum over all
    yielded pairs of [len(closed_levels)] equals the number of pairs
    whose [new_level] is true: every level opened is closed exactly
    once. That number is one more than the number of nodes deeper than
    the node before them. *)
Theorem closed_levels_total {label : Type} (h : heap)
    (callback : ref -> label) (b : bool) (nodes : list ref) :
  depth_first_consistent (levels h nodes) ->
  exists frames,
    tree_item_iterator h callback b nodes = Ok frames
    /\ closed_total frames = opened_total frames
    /\ (nodes <> [] ->
        opened_total frames = (1 + rises (levels h nodes))%Z).
Proof.
  intros Hdfc.
  destruct (tree_item_iterator_shape h callback b nodes) as (frames & Hf & Hs).
  exists frames. split; [exact Hf|].
  unfold closed_total, opened_total. rewrite Hs.
  destruct nodes as [|c rest]; [split; [reflexivity | congruence]|].
  apply depth_first_consistent_cons in Hdfc. destruct Hdfc as [Hstep Hfil].
  cbn [first_level_of].
  rewrite annotation_closed_total by assumption.
  rewrite annotation_opened_total. split; [lia | intros _; reflexivity].
Qed.

Lemma closed_levels_total_witness :
  depth_first_consistent
    (levels (heap_of_levels [0; 1; 2; 1; 0]%Z) [0; 1; 2; 3; 4]%nat)
  /\ exists frames,
       tree_item_iterator (heap_of_levels [0; 1; 2; 1; 0]%Z) (fun r => r) true
         [0; 1; 2; 3; 4]%nat = Ok frames
       /\ closed_total frames = opened_total frames
       /\ ([0; 1; 2; 3; 4]%nat <> [] ->
           opened_total frames
           = (1 + rises (levels (heap_of_levels [0; 1; 2; 1; 0]%Z)
                           [0; 1; 2; 3; 4]%nat))%Z).
Proof.
  assert (H : depth_first_consistent
                (levels (heap_of_levels [0; 1; 2; 1; 0]%Z) [0; 1; 2; 3; 4]%nat)).
  { split; cbn; [lia | repeat constructor; lia]. }
  split; [exact H|].
  exact (closed_levels_total (heap_of_levels [0; 1; 2; 1; 0]%Z) (fun r => r)
           true [0; 1; 2; 3; 4]%nat H).
Defined.

(** C7 as stated fails on the depth-first consistent levels [0,1,1]: the
    closed levels are [], [] and [1,0], two in all, while (first level -
    last level) + (number of nodes whose next node is at a shallower or
    equal level) is -1 + 1 = 0, and still only 1 if the last node is
    counted among the latter. *)
Lemma closed_levels_total_formula_fails :
  depth_first_consistent (levels (heap_of_levels [0; 1; 1]%Z) [0; 1; 2]%nat)
  /\ exists frames,
       tree_item_iterator (heap_of_levels [0; 1; 1]%Z) (fun r => r) false
         [0; 1; 2]%nat = Ok frames
       /\ map (fun out : ref * structure ref => closed_levels (snd out)) frames
          = [Some []; Some []; Some [1; 0]%Z]
       /\ closed_total frames = 2%Z
       /\ claimed_closed_total
            (levels (heap_of_levels [0; 1; 1]%Z) [0; 1; 2]%nat) = 0%Z
       /\ closed_total frames
          <> claimed_closed_total
               (levels (heap_of_levels [0; 1; 1]%Z) [0; 1; 2]%nat)
       /\ closed_total frames
          <> (claimed_closed_total
                (levels (heap_of_levels [0; 1; 1]%Z) [0; 1; 2]%nat) + 1)%Z.
Proof.
  split.
  { split; cbn; [lia | repeat constructor; lia]. }
  eexists. split; [reflexivity|].
  repeat split; try reflexivity; vm_compute; discriminate.
Qed.

(** ** Reading the store after a write *)

Lemma update_eq (h : heap) (r : ref) (n : node) : update h r n r = n.
Proof. unfold update. now rewrite Nat.eqb_refl. Qed.

Lemma update_neq (h : heap) (r r' : ref) (n : node) :
  r' <> r -> update h r n r' = h r'.
Proof.
  intros H. unfold update. destruct (Nat.eqb_spec r' r); [contradiction|].
  reflexivity.
Qed.

Lemma level_update (h : heap) (r r' : ref) (n : node) :
  level n = level (h r) -> level (update h r n r') = level (h r').
Proof.
  intros H. unfold update. destruct (Nat.eqb_spec r' r); [subst|]; auto.
Qed.

Lemma level_set_cached_children (h : heap) (o : ref) (cs : list ref) (r : ref) :
  level (set_cached_children h o cs r) = level (h r).
Proof. now apply level_update. Qed.

Lemma level_set_parent (h : heap) (o p r : ref) :
  level (set_parent h o p r) = level (h r).
Proof. now apply level_update. Qed.

Lemma level_set_use_cached_ancestors (h : heap) (o r : ref) :
  level (set_use_cached_ancestors h o r) = level (h r).
Proof. now apply level_update. Qed.

Lemma parent_set_cached_children (h : heap) (o : ref) (cs : list ref) (r : ref) :
  parent (set_cached_children h o cs r) = parent (h r).
Proof.
  unfold set_cached_children, update.
  destruct (Nat.eqb_spec r o); [subst|]; reflexivity.
Qed.

Lemma parent_set_use_cached_ancestors (h : heap) (o r : ref) :
  parent (set_use_cached_ancestors h o r) = parent (h r).
Proof.
  unfold set_use_cached_ancestors, update.
  destruct (Nat.eqb_spec r o); [subst|]; reflexivity.
Qed.

Lemma parent_set_parent_eq (h : heap) (o p : ref) :
  parent (set_parent h o p o) = Some p.
Proof. unfold set_parent. now rewrite update_eq. Qed.

Lemma parent_set_parent_neq (h : heap) (o p r : ref) :
  r <> o -> parent (set_parent h o p r) = parent (h r).
Proof. intros H. unfold set_parent. now rewrite update_neq. Qed.

Lemma children_set_parent (h : heap) (o p r : ref) :
  _cached_children (set_parent h o p r) = _cached_children (h r).
Proof.
  unfold set_parent, update.
  destruct (Nat.eqb_spec r o); [subst|]; reflexivity.
Qed.

Lemma children_set_use_cached_ancestors (h : heap) (o r : ref) :
  _cached_children (set_use_cached_ancestors h o r) = _cached_children (h r).
Proof.
  unfold set_use_cached_ancestors, update.
  destruct (Nat.eqb_spec r o); [subst|]; reflexivity.
Qed.

Lemma children_set_cached_children_eq (h : heap) (o : ref) (cs : list ref) :
  _cached_children (set_cached_children h o cs o) = Some cs.
Proof. unfold set_cached_children. now rewrite update_eq. Qed.

Lemma children_set_cached_children_neq (h : heap) (o : ref) (cs : list ref)
    (r : ref) :
  r <> o ->
  _cached_children (set_cached_children h o cs r) = _cached_children (h r).
Proof. intros H. unfold set_cached_children. now rewrite update_neq. Qed.

Lemma children_set_cached_children_some (h : heap) (o : ref) (cs : list ref)
    (r : ref) :
  _cached_children (h r) <> None ->
  _cached_children (set_cached_children h o cs r) <> None.
Proof.
  intros H. destruct (Nat.eq_dec r o) as [->|Hne].
  - rewrite children_set_cached_children_eq. discriminate.
  - now rewrite children_set_cached_children_neq.
Qed.

(** *** The store after [link] *)

Lemma level_link (h : heap) (obj p : ref) (cs : list ref) (root : Z) (r : ref) :
  level (link h obj p cs root r) = level (h r).
Proof.
  unfold link. destruct (root =? 0)%Z;
    rewrite ?level_set_use_cached_ancestors, level_set_cached_children,
      level_set_parent, level_set_cached_children; reflexivity.
Qed.

Lemma parent_link_eq (h : heap) (obj p : ref) (cs : list ref) (root : Z) :
  parent (link h obj p cs root obj) = Some p.
Proof.
  unfold link. destruct (root =? 0)%Z;
    rewrite ?parent_set_use_cached_ancestors, parent_set_cached_children,
      parent_set_parent_eq; reflexivity.
Qed.

Lemma parent_link_neq (h : heap) (obj p : ref) (cs : list ref) (root : Z)
    (r : ref) :
  r <> obj -> parent (link h obj p cs root r) = parent (h r).
Proof.
  intros H. unfold link. destruct (root =? 0)%Z;
    rewrite ?parent_set_use_cached_ancestors, parent_set_cached_children,
      parent_set_parent_neq, parent_set_cached_children by assumption;
    reflexivity.
Qed.

Lemma children_link_parent (h : heap) (obj p : ref) (cs : list ref) (root : Z) :
  _cached_children (link h obj p cs root p) = Some (cs ++ [obj]).
Proof.
  unfold link. destruct (root =? 0)%Z;
    rewrite ?children_set_use_cached_ancestors,
      children_set_cached_children_eq; reflexivity.
Qed.

Lemma children_link_obj (h : heap) (obj p : ref) (cs : list ref) (root : Z) :
  obj <> p -> _cached_children (link h obj p cs root obj) = Some [].
Proof.
  intros H. unfold link. destruct (root =? 0)%Z;
    rewrite ?children_set_use_cached_ancestors,
      children_set_cached_children_neq, children_set_parent,
      children_set_cached_children_eq by assumption; reflexivity.
Qed.

Lemma children_link_other (h : heap) (obj p : ref) (cs : list ref) (root : Z)
    (r : ref) :
  r <> obj -> r <> p ->
  _cached_children (link h obj p cs root r) = _cached_children (h r).
Proof.
  intros H1 H2. unfold link. destruct (root =? 0)%Z;
    rewrite ?children_set_use_cached_ancestors,
      children_set_cached_children_neq, children_set_parent,
      children_set_cached_children_neq by assumption; reflexivity.
Qed.

Lemma children_link_some (h : heap) (obj p : ref) (cs : list ref) (root : Z)
    (r : ref) :
  _cached_children (h r) <> None ->
  _cached_children (link h obj p cs root r) <> None.
Proof.
  intros H. destruct (Nat.eq_dec r p) as [->|Hp].
  - rewrite children_link_parent. discriminate.
  - destruct (Nat.eq_dec r obj) as [->|Ho].
    + rewrite children_link_obj by congruence. discriminate.
    + now rewrite children_link_other.
Qed.

(** ** One step of the reconstruction pass *)

Lemma choose_root_level_ok (f : bool) (rl : option Z) (nl root : Z) :
  choose_root_level f rl nl = Ok root ->
  (root <= nl)%Z
  /\ match rl with
     | None => root = nl
     | Some r0 => root = r0 \/ (f = true /\ (nl < r0)%Z /\ root = nl)
     end.
Proof.
  unfold choose_root_level. destruct rl as [r0|].
  - destruct f; cbn [andb]; destruct (Z.ltb_spec nl r0); intros E;
      inversion E; subst; split; auto; lia.
  - intros E; inversion E; subst. split; [lia | reflexivity].
Qed.

Lemma choose_root_level_plain (r0 nl : Z) :
  choose_root_level false (Some r0) nl
  = if (nl <? r0)%Z then Raise ValueError else Ok r0.
Proof. reflexivity. Qed.

Lemma pop_path_zero (path : list ref) : pop_path path 0 = Ok [].
Proof.
  induction path as [|q rest IH]; [reflexivity|].
  cbn [pop_path]. destruct (Z.gtb_spec (Z.of_nat (length (q :: rest))) 0).
  - exact IH.
  - cbn [length] in *. lia.
Qed.

Lemma pop_path_spec (path : list ref) (k : Z) :
  (0 <= k)%Z ->
  pop_path path k = Ok (skipn (length path - Z.to_nat k) path).
Proof.
  intros Hk. induction path as [|q rest IH].
  - cbn. destruct (Z.gtb_spec 0 k); [lia | reflexivity].
  - cbn [pop_path]. destruct (Z.gtb_spec (Z.of_nat (length (q :: rest))) k).
    + rewrite IH. cbn [length] in *.
      replace (S (length rest) - Z.to_nat k)%nat
        with (S (length rest - Z.to_nat k)) by lia.
      reflexivity.
    + cbn [length] in *.
      replace (S (length rest) - Z.to_nat k)%nat with 0%nat by lia.
      reflexivity.
Qed.

Lemma skipn_incl {A : Type} (n : nat) (l : list A) (x : A) :
  In x (skipn n l) -> In x l.
Proof.
  intros H. rewrite <- (firstn_skipn n l). apply in_or_app. now right.
Qed.

(** What [visit] does once the root level is chosen: either the node is
    a root, or it is linked below the head of the truncated path. *)
Lemma visit_spec (f : bool) (obj : ref) (st : pass_state) (h : heap) (root : Z) :
  choose_root_level f (root_level st) (level (h obj)) = Ok root ->
  path_ready h st ->
  (level (h obj) = root
   /\ visit f obj st h
      = (set_cached_children h obj [],
         Ok (mk_pass (Some root) [obj] (top_nodes st ++ [obj]))))
  \/ ((root < level (h obj))%Z
      /\ exists p path' cs,
           skipn (length (current_path st) - Z.to_nat (level (h obj) - root))
             (current_path st) = p :: path'
           /\ _cached_children (set_cached_children h obj [] p) = Some cs
           /\ visit f obj st h
              = (link h obj p cs root,
                 Ok (mk_pass (Some root) (obj :: p :: path') (top_nodes st)))).
Proof.
  intros Hch [Hset Hne].
  destruct (choose_root_level_ok _ _ _ _ Hch) as [Hle Hrl].
  unfold visit, get_level. rewrite Hch.
  destruct (Z.eqb_spec (level (h obj)) root) as [E|E].
  - left. split; [exact E|]. rewrite E, Z.sub_diag, pop_path_zero.
    reflexivity.
  - right. split; [lia|].
    rewrite pop_path_spec by lia.
    assert (Hpath : current_path st <> []).
    { apply Hne. destruct (root_level st); [discriminate | congruence]. }
    destruct (skipn (length (current_path st)
                     - Z.to_nat (level (h obj) - root)) (current_path st))
      as [|p path'] eqn:Es.
    { exfalso. apply (f_equal (@length ref)) in Es.
      rewrite length_skipn in Es. cbn [length] in Es.
      destruct (current_path st); [congruence | cbn [length] in Es; lia]. }
    assert (Hp : In p (current_path st)).
    { eapply skipn_incl. rewrite Es. now left. }
    rewrite Forall_forall in Hset. specialize (Hset p Hp).
    rewrite children_set_parent.
    destruct (_cached_children (set_cached_children h obj [] p)) as [cs|] eqn:Ec.
    + exists p, path', cs. repeat split. exact Ec.
    + exfalso. revert Ec. now apply children_set_cached_children_some.
Qed.

(** [visit] never changes a level. *)
Lemma visit_level (f : bool) (obj : ref) (st : pass_state) (h : heap) (r : ref) :
  level (fst (visit f obj st h) r) = level (h r).
Proof.
  unfold visit.
  destruct (choose_root_level f (root_level st) (get_level h obj));
    [|reflexivity].
  destruct (pop_path (current_path st) (get_level h obj - a)) as [path|];
    [|apply level_set_cached_children].
  destruct (get_level h obj =? a)%Z; [apply level_set_cached_children|].
  destruct path as [|p path']; [apply level_set_cached_children|].
  destruct (_cached_children
              (set_parent (set_cached_children h obj []) obj p p)) as [cs|].
  - apply (level_link h obj p cs a r).
  - cbn [fst]. now rewrite level_set_parent, level_set_cached_children.
Qed.

Lemma for_each_level (f : bool) (objs : list ref) :
  forall (st : pass_state) (h : heap) (r : ref),
    level (fst (for_each f objs st h) r) = level (h r).
Proof.
  induction objs as [|obj rest IH]; intros st h r; [reflexivity|].
  cbn [for_each]. pose proof (visit_level f obj st h r) as Hv.
  destruct (visit f obj st h) as [h' [st'|e]]; cbn [fst] in *.
  - now rewrite IH.
  - exact Hv.
Qed.

(** After a successful step the path is ready for the next one. *)
Lemma visit_ready (f : bool) (obj : ref) (st st' : pass_state) (h h' : heap) :
  path_ready h st ->
  visit f obj st h = (h', Ok st') ->
  path_ready h' st'
  /\ root_level st' <> None
  /\ exists path', current_path st' = obj :: path'.
Proof.
  intros Hr Hv.
  destruct (choose_root_level f (root_level st) (level (h obj)))
    as [root|e] eqn:Hch.
  2:{ unfold visit, get_level in Hv. rewrite Hch in Hv. discriminate. }
  destruct (visit_spec f obj st h root Hch Hr)
    as [[_ E]|[_ (p & path' & cs & Es & Ec & E)]];
    rewrite E in Hv; inversion Hv; subst; clear Hv.
  - split; [split|split]; cbn; try discriminate; eauto.
    constructor; [|constructor].
    rewrite children_set_cached_children_eq. discriminate.
  - split; [split|split]; cbn; try discriminate; eauto.
    destruct Hr as [Hset _]. rewrite Forall_forall in Hset.
    assert (Hin : forall q, In q (p :: path') ->
                            _cached_children (h q) <> None).
    { intros q Hq. apply Hset. eapply skipn_incl. rewrite Es. exact Hq. }
    constructor.
    + destruct (Nat.eq_dec obj p) as [->|Hne].
      * rewrite children_link_parent. discriminate.
      * rewrite children_link_obj by assumption. discriminate.
    + apply Forall_forall. intros q Hq.
      apply children_link_some. now apply Hin.
Qed.

Lemma visit_ok (f : bool) (obj : ref) (st : pass_state) (h : heap) (root : Z) :
  choose_root_level f (root_level st) (level (h obj)) = Ok root ->
  path_ready h st ->
  exists h' st',
    visit f obj st h = (h', Ok st') /\ root_level st' = Some root.
Proof.
  intros Hch Hr.
  destruct (visit_spec f obj st h root Hch Hr)
    as [[_ E]|[_ (p & path' & cs & _ & _ & E)]];
    rewrite E; eexists; eexists; split; reflexivity.
Qed.

Lemma visit_root_eq (f : bool) (obj : ref) (st : pass_state) (h : heap) :
  choose_root_level f (root_level st) (level (h obj)) = Ok (level (h obj)) ->
  visit f obj st h
  = (set_cached_children h obj [],
     Ok (mk_pass (Some (level (h obj))) [obj] (top_nodes st ++ [obj]))).
Proof.
  intros Hch. unfold visit, get_level.
  rewrite Hch, Z.sub_diag, pop_path_zero, Z.eqb_refl. reflexivity.
Qed.

Lemma visit_child_eq (f : bool) (obj : ref) (st : pass_state) (h : heap)
    (root : Z) (p : ref) (path' cs : list ref) :
  choose_root_level f (root_level st) (level (h obj)) = Ok root ->
  level (h obj) <> root ->
  pop_path (current_path st) (level (h obj) - root) = Ok (p :: path') ->
  _cached_children (set_cached_children h obj [] p) = Some cs ->
  visit f obj st h
  = (link h obj p cs root,
     Ok (mk_pass (Some root) (obj :: p :: path') (top_nodes st))).
Proof.
  intros Hch Hne Hpop Hcs. unfold visit, get_level.
  rewrite Hch, Hpop. destruct (Z.eqb_spec (level (h obj)) root); [contradiction|].
  rewrite children_set_parent, Hcs. reflexivity.
Qed.

Lemma for_each_cons_ok (f : bool) (obj : ref) (rest : list ref)
    (st st' : pass_state) (h h' : heap) :
  visit f obj st h = (h', Ok st') ->
  for_each f (obj :: rest) st h = for_each f rest st' h'.
Proof. intros E. cbn [for_each]. now rewrite E. Qed.

(** ** The empty input *)

(** C10: on the empty input [get_cached_trees] returns the empty list
    of roots without raising (and leaves the store as it is), and
    [tree_item_iterator] yields nothing. *)
Theorem empty_input {label : Type} (h : heap) (callback : ref -> label)
    (b : bool) (q : option bool) :
  get_cached_trees (mk_queryset [] q) h = (h, Ok [])
  /\ tree_item_iterator h callback b [] = Ok [].
Proof. split; reflexivity. Qed.

(** ** The ordering error *)

(** Without filtered mode the root level stays the level of the first
    node, and the first node below it ends the pass. *)
Lemma for_each_plain_raises (rest : list ref) :
  forall (st : pass_state) (h : heap) (root : Z),
    root_level st = Some root ->
    path_ready h st ->
    Exists (fun r => (level (h r) < root)%Z) rest ->
    snd (for_each false rest st h) = Raise ValueError.
Proof.
  induction rest as [|obj rest IH]; intros st h root Hroot Hr Hex.
  - inversion Hex.
  - destruct (Z.ltb_spec (level (h obj)) root) as [Hlt|Hge].
    + cbn [for_each]. unfold visit, get_level.
      rewrite Hroot, choose_root_level_plain.
      destruct (Z.ltb_spec (level (h obj)) root); [reflexivity | lia].
    + assert (Hch : choose_root_level false (root_level st) (level (h obj))
                    = Ok root).
      { rewrite Hroot, choose_root_level_plain.
        destruct (Z.ltb_spec (level (h obj)) root); [lia | reflexivity]. }
      destruct (visit_ok false obj st h root Hch Hr) as (h' & st' & Hv & Hroot').
      rewrite (for_each_cons_ok false obj rest st st' h h' Hv).
      apply (IH st' h' root Hroot').
      * eapply visit_ready; eassumption.
      * inversion Hex as [? ? Hobj|? ? Hrest]; subst; [lia|].
        apply Exists_exists in Hrest. destruct Hrest as (r & Hin & Hlt).
        apply Exists_exists. exists r. split; [exact Hin|].
        pose proof (visit_level false obj st h r) as Hl.
        rewrite Hv in Hl. cbn [fst] in Hl. lia.
Qed.

(** C9: an input without a [query] attribute is never in filtered mode:
    as soon as some node after the first has a level strictly below the
    level of the first node, the pass raises the ordering error. *)
Theorem plain_list_below_first_raises (h : heap) (first : ref)
    (rest : list ref) :
  Exists (fun r => (level (h r) < level (h first))%Z) rest ->
  is_filtered_of (mk_queryset (first :: rest) None) = false
  /\ snd (get_cached_trees (mk_queryset (first :: rest) None) h)
     = Raise ValueError.
Proof.
  intros Hex. split; [reflexivity|].
  unfold get_cached_trees. cbn [items is_filtered_of query].
  assert (Hv : visit false first pass_init h
               = (set_cached_children h first [],
                  Ok (mk_pass (Some (level (h first))) [first] [first])))
    by (apply visit_root_eq; reflexivity).
  rewrite (for_each_cons_ok false first rest _ _ h _ Hv).
  pose proof (for_each_plain_raises rest
                (mk_pass (Some (level (h first))) [first] [first])
                (set_cached_children h first []) (level (h first)) eq_refl)
    as Hraise.
  destruct (for_each false rest _ _) as [h' [st'|e]]; cbn [snd] in *.
  - assert (E : @Ok pass_state st' = Raise ValueError); [|discriminate E].
    apply Hraise.
    + split; cbn; [|discriminate]. constructor; [|constructor].
      rewrite children_set_cached_children_eq. discriminate.
    + apply Exists_exists in Hex. destruct Hex as (r & Hin & Hlt).
      apply Exists_exists. exists r. split; [exact Hin|].
      now rewrite level_set_cached_children.
  - f_equal.
    assert (E : @Raise pass_state e = Raise ValueError); [|now inversion E].
    apply Hraise.
    + split; cbn; [|discriminate]. constructor; [|constructor].
      rewrite children_set_cached_children_eq. discriminate.
    + apply Exists_exists in Hex. destruct Hex as (r & Hin & Hlt).
      apply Exists_exists. exists r. split; [exact Hin|].
      now rewrite level_set_cached_children.
Qed.

Lemma plain_list_below_first_raises_witness :
  Exists (fun r => (level (heap_of_levels [1; 2; 0]%Z r)
                    < level (heap_of_levels [1; 2; 0]%Z 0%nat))%Z)
    [1; 2]%nat
  /\ is_filtered_of (mk_queryset [0; 1; 2]%nat None) = false
  /\ snd (get_cached_trees (mk_queryset [0; 1; 2]%nat None)
            (heap_of_levels [1; 2; 0]%Z))
     = Raise ValueError.
Proof.
  assert (H : Exists (fun r => (level (heap_of_levels [1; 2; 0]%Z r)
                                < level (heap_of_levels [1; 2; 0]%Z 0%nat))%Z)
                [1; 2]%nat).
  { apply Exists_cons_tl, Exists_cons_hd. cbn. lia. }
  split; [exact H|].
  exact (plain_list_below_first_raises (heap_of_levels [1; 2; 0]%Z) 0%nat
           [1; 2]%nat H).
Defined.

(** In filtered mode the same input is accepted: the third node becomes
    a root. *)
Lemma filtered_queryset_lowers_root :
  snd (get_cached_trees (filtered_queryset 3) (heap_of_levels [1; 2; 0]%Z))
  = Ok [0; 2]%nat.
Proof. reflexivity. Qed.

(** ** Two concrete level patterns *)

Ltac read_level :=
  repeat first
    [ rewrite level_link
    | rewrite level_set_cached_children
    | rewrite level_set_parent
    | rewrite level_set_use_cached_ancestors ].

(** C8: in filtered mode, on three nodes of levels [2,3,2] (the two
    level-2 nodes being different objects), the roots returned are the
    two level-2 nodes in arrival order, and the level-3 node has the
    first of them as parent and is its only child. *)
Theorem filtered_2_3_2 (h : heap) (n0 n1 n2 : ref) :
  level (h n0) = 2%Z ->
  level (h n1) = 3%Z ->
  level (h n2) = 2%Z ->
  n0 <> n2 ->
  exists h',
    get_cached_trees (mk_queryset [n0; n1; n2] (Some true)) h
    = (h', Ok [n0; n2])
    /\ parent (h' n1) = Some n0
    /\ _cached_children (h' n0) = Some [n1]
    /\ _cached_children (h' n1) = Some []
    /\ _cached_children (h' n2) = Some [].
Proof.
  intros H0 H1 H2 Hne.
  assert (N01 : n0 <> n1) by (intros ->; lia).
  assert (N12 : n1 <> n2) by (intros ->; lia).
  set (h1 := set_cached_children h n0 []).
  set (h2 := link h1 n1 n0 [] 2).
  set (h3 := set_cached_children h2 n2 []).
  exists h3.
  assert (V1 : visit true n0 pass_init h = (h1, Ok (mk_pass (Some 2%Z) [n0] [n0]))).
  { rewrite visit_root_eq by reflexivity. now rewrite H0. }
  assert (V2 : visit true n1 (mk_pass (Some 2%Z) [n0] [n0]) h1
               = (h2, Ok (mk_pass (Some 2%Z) [n1; n0] [n0]))).
  { apply visit_child_eq; unfold h1; read_level; rewrite ?H1;
      try reflexivity; try lia.
    rewrite children_set_cached_children_neq by congruence.
    apply children_set_cached_children_eq. }
  assert (V3 : visit true n2 (mk_pass (Some 2%Z) [n1; n0] [n0]) h2
               = (h3, Ok (mk_pass (Some 2%Z) [n2] [n0; n2]))).
  { rewrite visit_root_eq; unfold h2, h1; read_level; rewrite H2; reflexivity. }
  split.
  { unfold get_cached_trees. cbn [items is_filtered_of query].
    rewrite (for_each_cons_ok _ _ _ _ _ _ _ V1).
    rewrite (for_each_cons_ok _ _ _ _ _ _ _ V2).
    rewrite (for_each_cons_ok _ _ _ _ _ _ _ V3). reflexivity. }
  unfold h3. rewrite parent_set_cached_children.
  rewrite !children_set_cached_children_neq by congruence.
  rewrite children_set_cached_children_eq. unfold h2.
  rewrite parent_link_eq, children_link_parent, children_link_obj by congruence.
  repeat split.
Qed.

Lemma filtered_2_3_2_witness :
  exists h',
    get_cached_trees (mk_queryset [0; 1; 2]%nat (Some true))
      (heap_of_levels [2; 3; 2]%Z)
    = (h', Ok [0; 2]%nat)
    /\ parent (h' 1%nat) = Some 0%nat
    /\ _cached_children (h' 0%nat) = Some [1%nat]
    /\ _cached_children (h' 1%nat) = Some []
    /\ _cached_children (h' 2%nat) = Some [].
Proof.
  apply (filtered_2_3_2 (heap_of_levels [2; 3; 2]%Z) 0%nat 1%nat 2%nat);
    [reflexivity | reflexivity | reflexivity | discriminate].
Defined.

(** C1 (amended): on four nodes of levels [0,1,0,2], filtered mode or
    not, [get_cached_trees] does not raise: it returns the two level-0
    nodes as roots, the level-1 node has the first node as parent and
    the level-2 node is linked below the second level-0 node, the last
    node of the path when it arrives. (The ordering error is raised
    only for a node whose level is below the root level.) *)
Theorem levels_0_1_0_2_accepted (h : heap) (q : option bool) (a b c d : ref) :
  levels h [a; b; c; d] = [0; 1; 0; 2]%Z ->
  exists h',
    get_cached_trees (mk_queryset [a; b; c; d] q) h = (h', Ok [a; c])
    /\ parent (h' b) = Some a
    /\ parent (h' d) = Some c
    /\ _cached_children (h' c) = Some [d].
Proof.
  intros Hl. unfold levels, get_level in Hl. cbn [map] in Hl.
  assert (Ha : level (h a) = 0%Z) by (now inversion Hl).
  assert (Hb : level (h b) = 1%Z) by (now inversion Hl).
  assert (Hc : level (h c) = 0%Z) by (now inversion Hl).
  assert (Hd : level (h d) = 2%Z) by (now inversion Hl).
  clear Hl.
  assert (Nab : a <> b) by (intros ->; lia).
  assert (Nbd : b <> d) by (intros ->; lia).
  assert (Ncd : c <> d) by (intros ->; lia).
  set (f := is_filtered_of (mk_queryset [a; b; c; d] q)).
  set (h1 := set_cached_children h a []).
  set (h2 := link h1 b a [] 0).
  set (h3 := set_cached_children h2 c []).
  set (h4 := link h3 d c [] 0).
  exists h4.
  assert (V1 : visit f a pass_init h = (h1, Ok (mk_pass (Some 0%Z) [a] [a]))).
  { rewrite visit_root_eq by reflexivity. now rewrite Ha. }
  assert (V2 : visit f b (mk_pass (Some 0%Z) [a] [a]) h1
               = (h2, Ok (mk_pass (Some 0%Z) [b; a] [a]))).
  { apply visit_child_eq; unfold h1; read_level; rewrite ?Hb;
      try (destruct f; reflexivity); try lia.
    rewrite children_set_cached_children_neq by congruence.
    apply children_set_cached_children_eq. }
  assert (V3 : visit f c (mk_pass (Some 0%Z) [b; a] [a]) h2
               = (h3, Ok (mk_pass (Some 0%Z) [c] [a; c]))).
  { rewrite visit_root_eq; unfold h2, h1; read_level; rewrite Hc;
      destruct f; reflexivity. }
  assert (V4 : visit f d (mk_pass (Some 0%Z) [c] [a; c]) h3
               = (h4, Ok (mk_pass (Some 0%Z) [d; c] [a; c]))).
  { apply visit_child_eq; unfold h3, h2, h1; read_level; rewrite ?Hd;
      try (destruct f; reflexivity); try lia.
    rewrite children_set_cached_children_neq by congruence.
    apply children_set_cached_children_eq. }
  split.
  { unfold get_cached_trees. cbn [items]. fold f.
    rewrite (for_each_cons_ok _ _ _ _ _ _ _ V1).
    rewrite (for_each_cons_ok _ _ _ _ _ _ _ V2).
    rewrite (for_each_cons_ok _ _ _ _ _ _ _ V3).
    rewrite (for_each_cons_ok _ _ _ _ _ _ _ V4). reflexivity. }
  unfold h4. rewrite parent_link_eq, children_link_parent.
  rewrite parent_link_neq by congruence.
  unfold h3. rewrite parent_set_cached_children. unfold h2.
  rewrite parent_link_eq. repeat split.
Qed.

Lemma levels_0_1_0_2_accepted_witness :
  levels (heap_of_levels [0; 1; 0; 2]%Z) [0; 1; 2; 3]%nat = [0; 1; 0; 2]%Z
  /\ exists h',
       get_cached_trees (mk_queryset [0; 1; 2; 3]%nat None)
         (heap_of_levels [0; 1; 0; 2]%Z)
       = (h', Ok [0; 2]%nat)
       /\ parent (h' 1%nat) = Some 0%nat
       /\ parent (h' 3%nat) = Some 2%nat
       /\ _cached_children (h' 2%nat) = Some [3%nat].
Proof.
  split; [reflexivity|].
  apply (levels_0_1_0_2_accepted (heap_of_levels [0; 1; 0; 2]%Z) None
           0%nat 1%nat 2%nat 3%nat).
  reflexivity.
Defined.

(** C1 as stated fails: a plain list of four nodes with levels
    [0,1,0,2] is processed to the end, with the two level-0 nodes as
    roots; no [ValueError] is raised. *)
Lemma levels_0_1_0_2_no_error :
  levels (heap_of_levels [0; 1; 0; 2]%Z) (items (plain_list 4))
  = [0; 1; 0; 2]%Z
  /\ snd (get_cached_trees (plain_list 4) (heap_of_levels [0; 1; 0; 2]%Z))
     = Ok [0; 2]%nat
  /\ snd (get_cached_trees (plain_list 4) (heap_of_levels [0; 1; 0; 2]%Z))
     <> Raise ValueError
  /\ snd (get_cached_trees (filtered_queryset 4)
            (heap_of_levels [0; 1; 0; 2]%Z))
     <> Raise ValueError.
Proof. repeat split; try reflexivity; vm_compute; discriminate. Qed.

(** ** Parent links point one level up *)

Lemma path_levels_ext (h h' : heap) (path : list ref) :
  (forall r, level (h' r) = level (h r)) ->
  forall top, path_levels h path top -> path_levels h' path top.
Proof.
  intros Hl. induction path as [|q rest IH]; intros top H; [exact I|].
  destruct H as [Hq Hrest]. split; [now rewrite Hl | now apply IH].
Qed.

Lemma path_levels_skipn (h : heap) (n : nat) :
  forall (path : list ref) (top : Z),
    (n <= length path)%nat ->
    path_levels h path top ->
    path_levels h (skipn n path) (top - Z.of_nat n)%Z.
Proof.
  induction n as [|n IH]; intros path top Hn H.
  - cbn [skipn]. now replace (top - Z.of_nat 0)%Z with top by lia.
  - destruct path as [|q rest]; [cbn in Hn; lia|].
    destruct H as [_ Hrest]. cbn [skipn].
    replace (top - Z.of_nat (S n))%Z with (top - 1 - Z.of_nat n)%Z by lia.
    apply IH; [cbn in Hn; lia | exact Hrest].
Qed.

Lemma linked_ext (h h' : heap) (r : ref) :
  (forall x, level (h' x) = level (h x)) ->
  parent (h' r) = parent (h r) ->
  linked h r -> linked h' r.
Proof.
  intros Hl Hp (p & Hpar & Hlev). exists p. split; [congruence|].
  now rewrite !Hl.
Qed.

(** One step of the pass, when the node is at most one level deeper
    than the node before it. *)
Lemma visit_linked (f : bool) (obj : ref) (st st' : pass_state) (h h' : heap)
    (rest : list ref) :
  path_ready h st ->
  path_inv h st ->
  level_step_ok (step_levels h st (obj :: rest)) ->
  visit f obj st h = (h', Ok st') ->
  path_inv h' st'
  /\ (forall r, parent (h' r) = parent (h r) \/ linked h' r)
  /\ (In obj (top_nodes st') \/ linked h' obj)
  /\ (forall r, In r (top_nodes st) -> In r (top_nodes st'))
  /\ level_step_ok (step_levels h' st' rest).
Proof.
  intros Hr Hinv Hstep Hv.
  assert (Hlev : forall r, level (h' r) = level (h r)).
  { intros r. pose proof (visit_level f obj st h r) as E.
    now rewrite Hv in E. }
  assert (Hlevs : levels h' rest = levels h rest).
  { unfold levels, get_level. apply map_ext. exact Hlev. }
  assert (Hnext : forall path',
             current_path st' = obj :: path' ->
             level_step_ok (step_levels h' st' rest)).
  { intros path' E. unfold step_levels. rewrite E, Hlevs, Hlev.
    unfold step_levels in Hstep.
    destruct (current_path st); [exact Hstep|].
    eapply level_step_ok_tail. exact Hstep. }
  destruct (choose_root_level f (root_level st) (level (h obj)))
    as [root|e] eqn:Hch.
  2:{ unfold visit, get_level in Hv. rewrite Hch in Hv. discriminate. }
  destruct (choose_root_level_ok _ _ _ _ Hch) as [Hle Hrl].
  destruct (visit_spec f obj st h root Hch Hr)
    as [[Eroot E]|[Hlt (p & path' & cs & Es & Ec & E)]];
    rewrite E in Hv; inversion Hv; subst h' st'; clear Hv.
  - split; [|split; [|split; [|split]]].
    + unfold path_inv. cbn. split; [discriminate|].
      split; [|exact I]. rewrite level_set_cached_children. lia.
    + intros r. left. apply parent_set_cached_children.
    + left. cbn. apply in_or_app. right. now left.
    + intros r Hin. cbn. apply in_or_app. now left.
    + now apply (Hnext []).
  - unfold path_inv in Hinv.
    destruct (root_level st) as [r0|] eqn:Er0; [|lia].
    assert (root = r0) by (destruct Hrl as [?|(_ & _ & ?)]; lia). subst r0.
    destruct Hinv as [Hne Hpl].
    set (path := current_path st) in *.
    set (k := Z.to_nat (level (h obj) - root)) in *.
    assert (Hprev : (level (h obj) <= root + Z.of_nat (length path))%Z).
    { unfold step_levels in Hstep. fold path in Hstep.
      destruct path as [|prev tail]; [congruence|].
      destruct Hpl as [Hprev _]. cbn [levels map level_step_ok] in Hstep.
      unfold get_level in Hstep. cbn [length] in *. lia. }
    assert (Hk : (k <= length path)%nat) by (unfold k; lia).
    pose proof (path_levels_skipn h (length path - k) path _
                  (Nat.le_sub_l _ _) Hpl) as Hsk.
    rewrite Es in Hsk. destruct Hsk as [Hp Hrest].
    assert (Hlp : level (h p) = (level (h obj) - 1)%Z) by (unfold k in *; lia).
    assert (Hlen : length (p :: path') = k).
    { rewrite <- Es, length_skipn. lia. }
    assert (Hobj : linked (link h obj p cs root) obj).
    { exists p. split; [apply parent_link_eq|]. rewrite !level_link. exact Hlp. }
    split; [|split; [|split; [|split]]].
    + unfold path_inv. cbn [root_level current_path].
      split; [discriminate|].
      apply path_levels_ext with (h := h); [intros r; apply level_link|].
      split.
      * cbn [length] in *. unfold k in *. lia.
      * split; [cbn [length] in *; unfold k in *; lia|].
        cbn [length] in *. 
        replace (root + Z.of_nat (S (S (length path'))) - 1 - 1 - 1)%Z
          with (root + Z.of_nat (length path) - 1
                - Z.of_nat (length path - k) - 1)%Z
          by (unfold k in *; lia).
        exact Hrest.
    + intros r. destruct (Nat.eq_dec r obj) as [->|Hne'].
      * right. exact Hobj.
      * left. now apply parent_link_neq.
    + right. exact Hobj.
    + intros r Hin. exact Hin.
    + now apply (Hnext (p :: path')).
Qed.

Lemma for_each_linked (f : bool) (rest : list ref) :
  forall (st st' : pass_state) (h h' : heap),
    path_ready h st ->
    path_inv h st ->
    level_step_ok (step_levels h st rest) ->
    for_each f rest st h = (h', Ok st') ->
    (forall r, parent (h' r) = parent (h r) \/ linked h' r)
    /\ (forall r, In r rest -> In r (top_nodes st') \/ linked h' r)
    /\ (forall r, In r (top_nodes st) -> In r (top_nodes st')).
Proof.
  induction rest as [|obj rest IH]; intros st st' h h' Hr Hinv Hstep Hfe.
  - cbn in Hfe. inversion Hfe; subst. repeat split; auto. intros r [].
  - cbn [for_each] in Hfe.
    destruct (visit f obj st h) as [h1 [st1|e]] eqn:Hv; [|discriminate].
    destruct (visit_linked f obj st st1 h h1 rest Hr Hinv Hstep Hv)
      as (Hinv1 & Hpar1 & Hobj1 & Htop1 & Hstep1).
    destruct (visit_ready f obj st st1 h h1 Hr Hv) as (Hr1 & _ & _).
    destruct (IH st1 st' h1 h' Hr1 Hinv1 Hstep1 Hfe) as (Hpar & Hin & Htop).
    assert (Hlev : forall x, level (h' x) = level (h1 x)).
    { intros x. pose proof (for_each_level f rest st1 h1 x) as E.
      now rewrite Hfe in E. }
    assert (Hkeep : forall r, linked h1 r -> linked h' r).
    { intros r Hl. destruct (Hpar r) as [E|Hl']; [|exact Hl'].
      now apply (linked_ext h1 h' r Hlev E). }
    repeat split.
    + intros r. destruct (Hpar r) as [E|Hl]; [|now right].
      destruct (Hpar1 r) as [E1|Hl1]; [left; congruence | right; auto].
    + intros r [<-|Hr']; [|now apply Hin].
      destruct Hobj1 as [Ht|Hl]; [left; now apply Htop | right; auto].
    + intros r Hr'. apply Htop, Htop1, Hr'.
Qed.

(** C3: after a completed pass over an input whose levels grow by at
    most one from a node to the next, every node of the input that is
    not in the returned RootSet, and every node whose parent link the
    pass changed, has a parent whose level is its own level minus 1.
    (Levels are not changed by the pass.) *)
Theorem parent_one_level_up (qs : queryset) (h : heap) (top : list ref) :
  level_step_ok (levels h (items qs)) ->
  snd (get_cached_trees qs h) = Ok top ->
  let h' := fst (get_cached_trees qs h) in
  (forall r, In r (items qs) -> ~ In r top -> linked h' r)
  /\ (forall r, parent (h' r) <> parent (h r) -> linked h' r)
  /\ (forall r, level (h' r) = level (h r)).
Proof.
  intros Hstep Hg. unfold get_cached_trees in *.
  destruct (items qs) as [|first rest] eqn:Ei.
  { cbn in *. inversion Hg; subst. repeat split; tauto. }
  destruct (for_each (is_filtered_of qs) (first :: rest) pass_init h)
    as [h1 [st1|e]] eqn:Hfe; cbn [fst snd] in *; inversion Hg; subst top;
    clear Hg.
  destruct (for_each_linked (is_filtered_of qs) (first :: rest)
              pass_init st1 h h1) as (Hpar & Hin & _); auto.
  { split; [constructor | intros H; now elim H]. }
  { reflexivity. }
  repeat split.
  - intros r Hr Hnot. destruct (Hin r Hr); [contradiction | assumption].
  - intros r Hne. destruct (Hpar r); [contradiction | assumption].
  - intros r. pose proof (for_each_level (is_filtered_of qs) (first :: rest)
                            pass_init h r) as E.
    now rewrite Hfe in E.
Qed.

Lemma parent_one_level_up_witness :
  level_step_ok
    (levels (heap_of_levels [0; 1; 2; 1; 0]%Z) (items (plain_list 5)))
  /\ snd (get_cached_trees (plain_list 5) (heap_of_levels [0; 1; 2; 1; 0]%Z))
     = Ok [0; 4]%nat
  /\ forall r,
       In r (items (plain_list 5)) -> ~ In r [0; 4]%nat ->
       linked (fst (get_cached_trees (plain_list 5)
                      (heap_of_levels [0; 1; 2; 1; 0]%Z))) r.
Proof.
  assert (H1 : level_step_ok
                 (levels (heap_of_levels [0; 1; 2; 1; 0]%Z)
                    (items (plain_list 5)))) by (cbn; lia).
  assert (H2 : snd (get_cached_trees (plain_list 5)
                      (heap_of_levels [0; 1; 2; 1; 0]%Z))
               = Ok [0; 4]%nat) by (vm_compute; reflexivity).
  split; [exact H1|]. split; [exact H2|].
  exact (proj1 (parent_one_level_up (plain_list 5)
                  (heap_of_levels [0; 1; 2; 1; 0]%Z) [0; 4]%nat H1 H2)).
Defined.

(** The concrete scenario of the specification: levels [0,1,2,1,0]
    (nodes A..E are 0..4) give the roots [A, E], A.children = [B, D]
    and B.children = [C]. *)
Lemma get_cached_trees_scenario :
  let r := get_cached_trees (plain_list 5) (heap_of_levels [0; 1; 2; 1; 0]%Z) in
  snd r = Ok [0; 4]%nat
  /\ _cached_children (fst r 0%nat) = Some [1; 3]%nat
  /\ _cached_children (fst r 1%nat) = Some [2%nat]
  /\ map (fun x => parent (fst r x)) [0; 1; 2; 3; 4]%nat
     = [None; Some 0; Some 1; Some 0; None]%nat.
Proof. cbv zeta. repeat split; vm_compute; reflexivity. Qed.

(** ** Flattening the reconstructed forest *)

Lemma flats_app (h : heap) (a la : list ref) :
  flats h a la ->
  forall b lb, flats h b lb -> flats h (a ++ b) (la ++ lb).
Proof.
  induction 1 as [|r cs rs below after Hc Hb _ Ha IH]; intros b lb Hb';
    [exact Hb'|].
  cbn [app]. rewrite <- app_assoc. econstructor; eauto.
Qed.

Lemma flats_node (h : heap) (q : ref) (cs lc : list ref) :
  _cached_children (h q) = Some cs ->
  flats h cs lc ->
  flats h [q] (q :: lc).
Proof.
  intros Hc Hf. rewrite <- (app_nil_r lc).
  econstructor; [exact Hc | exact Hf | constructor].
Qed.

(** The flattening only depends on the children lists of the nodes it
    lists. *)
Lemma flats_frame (h h' : heap) (rs l : list ref) :
  flats h rs l ->
  (forall r, In r l -> _cached_children (h' r) = _cached_children (h r)) ->
  flats h' rs l.
Proof.
  induction 1 as [|r cs rs below after Hc _ IHb _ IHa]; intros Hsame;
    [constructor|].
  econstructor.
  - rewrite Hsame; [exact Hc | now left].
  - apply IHb. intros x Hx. apply Hsame. right. apply in_or_app. now left.
  - apply IHa. intros x Hx. apply Hsame. right. apply in_or_app. now right.
Qed.

(** With more fuel than nodes to list, [flatten] computes the relation. *)
Lemma flats_flatten (h : heap) (rs l : list ref) :
  flats h rs l ->
  forall fuel, (length l < fuel)%nat -> flatten fuel h rs = Some l.
Proof.
  induction 1 as [|r cs rs below after Hc _ IHb _ IHa]; intros fuel Hfuel.
  - destruct fuel; [lia | reflexivity].
  - destruct fuel as [|fuel]; [lia|].
    cbn [length] in Hfuel. rewrite length_app in Hfuel.
    cbn [flatten]. rewrite Hc, IHb, IHa by lia. reflexivity.
Qed.

(** The nodes of the path are among the nodes listed. *)
Lemma spine_path_in (h : heap) (top : list ref) (path : list ref) :
  forall pending l q, spine h top path pending l -> In q path -> In q l.
Proof.
  induction path as [|q' rest IH]; intros pending l q Hs Hin; [destruct Hin|].
  destruct Hs as (closed & lc & l0 & _ & _ & -> & Hrest).
  apply in_or_app. destruct Hin as [<-|Hin].
  - right. now left.
  - left. eapply IH; eassumption.
Qed.

Lemma spine_frame (h h' : heap) (top : list ref) (path : list ref) :
  forall pending l,
    spine h top path pending l ->
    (forall r, In r l -> _cached_children (h' r) = _cached_children (h r)) ->
    spine h' top path pending l.
Proof.
  induction path as [|q rest IH]; intros pending l Hs Hsame.
  - destruct Hs as (closed & Ht & Hf). exists closed. split; [exact Ht|].
    eapply flats_frame; eassumption.
  - destruct Hs as (closed & lc & l0 & Hc & Hf & -> & Hrest).
    exists closed, lc, l0. split; [|split; [|split; [reflexivity|]]].
    + rewrite Hsame; [exact Hc|]. apply in_or_app. right. now left.
    + eapply flats_frame; [exact Hf|]. intros r Hr. apply Hsame.
      apply in_or_app. right. now right.
    + apply IH; [exact Hrest|]. intros r Hr. apply Hsame.
      apply in_or_app. now left.
Qed.

(** Popping the head of the path closes its subtree. *)
Lemma spine_close (h : heap) (top : list ref) (q : ref) (rest l : list ref) :
  spine h top (q :: rest) [] l -> spine h top rest [] l.
Proof.
  intros (closed & lc & l0 & Hc & Hf & -> & Hrest).
  rewrite app_nil_r in Hc.
  pose proof (flats_node h q closed lc Hc Hf) as Hq.
  destruct rest as [|q' rest'].
  - destruct Hrest as (closed0 & -> & Hf0).
    exists (closed0 ++ [q]). split; [now rewrite app_nil_r|].
    now apply flats_app.
  - destruct Hrest as (closed0 & lc0 & l00 & Hc0 & Hf0 & -> & Hrest').
    exists (closed0 ++ [q]), (lc0 ++ q :: lc), l00.
    split; [now rewrite app_nil_r|]. split; [now apply flats_app|].
    split; [|exact Hrest']. rewrite <- app_assoc. reflexivity.
Qed.

Lemma spine_skipn (h : heap) (top : list ref) (n : nat) :
  forall path l, spine h top path [] l -> spine h top (skipn n path) [] l.
Proof.
  induction n as [|n IH]; intros path l Hs; [exact Hs|].
  destruct path as [|q rest]; [exact Hs|].
  cbn [skipn]. apply IH. eapply spine_close. exact Hs.
Qed.

Lemma spine_all_closed (h : heap) (top path l : list ref) :
  spine h top path [] l -> flats h top l.
Proof.
  intros Hs. apply (spine_skipn h top (length path)) in Hs.
  rewrite skipn_all in Hs. destruct Hs as (closed & -> & Hf).
  now rewrite app_nil_r.
Qed.

(** A new root: the forest so far is complete and the node starts a new
    path. *)
Lemma spine_push_root (h : heap) (top l : list ref) (x : ref) :
  spine h top [] [] l ->
  ~ In x l ->
  spine (set_cached_children h x []) (top ++ [x]) [x] [] (l ++ [x]).
Proof.
  intros (closed & Ht & Hf) Hx. rewrite app_nil_r in Ht. subst closed.
  exists [], [], l. split; [apply children_set_cached_children_eq|].
  split; [constructor|]. split; [reflexivity|].
  exists top. split; [reflexivity|].
  eapply flats_frame; [exact Hf|]. intros r Hr.
  apply children_set_cached_children_neq. congruence.
Qed.

(** A new child below the head of the path. *)
Lemma spine_push_child (h : heap) (top rest l : list ref) (x p : ref)
    (cs : list ref) (root : Z) :
  spine h top (p :: rest) [] l ->
  NoDup l ->
  ~ In x l ->
  _cached_children (h p) = Some cs ->
  spine (link h x p cs root) top (x :: p :: rest) [] (l ++ [x]).
Proof.
  intros (closed & lc & l0 & Hc & Hf & -> & Hrest) Hnd Hx Hcs.
  rewrite app_nil_r in Hc. assert (cs = closed) by congruence. subst cs.
  assert (Hxp : x <> p).
  { intros ->. apply Hx. apply in_or_app. right. now left. }
  assert (Hp0 : ~ In p l0 /\ ~ In p lc).
  { apply NoDup_remove_2 in Hnd. split; intros Hin; apply Hnd;
      apply in_or_app; [now left | now right]. }
  destruct Hp0 as [Hp0 Hpc].
  exists [], [], (l0 ++ p :: lc).
  split; [now apply children_link_obj|]. split; [constructor|].
  split; [reflexivity|].
  exists closed, lc, l0.
  split; [apply children_link_parent|].
  split; [|split; [reflexivity|]].
  - eapply flats_frame; [exact Hf|]. intros r Hr.
    apply children_link_other.
    + intros ->. apply Hx. apply in_or_app. right. now right.
    + intros ->. contradiction.
  - eapply spine_frame; [exact Hrest|]. intros r Hr.
    apply children_link_other.
    + intros ->. apply Hx. apply in_or_app. now left.
    + intros ->. contradiction.
Qed.

(** One step of the pass on a node not seen before. *)
Lemma visit_spine (f : bool) (obj : ref) (st st' : pass_state) (h h' : heap)
    (done : list ref) :
  path_ready h st ->
  spine h (top_nodes st) (current_path st) [] done ->
  NoDup done ->
  ~ In obj done ->
  visit f obj st h = (h', Ok st') ->
  spine h' (top_nodes st') (current_path st') [] (done ++ [obj]).
Proof.
  intros Hr Hs Hnd Hobj Hv.
  destruct (choose_root_level f (root_level st) (level (h obj)))
    as [root|e] eqn:Hch.
  2:{ unfold visit, get_level in Hv. rewrite Hch in Hv. discriminate. }
  destruct (visit_spec f obj st h root Hch Hr)
    as [[_ E]|[_ (p & path' & cs & Es & Ec & E)]];
    rewrite E in Hv; inversion Hv; subst h' st'; clear Hv;
    cbn [top_nodes current_path].
  - apply spine_push_root; [|exact Hobj].
    apply (spine_skipn h _ (length (current_path st))) in Hs.
    now rewrite skipn_all in Hs.
  - apply (spine_skipn h _ (length (current_path st)
                            - Z.to_nat (level (h obj) - root))) in Hs.
    rewrite Es in Hs.
    assert (Hp : In p done).
    { eapply spine_path_in; [exact Hs | now left]. }
    apply spine_push_child; try assumption.
    rewrite children_set_cached_children_neq in Ec; [exact Ec|].
    intros ->. contradiction.
Qed.

Lemma for_each_spine (f : bool) (rest : list ref) :
  forall (st st' : pass_state) (h h' : heap) (done : list ref),
    path_ready h st ->
    spine h (top_nodes st) (current_path st) [] done ->
    NoDup (done ++ rest) ->
    for_each f rest st h = (h', Ok st') ->
    spine h' (top_nodes st') (current_path st') [] (done ++ rest).
Proof.
  induction rest as [|obj rest IH]; intros st st' h h' done Hr Hs Hnd Hfe.
  - cbn in Hfe. inversion Hfe; subst. now rewrite app_nil_r.
  - cbn [for_each] in Hfe.
    destruct (visit f obj st h) as [h1 [st1|e]] eqn:Hv; [|discriminate].
    assert (Hobj : ~ In obj done).
    { apply NoDup_remove_2 in Hnd. intros Hin. apply Hnd.
      apply in_or_app. now left. }
    assert (Hdone : NoDup done).
    { apply NoDup_app_remove_r in Hnd. exact Hnd. }
    destruct (visit_ready f obj st st1 h h1 Hr Hv) as (Hr1 & _ & _).
    pose proof (visit_spine f obj st st1 h h1 done Hr Hs Hdone Hobj Hv) as Hs1.
    replace (done ++ obj :: rest) with ((done ++ [obj]) ++ rest)
      by (now rewrite <- app_assoc).
    apply (IH st1 st' h1 h'); try assumption.
    now rewrite <- app_assoc.
Qed.

(** C2 (amended): for every input sequence of pairwise distinct nodes
    on which [get_cached_trees] completes without raising (whatever its
    levels, so in particular for the depth-first consistent ones),
    flattening the returned roots in depth-first pre-order through the
    children lists gives back the input sequence, as soon as the fuel
    exceeds the number of nodes. *)
Theorem flatten_round_trip (qs : queryset) (h : heap) (top : list ref) :
  NoDup (items qs) ->
  snd (get_cached_trees qs h) = Ok top ->
  forall fuel,
    (length (items qs) < fuel)%nat ->
    flatten fuel (fst (get_cached_trees qs h)) top = Some (items qs).
Proof.
  intros Hnd Hg fuel Hfuel. apply flats_flatten; [|exact Hfuel].
  unfold get_cached_trees in *.
  destruct (items qs) as [|first rest] eqn:Ei.
  { cbn in *. inversion Hg; subst. constructor. }
  destruct (for_each (is_filtered_of qs) (first :: rest) pass_init h)
    as [h1 [st1|e]] eqn:Hfe; cbn [fst snd] in *; inversion Hg; subst top;
    clear Hg.
  apply (spine_all_closed h1 (top_nodes st1) (current_path st1)).
  apply (for_each_spine (is_filtered_of qs) (first :: rest)
           pass_init st1 h h1 []); try assumption.
  - split; [constructor | intros H; now elim H].
  - exists []. split; [reflexivity | constructor].
Qed.

Lemma flatten_round_trip_witness :
  NoDup (items (plain_list 5))
  /\ snd (get_cached_trees (plain_list 5) (heap_of_levels [0; 1; 2; 1; 0]%Z))
     = Ok [0; 4]%nat
  /\ forall fuel,
       (length (items (plain_list 5)) < fuel)%nat ->
       flatten fuel
         (fst (get_cached_trees (plain_list 5)
                 (heap_of_levels [0; 1; 2; 1; 0]%Z)))
         [0; 4]%nat
       = Some (items (plain_list 5)).
Proof.
  assert (H1 : NoDup (items (plain_list 5))) by (apply seq_NoDup).
  assert (H2 : snd (get_cached_trees (plain_list 5)
                      (heap_of_levels [0; 1; 2; 1; 0]%Z))
               = Ok [0; 4]%nat) by (vm_compute; reflexivity).
  split; [exact H1|]. split; [exact H2|].
  exact (flatten_round_trip (plain_list 5)
           (heap_of_levels [0; 1; 2; 1; 0]%Z) [0; 4]%nat H1 H2).
Defined.

(** C2 as stated fails when the same object occurs twice in the input:
    on the list [A, B, A] with A at level 0 and B at level 1 (levels
    [0,1,0], depth-first consistent) the pass completes with the roots
    [A, A], but the second visit of A has reset its children list, so B
    is no longer reachable and the flattening is [A, A]. *)
Lemma flatten_round_trip_needs_distinct_nodes :
  depth_first_consistent
    (levels (heap_of_levels [0; 1]%Z) [0; 1; 0]%nat)
  /\ snd (get_cached_trees (mk_queryset [0; 1; 0]%nat None)
            (heap_of_levels [0; 1]%Z))
     = Ok [0; 0]%nat
  /\ flatten 4
       (fst (get_cached_trees (mk_queryset [0; 1; 0]%nat None)
               (heap_of_levels [0; 1]%Z)))
       [0; 0]%nat
     = Some [0; 0]%nat
  /\ forall fuel,
       flatten fuel
         (fst (get_cached_trees (mk_queryset [0; 1; 0]%nat None)
                 (heap_of_levels [0; 1]%Z)))
         [0; 0]%nat
       <> Some [0; 1; 0]%nat.
Proof.
  split; [split; cbn; [lia | repeat constructor; lia]|].
  split; [vm_compute; reflexivity|].
  split; [vm_compute; reflexivity|].
  intros [|[|[|fuel]]]; vm_compute; discriminate.
Qed.

(** * Further properties of the code *)

(** ** More on the windowed iterator *)

Lemma windows_currents {V : Type} (none : V) (l : list V) :
  forall p, map (fun t : V * V * V => snd (fst t)) (windows none p l) = l.
Proof.
  induction l as [|x rest IH]; intros p; [reflexivity|].
  cbn. now rewrite IH.
Qed.

(** X1: the current components of the triples are the items, each once
    and in the original order, whatever the items are. *)
Theorem previous_current_next_currents {V : Type} (none : V) (l : list V) :
  map (fun t : V * V * V => snd (fst t)) (previous_current_next none l) = l.
Proof. rewrite previous_current_next_windows. apply windows_currents. Qed.

(** X2: the triples slide over the input by one item: the next
    component of a triple is the current component of the triple after
    it, whose previous component is the current component of the
    former; the first triple starts with [None] and the last one ends
    with [None]. *)
Theorem previous_current_next_slides {V : Type} (none : V) (l : list V) :
  (forall i a c b a' c' b',
      nth_error (previous_current_next none l) i = Some (a, c, b) ->
      nth_error (previous_current_next none l) (S i) = Some (a', c', b') ->
      b = c' /\ a' = c)
  /\ (forall a c b,
        nth_error (previous_current_next none l) 0 = Some (a, c, b) ->
        a = none)
  /\ (forall a c b,
        nth_error (previous_current_next none l) (length l - 1)
        = Some (a, c, b) ->
        b = none).
Proof.
  rewrite previous_current_next_windows. repeat split.
  - apply windows_nth in H. apply windows_nth in H0.
    destruct H as (Hc & _ & ->). destruct H0 as (Hc' & _ & _).
    now apply nth_error_nth.
  - apply windows_nth in H. apply windows_nth in H0.
    destruct H as (Hc & _ & _). destruct H0 as (_ & -> & _).
    now apply nth_error_nth.
  - intros a c b H. apply windows_nth in H. tauto.
  - intros a c b H. apply windows_nth in H. destruct H as (Hc & _ & ->).
    assert (length l - 1 < length l)%nat
      by (apply nth_error_Some; congruence).
    apply nth_overflow. lia.
Qed.

(** ** More on the structural annotator *)

Lemma shape_keys {label : Type} (frames : list (ref * structure label)) :
  forall ann : list (ref * bool * list Z),
    map shape frames = map shape_of ann ->
    Forall (fun out : ref * structure label =>
              new_level (snd out) <> None /\ closed_levels (snd out) <> None)
      frames.
Proof.
  induction frames as [|f frames IH]; intros [|a ann] Hm; try discriminate;
    constructor.
  - cbn [map] in Hm. inversion Hm as [[Hs _]]. destruct a as [[c nl] cl].
    unfold shape, shape_of in Hs. inversion Hs. split; congruence.
  - cbn [map] in Hm. inversion Hm. eapply IH; eassumption.
Qed.

Lemma tree_item_loop_ancestors_key {label : Type} (h : heap)
    (callback : ref -> label) (b : bool) (rest : list ref) :
  forall (p c : ref) (s : structure label) (fil : Z) frames,
    closed_levels s <> None ->
    (ancestors s <> None <-> b = true) ->
    tree_item_loop h callback b
      (windows None (Some p) (map Some (c :: rest))) (s, fil) = Ok frames ->
    Forall (fun out : ref * structure label =>
              ancestors (snd out) <> None <-> b = true) frames.
Proof.
  induction rest as [|n rest IH]; intros p c s fil frames Hcl Hanc Hloop;
    destruct (closed_levels s) as [cl0|] eqn:Ecl; try congruence.
  - cbn [map windows tree_item_loop] in Hloop. destruct b.
    + destruct (ancestors s) as [anc|] eqn:Ea;
        [|exfalso; now apply (proj2 Hanc)].
      rewrite (tree_item_step_ancestors h callback s fil p c None cl0 anc
                 Ecl Ea) in Hloop.
      cbn in Hloop. inversion Hloop; subst. constructor; [|constructor].
      cbn. split; [reflexivity | discriminate].
    + rewrite (tree_item_step_plain h callback s fil p c None) in Hloop.
      cbn in Hloop. inversion Hloop; subst. constructor; [|constructor].
      exact Hanc.
  - change (map Some (c :: n :: rest))
      with (Some c :: map Some (n :: rest)) in Hloop.
    cbn [windows tree_item_loop] in Hloop. cbn [map] in Hloop. destruct b.
    + destruct (ancestors s) as [anc|] eqn:Ea;
        [|exfalso; now apply (proj2 Hanc)].
      rewrite (tree_item_step_ancestors h callback s fil p c (Some n) cl0 anc
                 Ecl Ea) in Hloop.
      cbn [bind] in Hloop.
      apply bind_ok in Hloop. destruct Hloop as (outs & Hrest & E).
      inversion E; subst. constructor.
      * cbn. split; [reflexivity | discriminate].
      * eapply (IH c n); [| |exact Hrest]; cbn;
          [discriminate | split; [reflexivity | discriminate]].
    + rewrite (tree_item_step_plain h callback s fil p c (Some n)) in Hloop.
      cbn [bind] in Hloop.
      apply bind_ok in Hloop. destruct Hloop as (outs & Hrest & E).
      inversion E; subst. constructor; [exact Hanc|].
      eapply (IH c n); [| |exact Hrest]; cbn; [discriminate | exact Hanc].
Qed.

(** X3: on a list of model instances [tree_item_iterator] never raises,
    whatever the levels and the flag; it yields one pair per node, in
    order; every dict has the keys [new_level] and [closed_levels], and
    has the key [ancestors] exactly when the flag is set. *)
Theorem tree_item_iterator_total {label : Type} (h : heap)
    (callback : ref -> label) (b : bool) (nodes : list ref) :
  exists frames,
    tree_item_iterator h callback b nodes = Ok frames
    /\ map fst frames = nodes
    /\ Forall (fun out : ref * structure label =>
                 new_level (snd out) <> None
                 /\ closed_levels (snd out) <> None
                 /\ (ancestors (snd out) <> None <-> b = true)) frames.
Proof.
  destruct (tree_item_iterator_shape h callback b nodes) as (frames & Hf & Hs).
  exists frames. split; [exact Hf|]. split.
  { rewrite (shape_nodes _ _ Hs). apply annotation_nodes. }
  pose proof (shape_keys frames _ Hs) as Hk.
  assert (Ha : Forall (fun out : ref * structure label =>
                         ancestors (snd out) <> None <-> b = true) frames).
  { clear Hs Hk. revert Hf. unfold tree_item_iterator, annotator_init.
    rewrite previous_current_next_windows.
    destruct nodes as [|c rest]; [cbn; intros E; inversion E; constructor|].
    destruct rest as [|n rest].
    - cbn [map windows tree_item_loop]. rewrite tree_item_step_first.
      cbn [bind]. intros E; inversion E; subst. constructor; [|constructor].
      cbn. destruct b; split; congruence.
    - change (map Some (c :: n :: rest)) with (Some c :: map Some (n :: rest)).
      cbn [windows tree_item_loop]. cbn [map].
      rewrite tree_item_step_first. cbn [bind]. intros E.
      apply bind_ok in E. destruct E as (outs & Hrest & E).
      inversion E; subst. constructor.
      + cbn. destruct b; split; congruence.
      + eapply (tree_item_loop_ancestors_key h callback b rest c n);
          [| |exact Hrest]; cbn; [discriminate|].
        destruct b; split; congruence. }
  rewrite Forall_forall in *. intros out Hin.
  destruct (Hk out Hin) as [H1 H2]. repeat split; auto; now apply Ha.
Qed.

Lemma annotation_nth_new_level (h : heap) (fil : Z) (nodes : list ref) :
  forall prev (i : nat) (c : ref) (nl : bool) (cl : list Z),
    nth_error (annotation h fil prev nodes) i = Some (c, nl, cl) ->
    nl = match match i with
               | O => prev
               | S j => nth_error nodes j
               end with
         | None => true
         | Some p => (level (h p) <? level (h c))%Z
         end.
Proof.
  induction nodes as [|x rest IH]; intros prev i c nl cl H.
  - destruct i; discriminate.
  - destruct i as [|j].
    + cbn in H. inversion H; subst. reflexivity.
    + cbn [annotation nth_error] in H. apply IH in H.
      destruct j; exact H.
Qed.

(** X4: [new_level] is true for the first node, and for a later node
    exactly when the node before it is at a strictly smaller level. *)
Theorem new_level_iff_deeper {label : Type} (h : heap)
    (callback : ref -> label) (b : bool) (nodes : list ref) :
  exists frames,
    tree_item_iterator h callback b nodes = Ok frames
    /\ (forall cur fr,
          nth_error frames 0 = Some (cur, fr) -> new_level fr = Some true)
    /\ (forall i prev cur fr,
          nth_error nodes i = Some prev ->
          nth_error frames (S i) = Some (cur, fr) ->
          new_level fr = Some (level (h prev) <? level (h cur))%Z).
Proof.
  destruct (tree_item_iterator_shape h callback b nodes) as (frames & Hf & Hs).
  exists frames. split; [exact Hf|]. split.
  - intros cur fr Hn.
    destruct (shape_nth _ _ _ _ _ Hs Hn) as (nl & cl & Ha & Hnl & _).
    apply annotation_nth_new_level in Ha. now rewrite Hnl, Ha.
  - intros i prev cur fr Hp Hn.
    destruct (shape_nth _ _ _ _ _ Hs Hn) as (nl & cl & Ha & Hnl & _).
    apply annotation_nth_new_level in Ha. rewrite Hp in Ha.
    now rewrite Hnl, Ha.
Qed.

(** *** What the ancestors list holds *)

Lemma ancestors_after_nearest {label : Type} (h : heap)
    (callback : ref -> label) (fil : Z) (before : list ref) (p : ref)
    (anc : list label) (cl0 : list Z) (lc : Z) :
  labels_nearest h callback fil before anc ->
  Z.of_nat (length anc) = (level (h p) - fil)%Z ->
  length cl0 = Z.to_nat (level (h p) - lc) ->
  (lc <= level (h p) + 1)%Z ->
  (fil <= lc)%Z ->
  labels_nearest h callback fil (p :: before)
    (ancestors_after anc cl0 (level (h p) <? lc)%Z (callback p)).
Proof.
  intros Hnear Hlen Hcl Hstep Hfil j lbl Hj.
  assert (Hskip : (fil + Z.of_nat j < level (h p))%Z ->
                  nth_error anc j = Some lbl ->
                  exists q,
                    nearest_at h (p :: before) (fil + Z.of_nat j)%Z = Some q
                    /\ lbl = callback q).
  { intros Hlt Hn. destruct (Hnear j lbl Hn) as (q & Hq & ->).
    exists q. split; [|reflexivity]. unfold nearest_at in *. cbn [find].
    destruct (Z.eqb_spec (level (h p)) (fil + Z.of_nat j)); [lia | exact Hq]. }
  unfold ancestors_after in Hj.
  destruct (Z.ltb_spec (level (h p)) lc) as [Hlt|Hge].
  - assert (cl0 = []) by (destruct cl0; [reflexivity | cbn in Hcl; lia]).
    subst cl0.
    destruct (Nat.lt_ge_cases j (length anc)) as [Hjl|Hjl].
    + rewrite nth_error_app1 in Hj by assumption. apply Hskip; [lia | exact Hj].
    + rewrite nth_error_app2 in Hj by assumption.
      destruct (j - length anc)%nat as [|k] eqn:Ek;
        [|destruct k; discriminate].
      cbn in Hj. inversion Hj; subst lbl. exists p. split; [|reflexivity].
      unfold nearest_at. cbn [find].
      destruct (Z.eqb_spec (level (h p)) (fil + Z.of_nat j));
        [reflexivity | lia].
  - assert (Hj' : nth_error anc j = Some lbl /\ (Z.of_nat j < lc - fil)%Z).
    { destruct cl0 as [|z cl0].
      - split; [exact Hj|]. cbn in Hcl.
        assert (j < length anc)%nat by (apply nth_error_Some; congruence).
        lia.
      - rewrite nth_error_firstn in Hj.
        destruct (Nat.ltb_spec j (length anc - length (z :: cl0)));
          [|discriminate].
        split; [exact Hj | lia]. }
    destruct Hj' as [Hn Hlt]. apply Hskip; [lia | exact Hn].
Qed.

Lemma tree_item_loop_nearest {label : Type} (h : heap)
    (callback : ref -> label) (rest : list ref) :
  forall (p c : ref) (s : structure label) (fil : Z) (anc : list label)
         (before : list ref) frames,
    closed_levels s = Some (range_down (level (h p)) (level (h c))) ->
    ancestors s = Some anc ->
    Z.of_nat (length anc) = (level (h p) - fil)%Z ->
    labels_nearest h callback fil before anc ->
    level_step_ok (levels h (p :: c :: rest)) ->
    Forall (fun l => (fil <= l)%Z) (levels h (c :: rest)) ->
    tree_item_loop h callback true
      (windows None (Some p) (map Some (c :: rest))) (s, fil) = Ok frames ->
    forall i x fr,
      nth_error frames i = Some (x, fr) ->
      exists a,
        ancestors fr = Some a
        /\ Z.of_nat (length a) = (level (h x) - fil)%Z
        /\ labels_nearest h callback fil
             (rev (firstn i (c :: rest)) ++ p :: before) a.
Proof.
  induction rest as [|n rest IH];
    intros p c s fil anc before frames Hcl Hanc Hlen Hnear Hstep Hfil Hloop
      i x fr Hi.
  - cbn [map windows tree_item_loop] in Hloop.
    rewrite (tree_item_step_ancestors h callback s fil p c None _ _ Hcl Hanc)
      in Hloop.
    cbn [bind] in Hloop. inversion Hloop; subst frames.
    destruct i as [|i]; [|destruct i; discriminate].
    cbn in Hi. inversion Hi; subst. eexists. split; [reflexivity|].
    cbn in Hstep. inversion Hfil; subst. unfold get_level in *. split.
    + apply ancestors_after_length; try lia. apply range_down_length.
    + apply ancestors_after_nearest; try assumption; try lia.
      apply range_down_length.
  - change (map Some (c :: n :: rest))
      with (Some c :: map Some (n :: rest)) in Hloop.
    cbn [windows tree_item_loop] in Hloop. cbn [map] in Hloop.
    rewrite (tree_item_step_ancestors h callback s fil p c (Some n) _ _
               Hcl Hanc) in Hloop.
    cbn [bind] in Hloop.
    apply bind_ok in Hloop. destruct Hloop as (outs & Hrest & E).
    inversion E; subst frames.
    assert (Hstep' : level_step_ok (levels h (c :: n :: rest)))
      by (eapply level_step_ok_tail; exact Hstep).
    assert (Hc : (fil <= level (h c))%Z) by (inversion Hfil; assumption).
    assert (Hpc : (level (h c) <= level (h p) + 1)%Z)
      by (cbn in Hstep; unfold get_level in Hstep; lia).
    assert (Hnear' : labels_nearest h callback fil (p :: before)
                       (ancestors_after anc
                          (range_down (level (h p)) (level (h c)))
                          (level (h p) <? level (h c))%Z (callback p))).
    { apply ancestors_after_nearest; try assumption. apply range_down_length. }
    assert (Hlen' : Z.of_nat (length (ancestors_after anc
                      (range_down (level (h p)) (level (h c)))
                      (level (h p) <? level (h c))%Z (callback p)))
                    = (level (h c) - fil)%Z).
    { apply ancestors_after_length; try lia. apply range_down_length. }
    destruct i as [|i].
    + cbn in Hi. inversion Hi; subst. eexists. split; [reflexivity|].
      split; [exact Hlen' | exact Hnear'].
    + cbn [nth_error] in Hi.
      assert (Hfil' : Forall (fun l => (fil <= l)%Z) (levels h (n :: rest)))
        by (inversion Hfil; assumption).
      match type of Hrest with
      | tree_item_loop _ _ _ _ (?s', _) = _ =>
          destruct (IH c n s' fil _ (p :: before) outs eq_refl eq_refl Hlen'
                      Hnear' Hstep' Hfil' Hrest i x fr Hi)
            as (a & Ha & Hla & Hlab)
      end.
      exists a. split; [exact Ha|]. split; [exact Hla|].
      cbn [firstn rev]. rewrite <- app_assoc. exact Hlab.
Qed.

(** On a depth-first consistent input, what every yielded ancestors
    list is: its length is the depth below the first node and entry [j]
    is the label of the most recent earlier node [j] levels below the
    first. *)
Lemma tree_item_iterator_nearest {label : Type} (h : heap)
    (callback : ref -> label) (nodes : list ref)
    (frames : list (ref * structure label)) :
  depth_first_consistent (levels h nodes) ->
  tree_item_iterator h callback true nodes = Ok frames ->
  forall i cur fr,
    nth_error frames i = Some (cur, fr) ->
    exists anc,
      ancestors fr = Some anc
      /\ Z.of_nat (length anc) = (level (h cur) - first_level_of h nodes)%Z
      /\ labels_nearest h callback (first_level_of h nodes)
           (rev (firstn i nodes)) anc.
Proof.
  intros Hdfc. unfold tree_item_iterator, annotator_init.
  rewrite previous_current_next_windows.
  destruct nodes as [|c rest].
  { cbn. intros E; inversion E. intros [|i] ? ? Hn; discriminate Hn. }
  apply depth_first_consistent_cons in Hdfc. destruct Hdfc as [Hstep Hfil].
  assert (Hnil : labels_nearest h callback (level (h c)) [] (@nil label)).
  { intros [|j] lbl Hj; discriminate. }
  assert (Hfirst : forall before,
             exists anc : list label,
               Some (@nil label) = Some anc
               /\ Z.of_nat (length anc) = (level (h c) - level (h c))%Z
               /\ labels_nearest h callback (level (h c)) before anc).
  { intros before. exists []. split; [reflexivity|]. split; [cbn; lia|].
    intros [|j] lbl Hj; discriminate. }
  destruct rest as [|n rest].
  - cbn [map windows tree_item_loop]. rewrite tree_item_step_first.
    cbn [bind]. intros E; inversion E; subst.
    intros [|i] cur fr Hn; [|destruct i; discriminate].
    cbn in Hn. inversion Hn; subst. apply Hfirst.
  - change (map Some (c :: n :: rest)) with (Some c :: map Some (n :: rest)).
    cbn [windows tree_item_loop]. cbn [map].
    rewrite tree_item_step_first. cbn [bind stop_level]. intros E.
    apply bind_ok in E. destruct E as (outs & Hrest & E).
    inversion E; subst frames.
    intros [|i] cur fr Hn.
    + cbn in Hn. inversion Hn; subst. apply Hfirst.
    + cbn [nth_error] in Hn.
      assert (Hfil' : Forall (fun l => (level (h c) <= l)%Z)
                        (levels h (n :: rest)))
        by (inversion Hfil; assumption).
      assert (Hlen0 : Z.of_nat (length (@nil label))
                      = (level (h c) - level (h c))%Z) by (cbn; lia).
      match type of Hrest with
      | tree_item_loop _ _ _ _ (?s', _) = _ =>
          destruct (tree_item_loop_nearest h callback rest c n s'
                      (level (h c)) [] [] outs eq_refl eq_refl Hlen0 Hnil
                      Hstep Hfil' Hrest i cur fr Hn) as (a & Ha & Hla & Hlab)
      end.
      exists a. split; [exact Ha|]. split; [exact Hla|].
      cbn [first_level_of firstn rev]. exact Hlab.
Qed.

(** X5: on a depth-first consistent input, entry [j] of the ancestors
    list yielded with a node is the label of the most recent earlier
    node that is [j] levels below the first node: the list is the chain
    of ancestors, root first, immediate parent last. *)
Theorem ancestors_are_nearest_shallower {label : Type} (h : heap)
    (callback : ref -> label) (nodes : list ref) :
  depth_first_consistent (levels h nodes) ->
  exists frames,
    tree_item_iterator h callback true nodes = Ok frames
    /\ forall i cur fr,
         nth_error frames i = Some (cur, fr) ->
         exists anc,
           ancestors fr = Some anc
           /\ forall j lbl,
                nth_error anc j = Some lbl ->
                exists q,
                  nearest_at h (rev (firstn i nodes))
                    (first_level_of h nodes + Z.of_nat j)%Z = Some q
                  /\ lbl = callback q.
Proof.
  intros Hdfc.
  destruct (tree_item_iterator_shape h callback true nodes)
    as (frames & Hf & _).
  exists frames. split; [exact Hf|]. intros i cur fr Hn.
  destruct (tree_item_iterator_nearest h callback nodes frames Hdfc Hf
              i cur fr Hn) as (anc & Ha & _ & Hlab).
  exists anc. split; [exact Ha | exact Hlab].
Qed.

Lemma ancestors_are_nearest_shallower_witness :
  depth_first_consistent
    (levels (heap_of_levels [0; 1; 2; 1; 0]%Z) [0; 1; 2; 3; 4]%nat)
  /\ exists frames,
       tree_item_iterator (heap_of_levels [0; 1; 2; 1; 0]%Z) (fun r => r) true
         [0; 1; 2; 3; 4]%nat = Ok frames
       /\ forall i cur fr,
            nth_error frames i = Some (cur, fr) ->
            exists anc,
              ancestors fr = Some anc
              /\ forall j lbl,
                   nth_error anc j = Some lbl ->
                   exists q,
                     nearest_at (heap_of_levels [0; 1; 2; 1; 0]%Z)
                       (rev (firstn i [0; 1; 2; 3; 4]%nat))
                       (first_level_of (heap_of_levels [0; 1; 2; 1; 0]%Z)
                          [0; 1; 2; 3; 4]%nat + Z.of_nat j)%Z = Some q
                     /\ lbl = q.
Proof.
  assert (H : depth_first_consistent
                (levels (heap_of_levels [0; 1; 2; 1; 0]%Z) [0; 1; 2; 3; 4]%nat)).
  { split; cbn; [lia | repeat constructor; lia]. }
  split; [exact H|].
  exact (ancestors_are_nearest_shallower (heap_of_levels [0; 1; 2; 1; 0]%Z)
           (fun r => r) [0; 1; 2; 3; 4]%nat H).
Defined.

(** ** More on the reconstruction pass: which inputs are accepted *)

Lemma choose_root_level_raise (f : bool) (rl : option Z) (nl : Z) (e : exn) :
  choose_root_level f rl nl = Raise e ->
  e = ValueError /\ f = false /\ exists root, rl = Some root /\ (nl < root)%Z.
Proof.
  unfold choose_root_level. destruct rl as [r0|]; [|discriminate].
  destruct f; cbn [andb]; destruct (Z.ltb_spec nl r0); intros E;
    inversion E; subst. repeat split. now exists r0.
Qed.

Lemma visit_raise (f : bool) (obj : ref) (st : pass_state) (h : heap) (e : exn) :
  choose_root_level f (root_level st) (level (h obj)) = Raise e ->
  visit f obj st h = (h, Raise e).
Proof. intros E. unfold visit, get_level. now rewrite E. Qed.

Lemma for_each_outcome (f : bool) (rest : list ref) :
  forall (st : pass_state) (h : heap),
    path_ready h st ->
    (exists st', snd (for_each f rest st h) = Ok st')
    \/ (f = false /\ snd (for_each f rest st h) = Raise ValueError).
Proof.
  induction rest as [|obj rest IH]; intros st h Hr.
  - left. now exists st.
  - destruct (choose_root_level f (root_level st) (level (h obj)))
      as [root|e] eqn:Hch.
    + destruct (visit_ok f obj st h root Hch Hr) as (h' & st' & Hv & _).
      rewrite (for_each_cons_ok f obj rest st st' h h' Hv).
      apply IH. eapply visit_ready; eassumption.
    + destruct (choose_root_level_raise _ _ _ _ Hch) as (-> & -> & _).
      right. split; [reflexivity|].
      cbn [for_each]. now rewrite (visit_raise _ _ _ _ _ Hch).
Qed.

Lemma path_ready_init (h : heap) : path_ready h pass_init.
Proof. split; [constructor | intros H; now elim H]. Qed.

(** X6: whatever the input and the store, [get_cached_trees] either
    returns a list of roots or raises [ValueError]; popping the path and
    reading [current_path[-1]] or the parent's children list never
    fail. *)
Theorem get_cached_trees_only_value_error (qs : queryset) (h : heap) :
  (exists top, snd (get_cached_trees qs h) = Ok top)
  \/ snd (get_cached_trees qs h) = Raise ValueError.
Proof.
  unfold get_cached_trees. destruct (items qs) as [|first rest] eqn:Ei.
  { left. now exists []. }
  destruct (for_each_outcome (is_filtered_of qs) (first :: rest) pass_init h
              (path_ready_init h)) as [(st' & E)|(_ & E)];
    destruct (for_each _ _ _ _) as [h' [st1|e]]; cbn [snd] in *;
    try discriminate.
  - left. now eexists.
  - right. congruence.
Qed.

(** X7: in filtered mode [get_cached_trees] never raises. *)
Theorem filtered_never_raises (qs : queryset) (h : heap) :
  is_filtered_of qs = true ->
  exists top, snd (get_cached_trees qs h) = Ok top.
Proof.
  intros Hf. unfold get_cached_trees.
  destruct (items qs) as [|first rest] eqn:Ei; [now exists []|].
  rewrite Hf.
  destruct (for_each_outcome true (first :: rest) pass_init h
              (path_ready_init h)) as [(st' & E)|(Hfalse & _)];
    [|discriminate].
  destruct (for_each _ _ _ _) as [h' [st1|e]]; cbn [snd] in *;
    [now eexists | discriminate].
Qed.

Lemma filtered_never_raises_witness :
  is_filtered_of (filtered_queryset 3) = true
  /\ exists top,
       snd (get_cached_trees (filtered_queryset 3)
              (heap_of_levels [1; 2; 0]%Z)) = Ok top.
Proof.
  split; [reflexivity|].
  exact (filtered_never_raises (filtered_queryset 3)
           (heap_of_levels [1; 2; 0]%Z) eq_refl).
Defined.

Lemma for_each_plain_ok (rest : list ref) :
  forall (st : pass_state) (h : heap) (root : Z),
    root_level st = Some root ->
    path_ready h st ->
    Forall (fun r => (root <= level (h r))%Z) rest ->
    exists st', snd (for_each false rest st h) = Ok st'.
Proof.
  induction rest as [|obj rest IH]; intros st h root Hroot Hr Hall.
  - now exists st.
  - inversion Hall as [|? ? Hobj Hrest]; subst.
    assert (Hch : choose_root_level false (root_level st) (level (h obj))
                  = Ok root).
    { rewrite Hroot, choose_root_level_plain.
      destruct (Z.ltb_spec (level (h obj)) root); [lia | reflexivity]. }
    destruct (visit_ok false obj st h root Hch Hr) as (h' & st' & Hv & Hroot').
    rewrite (for_each_cons_ok false obj rest st st' h h' Hv).
    apply (IH st' h' root Hroot').
    + eapply visit_ready; eassumption.
    + rewrite Forall_forall in *. intros r Hin.
      pose proof (visit_level false obj st h r) as Hl.
      rewrite Hv in Hl. cbn [fst] in Hl. rewrite Hl. now apply Hrest.
Qed.

(** The first step of a pass, and the state it leaves. *)
Lemma visit_first (f : bool) (first : ref) (h : heap) :
  visit f first pass_init h
  = (set_cached_children h first [],
     Ok (mk_pass (Some (level (h first))) [first] [first])).
Proof. apply visit_root_eq. reflexivity. Qed.

Lemma path_ready_first (h : heap) (first : ref) :
  path_ready (set_cached_children h first [])
    (mk_pass (Some (level (h first))) [first] [first]).
Proof.
  split; cbn; [|discriminate]. constructor; [|constructor].
  rewrite children_set_cached_children_eq. discriminate.
Qed.

(** A pass outside filtered mode that completes has met no node below
    the level of the first node. *)
Lemma plain_pass_levels (h : heap) (first : ref) (rest : list ref)
    (st' : pass_state) :
  snd (for_each false (first :: rest) pass_init h) = Ok st' ->
  Forall (fun r => (level (h first) <= level (h r))%Z) (first :: rest).
Proof.
  rewrite (for_each_cons_ok false first rest _ _ h _ (visit_first false first h)).
  intros Hok. constructor; [lia|].
  destruct (Exists_dec (fun r => (level (h r) < level (h first))%Z) rest)
    as [Hex|Hnex].
  { intros r. destruct (Z_lt_dec (level (h r)) (level (h first)));
      [now left | now right]. }
  - exfalso.
    assert (E : @Ok pass_state st' = Raise ValueError); [|discriminate E].
    rewrite <- Hok.
    apply (for_each_plain_raises rest
             (mk_pass (Some (level (h first))) [first] [first])
             (set_cached_children h first []) (level (h first)) eq_refl
             (path_ready_first h first)).
    apply Exists_exists in Hex.
    destruct Hex as (r & Hin & Hlt). apply Exists_exists. exists r.
    split; [exact Hin|]. now rewrite level_set_cached_children.
  - apply Forall_Exists_neg in Hnex. revert Hnex. apply Forall_impl.
    intros r Hr'. lia.
Qed.

(** X8: outside filtered mode [get_cached_trees] completes exactly when
    no node is at a level below the level of the first node. *)
Theorem plain_completes_iff (qs : queryset) (h : heap) :
  is_filtered_of qs = false ->
  (exists top, snd (get_cached_trees qs h) = Ok top)
  <-> Forall (fun r => (first_level_of h (items qs) <= level (h r))%Z)
        (items qs).
Proof.
  intros Hf. unfold get_cached_trees.
  destruct (items qs) as [|first rest] eqn:Ei.
  { split; [constructor | now exists []]. }
  rewrite Hf. cbn [first_level_of]. split.
  - intros (top & Hok).
    destruct (for_each false (first :: rest) pass_init h)
      as [h' [st'|e]] eqn:Hfe; cbn [snd] in Hok; [|discriminate].
    apply (plain_pass_levels h first rest st'). now rewrite Hfe.
  - intros Hall. inversion Hall as [|? ? _ Hrest]; subst.
    rewrite (for_each_cons_ok false first rest _ _ h _
               (visit_first false first h)).
    destruct (for_each_plain_ok rest
                (mk_pass (Some (level (h first))) [first] [first])
                (set_cached_children h first []) (level (h first))
                eq_refl (path_ready_first h first)) as (st' & E).
    { revert Hrest. apply Forall_impl. intros r Hr'.
      now rewrite level_set_cached_children. }
    destruct (for_each false rest _ _) as [h' [st1|e]]; cbn [snd] in *;
      [now eexists | discriminate].
Qed.

Lemma plain_completes_iff_witness :
  is_filtered_of (plain_list 5) = false
  /\ ((exists top,
         snd (get_cached_trees (plain_list 5)
                (heap_of_levels [0; 1; 2; 1; 0]%Z)) = Ok top)
      <-> Forall (fun r => (first_level_of (heap_of_levels [0; 1; 2; 1; 0]%Z)
                              (items (plain_list 5))
                            <= level (heap_of_levels [0; 1; 2; 1; 0]%Z r))%Z)
            (items (plain_list 5))).
Proof.
  split; [reflexivity|].
  exact (plain_completes_iff (plain_list 5)
           (heap_of_levels [0; 1; 2; 1; 0]%Z) eq_refl).
Defined.

(** ** More on the reconstruction pass: the roots *)

Lemma prefix_minima_ext (h h' : heap) (nodes : list ref) :
  (forall r, level (h' r) = level (h r)) ->
  forall m, prefix_minima h' m nodes = prefix_minima h m nodes.
Proof.
  intros Hl. induction nodes as [|r rest IH]; intros m; [reflexivity|].
  cbn [prefix_minima]. rewrite Hl, !IH. reflexivity.
Qed.

Lemma prefix_minima_In (h : heap) (nodes : list ref) :
  forall (m : option Z) (r : ref),
    In r (prefix_minima h m nodes)
    <-> exists pre post,
          nodes = pre ++ r :: post
          /\ Forall (fun q => (level (h r) <= level (h q))%Z) pre
          /\ match m with
             | None => True
             | Some m0 => (level (h r) <= m0)%Z
             end.
Proof.
  induction nodes as [|x rest IH]; intros m r.
  - cbn. split; [tauto|]. intros (pre & post & E & _). destruct pre; discriminate.
  - cbn [prefix_minima].
    destruct (match m with
              | None => true
              | Some m0 => (level (h x) <=? m0)%Z
              end) eqn:Ec.
    + cbn [In]. rewrite IH. split.
      * intros [<-|(pre & post & -> & Hpre & Hb)].
        -- exists [], rest. repeat split; [constructor|].
           destruct m; [lia | exact I].
        -- exists (x :: pre), post. repeat split; [now constructor|].
           destruct m; [lia | exact I].
      * intros (pre & post & E & Hpre & Hb). destruct pre as [|y pre].
        -- left. now inversion E.
        -- right. inversion E; subst. inversion Hpre; subst.
           exists pre, post. repeat split; assumption.
    + destruct m as [m0|]; [|discriminate]. rewrite IH. split.
      * intros (pre & post & -> & Hpre & Hb).
        exists (x :: pre), post. repeat split; [|exact Hb].
        constructor; [lia | exact Hpre].
      * intros (pre & post & E & Hpre & Hb). destruct pre as [|y pre].
        -- inversion E; subst. lia.
        -- inversion E; subst. inversion Hpre; subst.
           exists pre, post. repeat split; assumption.
Qed.

Lemma prefix_minima_filter (h : heap) (m0 : Z) (nodes : list ref) :
  Forall (fun r => (m0 <= level (h r))%Z) nodes ->
  prefix_minima h (Some m0) nodes
  = filter (fun r => (level (h r) =? m0)%Z) nodes.
Proof.
  induction 1 as [|r rest Hr _ IH]; [reflexivity|].
  cbn [prefix_minima filter].
  destruct (Z.leb_spec (level (h r)) m0), (Z.eqb_spec (level (h r)) m0);
    try lia.
  - replace (level (h r)) with m0 by lia. now rewrite IH.
  - exact IH.
Qed.

Lemma for_each_roots (f : bool) (rest : list ref) :
  forall (st st' : pass_state) (h h' : heap),
    path_ready h st ->
    for_each f rest st h = (h', Ok st') ->
    top_nodes st' = top_nodes st ++ prefix_minima h (root_level st) rest.
Proof.
  induction rest as [|obj rest IH]; intros st st' h h' Hr Hfe.
  - cbn in Hfe. inversion Hfe; subst. now rewrite app_nil_r.
  - cbn [for_each] in Hfe.
    destruct (visit f obj st h) as [h1 [st1|e]] eqn:Hv; [|discriminate].
    destruct (visit_ready f obj st st1 h h1 Hr Hv) as (Hr1 & _ & _).
    rewrite (IH st1 st' h1 h' Hr1 Hfe).
    rewrite (prefix_minima_ext h h1)
      by (intros r; pose proof (visit_level f obj st h r) as E;
          now rewrite Hv in E).
    destruct (choose_root_level f (root_level st) (level (h obj)))
      as [root|e] eqn:Hch.
    2:{ unfold visit, get_level in Hv. rewrite Hch in Hv. discriminate. }
    destruct (choose_root_level_ok _ _ _ _ Hch) as [Hle Hrl].
    cbn [prefix_minima].
    destruct (visit_spec f obj st h root Hch Hr)
      as [[Eroot E]|[Hlt (p & path' & cs & _ & _ & E)]];
      rewrite E in Hv; inversion Hv; subst h1 st1; clear Hv;
      cbn [top_nodes root_level].
    + replace (match root_level st with
               | None => true
               | Some m0 => (level (h obj) <=? m0)%Z
               end) with true.
      * rewrite <- app_assoc, Eroot. reflexivity.
      * destruct (root_level st) as [r0|]; [|reflexivity].
        symmetry. apply Z.leb_le. destruct Hrl as [?|(_ & ? & ?)]; lia.
    + destruct (root_level st) as [r0|]; [|lia].
      assert (root = r0) by (destruct Hrl as [?|(_ & _ & ?)]; lia). subst r0.
      destruct (Z.leb_spec (level (h obj)) root); [lia | reflexivity].
Qed.

(** X9: the roots returned by a completed pass, filtered or not, are
    the nodes whose level is at most the level of every node before
    them, in input order. *)
Theorem roots_are_prefix_minima (qs : queryset) (h : heap) (top : list ref) :
  snd (get_cached_trees qs h) = Ok top ->
  top = prefix_minima h None (items qs)
  /\ forall r,
       In r top
       <-> exists pre post,
             items qs = pre ++ r :: post
             /\ Forall (fun q => (level (h r) <= level (h q))%Z) pre.
Proof.
  intros Hg.
  assert (E : top = prefix_minima h None (items qs)).
  { unfold get_cached_trees in Hg.
    destruct (items qs) as [|first rest] eqn:Ei.
    { cbn in Hg. now inversion Hg. }
    destruct (for_each (is_filtered_of qs) (first :: rest) pass_init h)
      as [h' [st'|e]] eqn:Hfe; cbn [snd] in Hg; inversion Hg; subst top.
    apply (for_each_roots _ _ _ _ _ _ (path_ready_init h) Hfe). }
  split; [exact E|]. intros r. rewrite E, prefix_minima_In.
  split; [intros (pre & post & H1 & H2 & _) | intros (pre & post & H1 & H2)];
    exists pre, post; tauto.
Qed.

Lemma roots_are_prefix_minima_witness :
  snd (get_cached_trees (filtered_queryset 3) (heap_of_levels [1; 2; 0]%Z))
  = Ok [0; 2]%nat
  /\ [0; 2]%nat
     = prefix_minima (heap_of_levels [1; 2; 0]%Z) None
         (items (filtered_queryset 3)).
Proof.
  assert (H : snd (get_cached_trees (filtered_queryset 3)
                     (heap_of_levels [1; 2; 0]%Z)) = Ok [0; 2]%nat)
    by (vm_compute; reflexivity).
  split; [exact H|].
  exact (proj1 (roots_are_prefix_minima (filtered_queryset 3)
                  (heap_of_levels [1; 2; 0]%Z) [0; 2]%nat H)).
Defined.

(** X10: outside filtered mode, the roots returned by a completed pass
    are exactly the nodes at the level of the first node, in input
    order. *)
Theorem plain_roots_at_first_level (qs : queryset) (h : heap)
    (top : list ref) :
  is_filtered_of qs = false ->
  snd (get_cached_trees qs h) = Ok top ->
  top = filter (fun r => (level (h r) =? first_level_of h (items qs))%Z)
          (items qs).
Proof.
  intros Hf Hg. unfold get_cached_trees in Hg.
  destruct (items qs) as [|first rest] eqn:Ei.
  { cbn in Hg. now inversion Hg. }
  rewrite Hf in Hg.
  destruct (for_each false (first :: rest) pass_init h)
    as [h' [st'|e]] eqn:Hfe; cbn [snd] in Hg; inversion Hg; subst top.
  rewrite (for_each_roots _ _ _ _ _ _ (path_ready_init h) Hfe).
  cbn [top_nodes pass_init root_level app first_level_of].
  assert (Hall : Forall (fun r => (level (h first) <= level (h r))%Z)
                   (first :: rest)).
  { apply (plain_pass_levels h first rest st'). now rewrite Hfe. }
  cbn [prefix_minima]. rewrite <- prefix_minima_filter by exact Hall.
  cbn [prefix_minima]. now rewrite Z.leb_refl.
Qed.

Lemma plain_roots_at_first_level_witness :
  is_filtered_of (plain_list 5) = false
  /\ snd (get_cached_trees (plain_list 5) (heap_of_levels [0; 1; 2; 1; 0]%Z))
     = Ok [0; 4]%nat
  /\ [0; 4]%nat
     = filter (fun r => (level (heap_of_levels [0; 1; 2; 1; 0]%Z r)
                         =? first_level_of (heap_of_levels [0; 1; 2; 1; 0]%Z)
                              (items (plain_list 5)))%Z)
         (items (plain_list 5)).
Proof.
  assert (H : snd (get_cached_trees (plain_list 5)
                     (heap_of_levels [0; 1; 2; 1; 0]%Z)) = Ok [0; 4]%nat)
    by (vm_compute; reflexivity).
  split; [reflexivity|]. split; [exact H|].
  exact (plain_roots_at_first_level (plain_list 5)
           (heap_of_levels [0; 1; 2; 1; 0]%Z) [0; 4]%nat eq_refl H).
Defined.

(** ** More on the reconstruction pass: what it leaves alone *)

Lemma link_other (h : heap) (obj p : ref) (cs : list ref) (root : Z) (r : ref) :
  r <> obj -> r <> p -> link h obj p cs root r = h r.
Proof.
  intros H1 H2. unfold link, set_use_cached_ancestors, set_cached_children,
    set_parent.
  destruct (root =? 0)%Z; now rewrite !update_neq by assumption.
Qed.

Lemma pop_path_incl (path : list ref) (k : Z) (path' : list ref) :
  pop_path path k = Ok path' -> incl path' path.
Proof.
  revert path'. induction path as [|q rest IH]; intros path' H.
  - cbn in H. destruct (0 >? k)%Z; inversion H. apply incl_refl.
  - cbn [pop_path] in H.
    destruct (Z.of_nat (length (q :: rest)) >? k)%Z.
    + apply incl_tl. now apply IH.
    + inversion H. apply incl_refl.
Qed.

Lemma visit_frame (f : bool) (obj : ref) (st : pass_state) (h : heap) (r : ref) :
  r <> obj ->
  ~ In r (current_path st) ->
  fst (visit f obj st h) r = h r.
Proof.
  intros Hobj Hpath. unfold visit.
  destruct (choose_root_level f (root_level st) (get_level h obj));
    [|reflexivity].
  destruct (pop_path (current_path st) (get_level h obj - a)) as [path|] eqn:Ep;
    cbn [fst]; [|unfold set_cached_children; now rewrite update_neq].
  destruct (get_level h obj =? a)%Z;
    cbn [fst]; [unfold set_cached_children; now rewrite update_neq|].
  destruct path as [|p path'];
    cbn [fst]; [unfold set_cached_children; now rewrite update_neq|].
  assert (Hp : r <> p).
  { intros ->. apply Hpath. apply (pop_path_incl _ _ _ Ep). now left. }
  destruct (_cached_children
              (set_parent (set_cached_children h obj []) obj p p)) as [cs|];
    cbn [fst].
  - now apply (link_other h obj p cs a r).
  - unfold set_parent, set_cached_children. now rewrite !update_neq.
Qed.

Lemma visit_path_incl (f : bool) (obj : ref) (st st' : pass_state)
    (h h' : heap) :
  visit f obj st h = (h', Ok st') ->
  incl (current_path st') (obj :: current_path st).
Proof.
  unfold visit.
  destruct (choose_root_level f (root_level st) (get_level h obj));
    [|discriminate].
  destruct (pop_path (current_path st) (get_level h obj - a)) as [path|] eqn:Ep;
    [|discriminate].
  pose proof (pop_path_incl _ _ _ Ep) as Hincl.
  destruct (get_level h obj =? a)%Z.
  - intros E; inversion E; subst. cbn.
    intros x [<-|Hx]; [now left | right; now apply Hincl].
  - destruct path as [|p path']; [discriminate|].
    destruct (_cached_children
                (set_parent (set_cached_children h obj []) obj p p));
      [|discriminate].
    intros E; inversion E; subst. cbn [current_path].
    intros x [<-|Hx]; [now left | right; now apply Hincl].
Qed.

Lemma for_each_frame (f : bool) (rest : list ref) :
  forall (st : pass_state) (h : heap) (r : ref),
    ~ In r rest ->
    ~ In r (current_path st) ->
    fst (for_each f rest st h) r = h r.
Proof.
  induction rest as [|obj rest IH]; intros st h r Hrest Hpath; [reflexivity|].
  cbn [for_each].
  assert (Hobj : r <> obj) by (intros ->; apply Hrest; now left).
  pose proof (visit_frame f obj st h r Hobj Hpath) as Hv.
  destruct (visit f obj st h) as [h1 [st1|e]] eqn:Ev; cbn [fst] in *;
    [|exact Hv].
  rewrite IH; [exact Hv | |].
  - intros Hin. apply Hrest. now right.
  - intros Hin. apply (visit_path_incl f obj st st1 h h1 Ev) in Hin.
    destruct Hin as [<-|Hin]; [now apply Hobj | now apply Hpath].
Qed.

(** X11: whether it completes or raises, [get_cached_trees] leaves
    every object that is not in the input exactly as it was, and changes
    the level of no object. *)
Theorem get_cached_trees_frame (qs : queryset) (h : heap) :
  (forall r, ~ In r (items qs) -> fst (get_cached_trees qs h) r = h r)
  /\ (forall r, level (fst (get_cached_trees qs h) r) = level (h r)).
Proof.
  unfold get_cached_trees.
  destruct (items qs) as [|first rest] eqn:Ei; [split; reflexivity|].
  split; intros r.
  - intros Hin.
    pose proof (for_each_frame (is_filtered_of qs) (first :: rest)
                  pass_init h r Hin (fun H => H)) as E.
    destruct (for_each _ _ _ _) as [h' [st'|e]]; exact E.
  - pose proof (for_each_level (is_filtered_of qs) (first :: rest)
                  pass_init h r) as E.
    destruct (for_each _ _ _ _) as [h' [st'|e]]; exact E.
Qed.

(** ** More on the reconstruction pass: the cached-ancestors mark *)

Lemma flag_set_cached_children (h : heap) (o : ref) (cs : list ref) (r : ref) :
  _mptt_use_cached_ancestors (set_cached_children h o cs r)
  = _mptt_use_cached_ancestors (h r).
Proof.
  unfold set_cached_children, update.
  destruct (Nat.eqb_spec r o); [subst|]; reflexivity.
Qed.

Lemma flag_set_parent (h : heap) (o p r : ref) :
  _mptt_use_cached_ancestors (set_parent h o p r)
  = _mptt_use_cached_ancestors (h r).
Proof.
  unfold set_parent, update.
  destruct (Nat.eqb_spec r o); [subst|]; reflexivity.
Qed.

Lemma flag_set_use_cached_ancestors (h : heap) (o r : ref) :
  _mptt_use_cached_ancestors (set_use_cached_ancestors h o r)
  = if Nat.eqb r o then true else _mptt_use_cached_ancestors (h r).
Proof.
  unfold set_use_cached_ancestors, update.
  destruct (Nat.eqb r o); reflexivity.
Qed.

Lemma flag_link (h : heap) (obj p : ref) (cs : list ref) (root : Z) (r : ref) :
  _mptt_use_cached_ancestors (link h obj p cs root r)
  = if (root =? 0)%Z && Nat.eqb r obj then true
    else _mptt_use_cached_ancestors (h r).
Proof.
  unfold link. destruct (root =? 0)%Z; cbn [andb];
    rewrite ?flag_set_use_cached_ancestors, flag_set_cached_children,
      flag_set_parent, flag_set_cached_children; reflexivity.
Qed.

Lemma for_each_plain_flag (rest : list ref) :
  forall (st st' : pass_state) (h h' : heap) (root : Z),
    root_level st = Some root ->
    path_ready h st ->
    for_each false rest st h = (h', Ok st') ->
    forall r,
      _mptt_use_cached_ancestors (h' r) = true
      <-> _mptt_use_cached_ancestors (h r) = true
          \/ (root = 0%Z /\ In r rest /\ level (h r) <> 0%Z).
Proof.
  induction rest as [|obj rest IH]; intros st st' h h' root Hroot Hr Hfe r.
  - cbn in Hfe. inversion Hfe; subst. cbn [In]. tauto.
  - cbn [for_each] in Hfe.
    destruct (visit false obj st h) as [h1 [st1|e]] eqn:Hv; [|discriminate].
    destruct (choose_root_level false (root_level st) (level (h obj)))
      as [root'|e] eqn:Hch.
    2:{ unfold visit, get_level in Hv. rewrite Hch in Hv. discriminate. }
    destruct (choose_root_level_ok _ _ _ _ Hch) as [Hle Hrl].
    rewrite Hroot in Hrl.
    assert (root' = root) by (destruct Hrl as [?|(? & _)]; congruence).
    subst root'.
    destruct (visit_ready false obj st st1 h h1 Hr Hv) as (Hr1 & _ & _).
    assert (Hlev : forall x, level (h1 x) = level (h x)).
    { intros x. pose proof (visit_level false obj st h x) as E.
      now rewrite Hv in E. }
    destruct (visit_spec false obj st h root Hch Hr)
      as [[Eroot E]|[Hlt (p & path' & cs & _ & _ & E)]];
      rewrite E in Hv; inversion Hv; subst h1 st1; clear Hv.
    + pose proof (fun Hrt => IH _ st' _ h' root Hrt Hr1 Hfe r) as HIH.
      rewrite (HIH eq_refl). clear HIH.
      rewrite flag_set_cached_children, Hlev. cbn [In].
      split; [tauto|]. intros [H|(H0 & [<-|Hin] & Hl)]; [tauto | lia | tauto].
    + pose proof (fun Hrt => IH _ st' _ h' root Hrt Hr1 Hfe r) as HIH.
      rewrite (HIH eq_refl). clear HIH.
      rewrite flag_link, Hlev. cbn [In].
      destruct (Z.eqb_spec root 0), (Nat.eqb_spec r obj); cbn [andb];
        subst; split; try solve [intuition congruence].
      intros _. right. repeat split; [now left | lia].
Qed.

(** X12: after a completed pass outside filtered mode, an object
    carries the mark [_mptt_use_cached_ancestors] exactly when it
    carried it before, or the first node is at level 0 and the object is
    an input node at another level. So the mark is never removed, and
    never added when the input does not start at level 0. *)
Theorem use_cached_ancestors_mark (qs : queryset) (h : heap) (top : list ref) :
  is_filtered_of qs = false ->
  snd (get_cached_trees qs h) = Ok top ->
  forall r,
    _mptt_use_cached_ancestors (fst (get_cached_trees qs h) r) = true
    <-> _mptt_use_cached_ancestors (h r) = true
        \/ (first_level_of h (items qs) = 0%Z
            /\ In r (items qs) /\ level (h r) <> 0%Z).
Proof.
  intros Hf Hg r. unfold get_cached_trees in *.
  destruct (items qs) as [|first rest] eqn:Ei.
  { cbn. split; [tauto|]. intros [H|(_ & [] & _)]. exact H. }
  rewrite Hf in *. cbn [first_level_of].
  rewrite (for_each_cons_ok false first rest _ _ h _
             (visit_first false first h)) in *.
  destruct (for_each false rest _ _) as [h' [st'|e]] eqn:Hfe;
    cbn [fst snd] in *; [|discriminate].
  pose proof (fun Hrt => for_each_plain_flag rest _ st' _ h' (level (h first))
                           Hrt (path_ready_first h first) Hfe r) as HIH.
  rewrite (HIH eq_refl). clear HIH.
  rewrite flag_set_cached_children, level_set_cached_children. cbn [In].
  split; [tauto|].
  intros [H|(H0 & [<-|Hin] & Hl)]; [tauto | contradiction | tauto].
Qed.

Lemma use_cached_ancestors_mark_witness :
  is_filtered_of (plain_list 5) = false
  /\ snd (get_cached_trees (plain_list 5) (heap_of_levels [0; 1; 2; 1; 0]%Z))
     = Ok [0; 4]%nat
  /\ forall r,
       _mptt_use_cached_ancestors
         (fst (get_cached_trees (plain_list 5)
                 (heap_of_levels [0; 1; 2; 1; 0]%Z)) r) = true
       <-> _mptt_use_cached_ancestors (heap_of_levels [0; 1; 2; 1; 0]%Z r)
           = true
           \/ (first_level_of (heap_of_levels [0; 1; 2; 1; 0]%Z)
                 (items (plain_list 5)) = 0%Z
               /\ In r (items (plain_list 5))
               /\ level (heap_of_levels [0; 1; 2; 1; 0]%Z r) <> 0%Z).
Proof.
  assert (H : snd (get_cached_trees (plain_list 5)
                     (heap_of_levels [0; 1; 2; 1; 0]%Z)) = Ok [0; 4]%nat)
    by (vm_compute; reflexivity).
  split; [reflexivity|]. split; [exact H|].
  exact (use_cached_ancestors_mark (plain_list 5)
           (heap_of_levels [0; 1; 2; 1; 0]%Z) [0; 4]%nat eq_refl H).
Defined.

(** ** More on the reconstruction pass: children lists and parent links *)

Lemma mem_In (r : ref) (l : list ref) : mem r l = true <-> In r l.
Proof.
  unfold mem. rewrite existsb_exists. split.
  - intros (x & Hx & E). apply Nat.eqb_eq in E. now subst.
  - intros H. exists r. split; [exact H | apply Nat.eqb_refl].
Qed.

Lemma mem_false (r : ref) (l : list ref) : mem r l = false <-> ~ In r l.
Proof.
  rewrite <- mem_In. destruct (mem r l); split; congruence.
Qed.

Lemma mem_snoc_other (c obj : ref) (l : list ref) :
  c <> obj -> mem c (l ++ [obj]) = mem c l.
Proof.
  intros H. unfold mem. rewrite existsb_app. cbn.
  destruct (Nat.eqb_spec c obj); [contradiction|].
  now rewrite !orb_false_r.
Qed.

Lemma filter_none {A : Type} (f : A -> bool) (l : list A) :
  (forall x, In x l -> f x = false) -> filter f l = [].
Proof.
  induction l as [|x l IH]; intros H; [reflexivity|].
  cbn. rewrite (H x) by now left. apply IH. intros y Hy. apply H. now right.
Qed.

Lemma children_by_parent_snoc (h : heap) (top done : list ref) (obj p : ref) :
  children_by_parent h top (done ++ [obj]) p
  = children_by_parent h top done p
    ++ (if negb (mem obj top) && parent_is h obj p then [obj] else []).
Proof. unfold children_by_parent. now rewrite filter_app. Qed.

(** One step of the pass keeps the children lists and the parent links
    in step, when the node has not been visited before. *)
Lemma visit_tree_inv (f : bool) (obj : ref) (st st' : pass_state)
    (h h' : heap) (done : list ref) :
  ~ In obj done ->
  path_ready h st ->
  tree_inv h st done ->
  visit f obj st h = (h', Ok st') ->
  tree_inv h' st' (done ++ [obj]).
Proof.
  intros Hobj Hr (Hpath & Htop & Hpar & Hch) Hv.
  destruct (choose_root_level f (root_level st) (level (h obj)))
    as [root|e] eqn:Hchoose.
  2:{ unfold visit, get_level in Hv. rewrite Hchoose in Hv. discriminate. }
  assert (Hne : forall c, In c done -> c <> obj) by (intros c Hc ->; auto).
  assert (Hnoparent : forall c, In c done -> ~ In c (top_nodes st) ->
                                parent_is h c obj = false).
  { intros c Hc Hn. destruct (Hpar c Hc Hn) as (q & Hq & Hqd).
    unfold parent_is. rewrite Hq. apply Nat.eqb_neq. now apply Hne. }
  destruct (visit_spec f obj st h root Hchoose Hr)
    as [[_ E]|[_ (p0 & path' & cs & Es & Ec & E)]];
    rewrite E in Hv; inversion Hv; subst h' st'; clear Hv;
    unfold tree_inv; cbn [top_nodes current_path].
  - (* a new root *)
    split; [|split; [|split]].
    + intros x [<-|[]]. apply in_or_app. right. now left.
    + apply incl_app; [apply incl_appl, Htop | apply incl_appr, incl_refl].
    + intros c Hc Hn. apply in_app_or in Hc. destruct Hc as [Hc|[<-|[]]].
      * destruct (Hpar c Hc) as (q & Hq & Hqd).
        { intros Hin. apply Hn. apply in_or_app. now left. }
        exists q. rewrite parent_set_cached_children.
        split; [exact Hq | apply in_or_app; now left].
      * exfalso. apply Hn. apply in_or_app. right. now left.
    + intros p Hp. unfold children_by_parent. rewrite filter_app.
      cbn [filter].
      replace (mem obj (top_nodes st ++ [obj])) with true
        by (symmetry; apply mem_In, in_or_app; right; now left).
      cbn [negb andb]. rewrite app_nil_r.
      apply in_app_or in Hp. destruct Hp as [Hp|[<-|[]]].
      * rewrite children_set_cached_children_neq by now apply Hne.
        rewrite (Hch p Hp). f_equal. unfold children_by_parent.
        apply filter_ext_in. intros c Hc.
        rewrite mem_snoc_other by now apply Hne.
        unfold parent_is. now rewrite parent_set_cached_children.
      * rewrite children_set_cached_children_eq. f_equal. symmetry.
        apply filter_none. intros c Hc.
        rewrite mem_snoc_other by now apply Hne.
        destruct (mem c (top_nodes st)) eqn:Em; [reflexivity|].
        cbn [negb andb]. unfold parent_is.
        rewrite parent_set_cached_children.
        apply (Hnoparent c Hc). now apply mem_false.
  - (* a new child of [p0] *)
    assert (Hp0 : In p0 done).
    { apply Hpath. eapply skipn_incl. rewrite Es. now left. }
    assert (Hp0obj : p0 <> obj) by now apply Hne.
    rewrite children_set_cached_children_neq in Ec by assumption.
    rewrite (Hch p0 Hp0) in Ec. inversion Ec; subst cs; clear Ec.
    assert (Hobjtop : mem obj (top_nodes st) = false).
    { apply mem_false. intros Hin. apply Hobj. now apply Htop. }
    split; [|split; [|split]].
    + intros x [<-|Hx]; apply in_or_app; [right; now left | left].
      apply Hpath. eapply skipn_incl. rewrite Es. exact Hx.
    + apply incl_appl, Htop.
    + intros c Hc Hn. apply in_app_or in Hc. destruct Hc as [Hc|[<-|[]]].
      * destruct (Hpar c Hc Hn) as (q & Hq & Hqd).
        exists q. rewrite parent_link_neq by now apply Hne.
        split; [exact Hq | apply in_or_app; now left].
      * exists p0. split; [apply parent_link_eq | apply in_or_app; now left].
    + intros p Hp.
      remember (children_by_parent h (top_nodes st) done p0) as cs eqn:Ecs.
      assert (Hobjp : forall q,
                 parent_is (link h obj p0 cs root) obj q = Nat.eqb p0 q).
      { intros q. unfold parent_is. now rewrite parent_link_eq. }
      assert (Hsame : forall q,
                 children_by_parent (link h obj p0 cs root) (top_nodes st)
                   done q
                 = children_by_parent h (top_nodes st) done q).
      { intros q. unfold children_by_parent. apply filter_ext_in.
        intros c Hc. unfold parent_is.
        now rewrite parent_link_neq by now apply Hne. }
      rewrite children_by_parent_snoc, Hsame, Hobjtop, Hobjp.
      cbn [negb andb].
      apply in_app_or in Hp. destruct Hp as [Hp|[<-|[]]].
      * destruct (Nat.eq_dec p p0) as [->|Hpp0].
        -- rewrite children_link_parent, Nat.eqb_refl, Ecs. reflexivity.
        -- rewrite children_link_other by (auto; now apply Hne).
           rewrite (Hch p Hp).
           destruct (Nat.eqb_spec p0 p); [congruence|].
           now rewrite app_nil_r.
      * rewrite children_link_obj by congruence.
        destruct (Nat.eqb_spec p0 obj); [congruence|].
        rewrite app_nil_r. f_equal. symmetry.
        apply filter_none. intros c Hc.
        destruct (mem c (top_nodes st)) eqn:Em; [reflexivity|].
        cbn [negb andb]. apply (Hnoparent c Hc). now apply mem_false.
Qed.

Lemma for_each_tree_inv (f : bool) (rest : list ref) :
  forall (st st' : pass_state) (h h' : heap) (done : list ref),
    path_ready h st ->
    tree_inv h st done ->
    NoDup (done ++ rest) ->
    for_each f rest st h = (h', Ok st') ->
    tree_inv h' st' (done ++ rest).
Proof.
  induction rest as [|obj rest IH]; intros st st' h h' done Hr Hinv Hnd Hfe.
  - cbn in Hfe. inversion Hfe; subst. now rewrite app_nil_r.
  - cbn [for_each] in Hfe.
    destruct (visit f obj st h) as [h1 [st1|e]] eqn:Hv; [|discriminate].
    assert (Hobj : ~ In obj done).
    { apply NoDup_remove_2 in Hnd. intros Hin. apply Hnd.
      apply in_or_app. now left. }
    destruct (visit_ready f obj st st1 h h1 Hr Hv) as (Hr1 & _ & _).
    pose proof (visit_tree_inv f obj st st1 h h1 done Hobj Hr Hinv Hv) as Hinv1.
    replace (done ++ obj :: rest) with ((done ++ [obj]) ++ rest)
      by (now rewrite <- app_assoc).
    apply (IH st1 st' h1 h'); try assumption.
    now rewrite <- app_assoc.
Qed.

Lemma tree_inv_init (h : heap) : tree_inv h pass_init [].
Proof.
  repeat split; try (intros x []); try apply incl_refl.
Qed.

Lemma get_cached_trees_tree_inv (qs : queryset) (h : heap) (top : list ref) :
  NoDup (items qs) ->
  snd (get_cached_trees qs h) = Ok top ->
  exists st,
    tree_inv (fst (get_cached_trees qs h)) st (items qs)
    /\ top_nodes st = top.
Proof.
  intros Hnd Hg. unfold get_cached_trees in *.
  destruct (items qs) as [|first rest] eqn:Ei.
  { cbn in *. inversion Hg; subst. exists pass_init.
    split; [apply tree_inv_init | reflexivity]. }
  destruct (for_each (is_filtered_of qs) (first :: rest) pass_init h)
    as [h' [st'|e]] eqn:Hfe; cbn [fst snd] in *; inversion Hg; subst top.
  exists st'. split; [|reflexivity].
  apply (for_each_tree_inv (is_filtered_of qs) (first :: rest)
           pass_init st' h h' [] (path_ready_init h) (tree_inv_init h) Hnd Hfe).
Qed.

(** X13: after a completed pass over pairwise distinct nodes, the
    children list of every input node holds exactly the input nodes
    that are not roots and have it as parent, in input order. *)
Theorem children_lists_mirror_parents (qs : queryset) (h : heap)
    (top : list ref) :
  NoDup (items qs) ->
  snd (get_cached_trees qs h) = Ok top ->
  forall p,
    In p (items qs) ->
    _cached_children (fst (get_cached_trees qs h) p)
    = Some (filter (fun c => negb (mem c top)
                             && parent_is (fst (get_cached_trees qs h)) c p)
              (items qs)).
Proof.
  intros Hnd Hg p Hp.
  destruct (get_cached_trees_tree_inv qs h top Hnd Hg)
    as (st & (_ & _ & _ & Hch) & <-).
  exact (Hch p Hp).
Qed.

Lemma children_lists_mirror_parents_witness :
  NoDup (items (plain_list 5))
  /\ snd (get_cached_trees (plain_list 5) (heap_of_levels [0; 1; 2; 1; 0]%Z))
     = Ok [0; 4]%nat
  /\ forall p,
       In p (items (plain_list 5)) ->
       _cached_children
         (fst (get_cached_trees (plain_list 5)
                 (heap_of_levels [0; 1; 2; 1; 0]%Z)) p)
       = Some (filter
                 (fun c =>
                    negb (mem c [0; 4]%nat)
                    && parent_is
                         (fst (get_cached_trees (plain_list 5)
                                 (heap_of_levels [0; 1; 2; 1; 0]%Z))) c p)
                 (items (plain_list 5))).
Proof.
  assert (H1 : NoDup (items (plain_list 5))) by (apply seq_NoDup).
  assert (H2 : snd (get_cached_trees (plain_list 5)
                      (heap_of_levels [0; 1; 2; 1; 0]%Z))
               = Ok [0; 4]%nat) by (vm_compute; reflexivity).
  split; [exact H1|]. split; [exact H2|].
  exact (children_lists_mirror_parents (plain_list 5)
           (heap_of_levels [0; 1; 2; 1; 0]%Z) [0; 4]%nat H1 H2).
Defined.

(** X14 (invariant I2): after a completed pass over pairwise distinct
    nodes, every input node is either a root, and then in no children
    list of an input node, or it has an input node as parent and occurs
    in the children list of that node, once, and in no other. *)
Theorem node_in_one_place (qs : queryset) (h : heap) (top : list ref) :
  NoDup (items qs) ->
  snd (get_cached_trees qs h) = Ok top ->
  let h' := fst (get_cached_trees qs h) in
  (forall c, In c (items qs) ->
             In c top
             \/ exists p, parent (h' c) = Some p /\ In p (items qs))
  /\ (forall p c cs,
        In p (items qs) ->
        _cached_children (h' p) = Some cs ->
        NoDup cs
        /\ (In c cs
            <-> In c (items qs) /\ ~ In c top /\ parent (h' c) = Some p)).
Proof.
  intros Hnd Hg h'.
  destruct (get_cached_trees_tree_inv qs h top Hnd Hg)
    as (st & (_ & _ & Hpar & Hch) & <-).
  fold h' in Hpar, Hch. split.
  - intros c Hc. destruct (mem c (top_nodes st)) eqn:Em.
    + left. now apply mem_In.
    + right. apply Hpar; [exact Hc | now apply mem_false].
  - intros p c cs Hp Hcs. rewrite (Hch p Hp) in Hcs.
    inversion Hcs; subst cs; clear Hcs. unfold children_by_parent. split.
    + now apply NoDup_filter.
    + rewrite filter_In, andb_true_iff, negb_true_iff, mem_false.
      unfold parent_is. destruct (parent (h' c)) as [q|].
      * rewrite Nat.eqb_eq. split; [intros (? & ? & ->) | intros (? & ? & E)];
          [tauto | inversion E; tauto].
      * split; [intros (_ & _ & E) | intros (_ & _ & E)]; discriminate.
Qed.

Lemma node_in_one_place_witness :
  NoDup (items (plain_list 5))
  /\ snd (get_cached_trees (plain_list 5) (heap_of_levels [0; 1; 2; 1; 0]%Z))
     = Ok [0; 4]%nat
  /\ forall c,
       In c (items (plain_list 5)) ->
       In c [0; 4]%nat
       \/ exists p,
            parent (fst (get_cached_trees (plain_list 5)
                           (heap_of_levels [0; 1; 2; 1; 0]%Z)) c) = Some p
            /\ In p (items (plain_list 5)).
Proof.
  assert (H1 : NoDup (items (plain_list 5))) by (apply seq_NoDup).
  assert (H2 : snd (get_cached_trees (plain_list 5)
                      (heap_of_levels [0; 1; 2; 1; 0]%Z))
               = Ok [0; 4]%nat) by (vm_compute; reflexivity).
  split; [exact H1|]. split; [exact H2|].
  exact (proj1 (node_in_one_place (plain_list 5)
                  (heap_of_levels [0; 1; 2; 1; 0]%Z) [0; 4]%nat H1 H2)).
Defined.

(** ** More on the reconstruction pass: which node becomes the parent *)

Lemma nearest_at_ext (h h' : heap) (l : list ref) (z : Z) :
  (forall r, level (h' r) = level (h r)) ->
  nearest_at h' l z = nearest_at h l z.
Proof.
  intros Hl. unfold nearest_at. induction l as [|x l IH]; [reflexivity|].
  cbn [find]. now rewrite Hl, IH.
Qed.

Lemma nearest_at_level (h : heap) (l : list ref) (z : Z) (q : ref) :
  nearest_at h l z = Some q -> In q l /\ level (h q) = z.
Proof.
  unfold nearest_at. intros H. apply find_some in H.
  destruct H as [Hin E]. split; [exact Hin | now apply Z.eqb_eq].
Qed.

Lemma path_levels_below (h : heap) (path : list ref) :
  forall (top : Z) (q : ref),
    path_levels h path top -> In q path -> (level (h q) <= top)%Z.
Proof.
  induction path as [|x rest IH]; intros top q H Hin; [destruct Hin|].
  destruct H as [Hx Hrest]. destruct Hin as [<-|Hin]; [lia|].
  specialize (IH _ q Hrest Hin). lia.
Qed.

Lemma snoc_decomp {A : Type} (done pre post : list A) (obj r : A) :
  done ++ [obj] = pre ++ r :: post ->
  (pre = done /\ r = obj /\ post = [])
  \/ exists post', post = post' ++ [obj] /\ done = pre ++ r :: post'.
Proof.
  intros E. destruct post as [|y post0].
  - left. apply app_inj_tail in E. destruct E as [-> ->]. repeat split.
  - right.
    destruct (@exists_last A (y :: post0)) as (post' & x & E');
      [discriminate|].
    rewrite E' in E. exists post'.
    replace (pre ++ r :: post' ++ [x]) with ((pre ++ r :: post') ++ [x]) in E
      by (now rewrite <- app_assoc).
    apply app_inj_tail in E. destruct E as [Ed Ex]. subst x.
    split; [exact E' | exact Ed].
Qed.

Lemma visit_near_inv (f : bool) (obj : ref) (st st' : pass_state)
    (h h' : heap) (done rest : list ref) :
  ~ In obj done ->
  path_ready h st ->
  path_inv h st ->
  level_step_ok (step_levels h st (obj :: rest)) ->
  near_inv h st done ->
  visit f obj st h = (h', Ok st') ->
  near_inv h' st' (done ++ [obj]).
Proof.
  intros Hobj Hr Hinv Hstep (Hpath & Hpar) Hv.
  destruct (visit_linked f obj st st' h h' rest Hr Hinv Hstep Hv)
    as (Hinv' & _ & _ & _ & _).
  assert (Hlev : forall r, level (h' r) = level (h r)).
  { intros r. pose proof (visit_level f obj st h r) as E.
    now rewrite Hv in E. }
  destruct (choose_root_level f (root_level st) (level (h obj)))
    as [root|e] eqn:Hch.
  2:{ unfold visit, get_level in Hv. rewrite Hch in Hv. discriminate. }
  assert (Hold : forall pre r post,
             done = pre ++ r :: post ->
             ~ In r (top_nodes st) ->
             parent (h' r) = parent (h r) ->
             exists p,
               parent (h' r) = Some p
               /\ nearest_at h' (rev pre) (level (h' r) - 1)%Z = Some p).
  { intros pre r post E Hn Hp. destruct (Hpar pre r post E Hn) as (p & H1 & H2).
    exists p. rewrite Hp, Hlev, (nearest_at_ext h h') by exact Hlev.
    split; assumption. }
  destruct (visit_spec f obj st h root Hch Hr)
    as [[_ E]|[_ (p0 & path' & cs & Es & Ec & E)]];
    rewrite E in Hv; inversion Hv; subst h' st'; clear Hv;
    unfold near_inv; cbn [top_nodes current_path]; rewrite rev_app_distr;
    cbn [rev app].
  - split.
    + intros q [<-|[]]. unfold nearest_at. cbn [find].
      now rewrite Z.eqb_refl.
    + intros pre r post Ed Hn.
      destruct (snoc_decomp _ _ _ _ _ Ed) as [(-> & -> & ->)|(post' & -> & E')].
      * exfalso. apply Hn. apply in_or_app. right. now left.
      * apply (Hold pre r post' E').
        -- intros Hin. apply Hn. apply in_or_app. now left.
        -- apply parent_set_cached_children.
  - set (h' := link h obj p0 cs root) in *.
    unfold path_inv in Hinv'. cbn [root_level current_path] in Hinv'.
    destruct Hinv' as [_ [Hlobj Hbelow]].
    assert (Hp0 : level (h' p0) = (level (h' obj) - 1)%Z).
    { destruct Hbelow as [Hp0 _]. lia. }
    assert (Hkept : forall q, In q (p0 :: path') ->
                              (level (h' q) < level (h' obj))%Z).
    { intros q Hq. pose proof (path_levels_below h' _ _ q Hbelow Hq). lia. }
    assert (Hin_old : forall q, In q (p0 :: path') -> In q (current_path st)).
    { intros q Hq. eapply skipn_incl. rewrite Es. exact Hq. }
    split.
    + intros q [<-|Hq]; unfold nearest_at; cbn [find].
      * now rewrite Z.eqb_refl.
      * specialize (Hkept q Hq).
        destruct (Z.eqb_spec (level (h' obj)) (level (h' q))); [lia|].
        fold (nearest_at h' (rev done) (level (h' q))).
        rewrite (nearest_at_ext h h') by exact Hlev. rewrite Hlev.
        apply Hpath. now apply Hin_old.
    + intros pre r post Ed Hn.
      destruct (snoc_decomp _ _ _ _ _ Ed) as [(-> & -> & ->)|(post' & -> & E')].
      * exists p0. split; [apply parent_link_eq|].
        rewrite <- Hp0. rewrite (nearest_at_ext h h') by exact Hlev.
        rewrite Hlev. apply Hpath. apply Hin_old. now left.
      * apply (Hold pre r post' E' Hn).
        apply parent_link_neq.
        intros ->. apply Hobj. rewrite E'. apply in_or_app. right. now left.
Qed.

Lemma for_each_near_inv (f : bool) (rest : list ref) :
  forall (st st' : pass_state) (h h' : heap) (done : list ref),
    path_ready h st ->
    path_inv h st ->
    level_step_ok (step_levels h st rest) ->
    near_inv h st done ->
    NoDup (done ++ rest) ->
    for_each f rest st h = (h', Ok st') ->
    near_inv h' st' (done ++ rest).
Proof.
  induction rest as [|obj rest IH];
    intros st st' h h' done Hr Hinv Hstep Hnear Hnd Hfe.
  - cbn in Hfe. inversion Hfe; subst. now rewrite app_nil_r.
  - cbn [for_each] in Hfe.
    destruct (visit f obj st h) as [h1 [st1|e]] eqn:Hv; [|discriminate].
    assert (Hobj : ~ In obj done).
    { apply NoDup_remove_2 in Hnd. intros Hin. apply Hnd.
      apply in_or_app. now left. }
    destruct (visit_linked f obj st st1 h h1 rest Hr Hinv Hstep Hv)
      as (Hinv1 & _ & _ & _ & Hstep1).
    destruct (visit_ready f obj st st1 h h1 Hr Hv) as (Hr1 & _ & _).
    pose proof (visit_near_inv f obj st st1 h h1 done rest Hobj Hr Hinv Hstep
                  Hnear Hv) as Hnear1.
    replace (done ++ obj :: rest) with ((done ++ [obj]) ++ rest)
      by (now rewrite <- app_assoc).
    apply (IH st1 st' h1 h'); try assumption.
    now rewrite <- app_assoc.
Qed.

Lemma get_cached_trees_parent_nearest (qs : queryset) (h : heap)
    (top : list ref) :
  NoDup (items qs) ->
  level_step_ok (levels h (items qs)) ->
  snd (get_cached_trees qs h) = Ok top ->
  forall pre r post,
    items qs = pre ++ r :: post ->
    ~ In r top ->
    exists p,
      parent (fst (get_cached_trees qs h) r) = Some p
      /\ nearest_at h (rev pre) (level (h r) - 1)%Z = Some p.
Proof.
  intros Hnd Hstep Hg pre r post Ei Hn. unfold get_cached_trees in *.
  destruct (items qs) as [|first rest] eqn:Eq.
  { destruct pre; discriminate. }
  destruct (for_each (is_filtered_of qs) (first :: rest) pass_init h)
    as [h' [st'|e]] eqn:Hfe; cbn [fst snd] in *; inversion Hg; subst top.
  assert (Hnear : near_inv h' st' ([] ++ first :: rest)).
  { apply (for_each_near_inv (is_filtered_of qs) (first :: rest)
             pass_init st' h h' []); try assumption.
    - apply path_ready_init.
    - reflexivity.
    - split; [intros q [] | intros pre' r' post' E; destruct pre'; discriminate]. }
  destruct Hnear as [_ Hpar]. cbn [app] in Hpar.
  destruct (Hpar pre r post Ei Hn) as (p & H1 & H2).
  assert (Hlev : forall x, level (h' x) = level (h x)).
  { intros x. pose proof (for_each_level (is_filtered_of qs) (first :: rest)
                            pass_init h x) as E.
    now rewrite Hfe in E. }
  exists p. rewrite Hlev, (nearest_at_ext h h') in H2 by exact Hlev.
  split; assumption.
Qed.

(** X15: after a completed pass over pairwise distinct nodes whose
    levels grow by at most one from a node to the next, the parent of
    every node that is not a root is the most recent earlier node at the
    level just above. *)
Theorem parent_is_nearest_shallower (qs : queryset) (h : heap)
    (top : list ref) :
  NoDup (items qs) ->
  level_step_ok (levels h (items qs)) ->
  snd (get_cached_trees qs h) = Ok top ->
  forall pre r post,
    items qs = pre ++ r :: post ->
    ~ In r top ->
    exists p,
      parent (fst (get_cached_trees qs h) r) = Some p
      /\ nearest_at h (rev pre) (level (h r) - 1)%Z = Some p.
Proof. exact (get_cached_trees_parent_nearest qs h top). Qed.

Lemma parent_is_nearest_shallower_witness :
  NoDup (items (plain_list 5))
  /\ level_step_ok
       (levels (heap_of_levels [0; 1; 2; 1; 0]%Z) (items (plain_list 5)))
  /\ snd (get_cached_trees (plain_list 5) (heap_of_levels [0; 1; 2; 1; 0]%Z))
     = Ok [0; 4]%nat
  /\ items (plain_list 5) = [0; 1; 2]%nat ++ 3%nat :: [4%nat]
  /\ ~ In 3%nat [0; 4]%nat
  /\ exists p,
       parent (fst (get_cached_trees (plain_list 5)
                      (heap_of_levels [0; 1; 2; 1; 0]%Z)) 3%nat) = Some p
       /\ nearest_at (heap_of_levels [0; 1; 2; 1; 0]%Z) (rev [0; 1; 2]%nat)
            (level (heap_of_levels [0; 1; 2; 1; 0]%Z 3%nat) - 1)%Z = Some p.
Proof.
  assert (H1 : NoDup (items (plain_list 5))) by (apply seq_NoDup).
  assert (H2 : level_step_ok
                 (levels (heap_of_levels [0; 1; 2; 1; 0]%Z)
                    (items (plain_list 5)))) by (cbn; lia).
  assert (H3 : snd (get_cached_trees (plain_list 5)
                      (heap_of_levels [0; 1; 2; 1; 0]%Z))
               = Ok [0; 4]%nat) by (vm_compute; reflexivity).
  assert (H4 : items (plain_list 5) = [0; 1; 2]%nat ++ 3%nat :: [4%nat])
    by reflexivity.
  assert (H5 : ~ In 3%nat [0; 4]%nat) by (cbn; lia).
  repeat (split; [assumption|]).
  exact (parent_is_nearest_shallower (plain_list 5)
           (heap_of_levels [0; 1; 2; 1; 0]%Z) [0; 4]%nat H1 H2 H3
           [0; 1; 2]%nat 3%nat [4%nat] H4 H5).
Defined.

(** ** The annotator and the reconstruction pass agree *)

Lemma get_cached_trees_roots (qs : queryset) (h : heap) (top : list ref) :
  snd (get_cached_trees qs h) = Ok top ->
  top = prefix_minima h None (items qs).
Proof.
  intros Hg. unfold get_cached_trees in Hg.
  destruct (items qs) as [|first rest] eqn:Ei.
  { cbn in Hg. now inversion Hg. }
  destruct (for_each (is_filtered_of qs) (first :: rest) pass_init h)
    as [h' [st'|e]] eqn:Hfe; cbn [snd] in Hg; inversion Hg; subst top.
  apply (for_each_roots _ _ _ _ _ _ (path_ready_init h) Hfe).
Qed.

Lemma NoDup_decomp_unique {A : Type} (pre pre' post post' : list A) (x : A) :
  NoDup (pre ++ x :: post) ->
  pre ++ x :: post = pre' ++ x :: post' ->
  pre = pre'.
Proof.
  revert pre'. induction pre as [|a pre IH]; intros pre' Hnd E.
  - destruct pre' as [|b pre']; [reflexivity|]. exfalso.
    cbn in E. inversion E; subst. inversion Hnd as [|? ? Hnot _]; subst.
    apply Hnot. apply in_or_app. right. now left.
  - destruct pre' as [|b pre'].
    + exfalso. cbn in E. inversion E; subst.
      inversion Hnd as [|? ? Hnot _]; subst.
      apply Hnot. apply in_or_app. right. now left.
    + cbn in E. inversion E; subst. f_equal.
      apply IH; [now inversion Hnd | assumption].
Qed.

Lemma level_step_ok_middle (h : heap) (pre : list ref) (a b : ref)
    (post : list ref) :
  level_step_ok (levels h (pre ++ a :: b :: post)) ->
  (level (h b) <= level (h a) + 1)%Z.
Proof.
  induction pre as [|x pre IH]; intros H.
  - cbn in H. unfold get_level in H. lia.
  - apply IH. eapply level_step_ok_tail. exact H.
Qed.

Lemma tree_item_iterator_new_level {label : Type} (h : heap)
    (callback : ref -> label) (b : bool) (nodes : list ref)
    (frames : list (ref * structure label)) (i : nat) (prev cur : ref)
    (fr : structure label) :
  tree_item_iterator h callback b nodes = Ok frames ->
  nth_error nodes i = Some prev ->
  nth_error frames (S i) = Some (cur, fr) ->
  new_level fr = Some (level (h prev) <? level (h cur))%Z.
Proof.
  intros Hf Hp Hn.
  destruct (tree_item_iterator_shape h callback b nodes) as (frames' & Hf' & Hs).
  rewrite Hf in Hf'. inversion Hf'; subst frames'.
  destruct (shape_nth _ _ _ _ _ Hs Hn) as (nl & cl & Ha & Hnl & _).
  apply annotation_nth_new_level in Ha. rewrite Hp in Ha.
  now rewrite Hnl, Ha.
Qed.

(** X16: on pairwise distinct nodes whose levels grow by at most one
    per step, the annotator and the reconstruction pass agree on where a
    level opens: a node that has a predecessor gets [new_level] true
    exactly when the pass makes it a non-root node with that
    predecessor as parent. *)
Theorem new_level_iff_parent_is_previous {label : Type} (qs : queryset)
    (h : heap) (top : list ref) (callback : ref -> label) (b : bool)
    (frames : list (ref * structure label)) (pre : list ref) (prev r : ref)
    (post : list ref) (fr : structure label) :
  NoDup (items qs) ->
  level_step_ok (levels h (items qs)) ->
  snd (get_cached_trees qs h) = Ok top ->
  tree_item_iterator h callback b (items qs) = Ok frames ->
  items qs = pre ++ prev :: r :: post ->
  nth_error frames (S (length pre)) = Some (r, fr) ->
  new_level fr = Some true
  <-> ~ In r top /\ parent (fst (get_cached_trees qs h) r) = Some prev.
Proof.
  intros Hnd Hstep Hg Hf Ei Hn.
  assert (Hprev : nth_error (items qs) (length pre) = Some prev).
  { rewrite Ei, nth_error_app2 by lia. now rewrite Nat.sub_diag. }
  rewrite (tree_item_iterator_new_level h callback b (items qs) frames
             (length pre) prev r fr Hf Hprev Hn).
  assert (Ei' : items qs = (pre ++ [prev]) ++ r :: post)
    by (now rewrite <- app_assoc).
  assert (Hadj : (level (h r) <= level (h prev) + 1)%Z).
  { apply (level_step_ok_middle h pre prev r post). now rewrite <- Ei. }
  split.
  - intros E. inversion E as [Hlt]. apply Z.ltb_lt in Hlt.
    assert (Hnot : ~ In r top).
    { intros Hin. rewrite (get_cached_trees_roots qs h top Hg) in Hin.
      apply prefix_minima_In in Hin.
      destruct Hin as (pre' & post' & E' & Hall & _).
      rewrite Ei' in E', Hnd.
      apply (NoDup_decomp_unique _ _ _ _ _ Hnd) in E'. subst pre'.
      rewrite Forall_forall in Hall.
      specialize (Hall prev ltac:(apply in_or_app; right; now left)). lia. }
    split; [exact Hnot|].
    destruct (get_cached_trees_parent_nearest qs h top Hnd Hstep Hg
                (pre ++ [prev]) r post Ei' Hnot) as (p & Hp & Hnear).
    rewrite Hp. f_equal. rewrite rev_app_distr in Hnear.
    unfold nearest_at in Hnear. cbn [rev app find] in Hnear.
    destruct (Z.eqb_spec (level (h prev)) (level (h r) - 1)); [|lia].
    now inversion Hnear.
  - intros (Hnot & Hp).
    destruct (get_cached_trees_parent_nearest qs h top Hnd Hstep Hg
                (pre ++ [prev]) r post Ei' Hnot) as (p & Hp' & Hnear).
    rewrite Hp in Hp'. inversion Hp'; subst p.
    apply nearest_at_level in Hnear. destruct Hnear as [_ Hl].
    f_equal. apply Z.ltb_lt. lia.
Qed.

Lemma new_level_iff_parent_is_previous_witness :
  NoDup (items (plain_list 5))
  /\ level_step_ok
       (levels (heap_of_levels [0; 1; 2; 1; 0]%Z) (items (plain_list 5)))
  /\ snd (get_cached_trees (plain_list 5) (heap_of_levels [0; 1; 2; 1; 0]%Z))
     = Ok [0; 4]%nat
  /\ (Some true = Some true
      <-> ~ In 2%nat [0; 4]%nat
          /\ parent (fst (get_cached_trees (plain_list 5)
                            (heap_of_levels [0; 1; 2; 1; 0]%Z)) 2%nat)
             = Some 1%nat).
Proof.
  assert (H1 : NoDup (items (plain_list 5))) by (apply seq_NoDup).
  assert (H2 : level_step_ok
                 (levels (heap_of_levels [0; 1; 2; 1; 0]%Z)
                    (items (plain_list 5)))) by (cbn; lia).
  assert (H3 : snd (get_cached_trees (plain_list 5)
                      (heap_of_levels [0; 1; 2; 1; 0]%Z))
               = Ok [0; 4]%nat) by (vm_compute; reflexivity).
  repeat (split; [assumption|]).
  exact (new_level_iff_parent_is_previous (plain_list 5)
           (heap_of_levels [0; 1; 2; 1; 0]%Z) [0; 4]%nat (fun r => r) true
           _ [0%nat] 1%nat 2%nat [3; 4]%nat
           (mk_structure (Some true) (Some [2%Z]) (Some [0; 1]%nat))
           H1 H2 H3 tree_item_iterator_scenario eq_refl eq_refl).
Defined.

Lemma never_below_first_In (h : heap) (nodes : list ref) (r : ref) :
  never_below_first (levels h nodes) ->
  In r nodes ->
  (first_level_of h nodes <= level (h r))%Z.
Proof.
  destruct nodes as [|f0 l0]; intros Hb Hin; [destruct Hin|].
  unfold never_below_first, levels in Hb. cbn [map] in Hb.
  rewrite Forall_forall in Hb. cbn [first_level_of].
  apply (Hb (get_level h r)).
  change (get_level h f0 :: map (get_level h) l0)
    with (map (get_level h) (f0 :: l0)).
  now apply in_map.
Qed.

(** X17: on a depth-first consistent input of pairwise distinct nodes,
    the ancestors list the annotator yields with a node is empty when
    the node is at the level of the first node, and otherwise ends with
    the label of the parent that the reconstruction pass gives to that
    node. *)
Theorem last_ancestor_is_parent {label : Type} (qs : queryset) (h : heap)
    (top : list ref) (callback : ref -> label)
    (frames : list (ref * structure label)) (i : nat) (r : ref)
    (fr : structure label) (anc : list label) :
  NoDup (items qs) ->
  depth_first_consistent (levels h (items qs)) ->
  snd (get_cached_trees qs h) = Ok top ->
  tree_item_iterator h callback true (items qs) = Ok frames ->
  nth_error frames i = Some (r, fr) ->
  ancestors fr = Some anc ->
  (level (h r) = first_level_of h (items qs) -> anc = [])
  /\ (level (h r) <> first_level_of h (items qs) ->
      exists p,
        parent (fst (get_cached_trees qs h) r) = Some p
        /\ nth_error anc (length anc - 1) = Some (callback p)).
Proof.
  intros Hnd Hdfc Hg Hf Hn Hanc.
  destruct (tree_item_iterator_nearest h callback (items qs) frames Hdfc Hf
              i r fr Hn) as (anc' & Ha & Hlen & Hlab).
  rewrite Hanc in Ha. inversion Ha; subst anc'; clear Ha.
  assert (Hr : nth_error (items qs) i = Some r).
  { destruct (tree_item_iterator_shape h callback true (items qs))
      as (frames' & Hf' & Hs).
    rewrite Hf in Hf'. inversion Hf'; subst frames'.
    rewrite <- (annotation_nodes h (first_level_of h (items qs)) (items qs)
                  None), <- (shape_nodes _ _ Hs).
    rewrite nth_error_map, Hn. reflexivity. }
  split.
  { intros E. destruct anc; [reflexivity | cbn [length] in Hlen; lia]. }
  intros Hne.
  destruct (nth_error_split _ _ Hr) as (pre & post & Ei & Hpre).
  assert (Hfirstn : firstn i (items qs) = pre).
  { rewrite Ei, <- Hpre, firstn_app, Nat.sub_diag, firstn_all. cbn.
    apply app_nil_r. }
  destruct Hdfc as [Hstep Hbelow].
  assert (Hge : (first_level_of h (items qs) <= level (h r))%Z).
  { apply never_below_first_In; [exact Hbelow|].
    rewrite Ei. apply in_or_app. right. now left. }
  assert (Hnot : ~ In r top).
  { intros Hin. rewrite (get_cached_trees_roots qs h top Hg) in Hin.
    apply prefix_minima_In in Hin.
    destruct Hin as (pre' & post' & E' & Hall & _).
    destruct (items qs) as [|f0 l0] eqn:El; [destruct pre; discriminate|].
    cbn [first_level_of] in *. destruct pre' as [|x pre'].
    - inversion E'; subst. now apply Hne.
    - inversion E'; subst. inversion Hall; subst. lia. }
  destruct (get_cached_trees_parent_nearest qs h top Hnd Hstep Hg
              pre r post Ei Hnot) as (p & Hp & Hnear).
  exists p. split; [exact Hp|].
  destruct (nth_error anc (length anc - 1)) as [lbl|] eqn:El.
  - destruct (Hlab _ _ El) as (q & Hq & ->).
    rewrite Hfirstn in Hq.
    replace (first_level_of h (items qs) + Z.of_nat (length anc - 1))%Z
      with (level (h r) - 1)%Z in Hq by lia.
    congruence.
  - apply nth_error_None in El. lia.
Qed.

Lemma last_ancestor_is_parent_witness :
  NoDup (items (plain_list 5))
  /\ depth_first_consistent
       (levels (heap_of_levels [0; 1; 2; 1; 0]%Z) (items (plain_list 5)))
  /\ snd (get_cached_trees (plain_list 5) (heap_of_levels [0; 1; 2; 1; 0]%Z))
     = Ok [0; 4]%nat
  /\ exists p,
       parent (fst (get_cached_trees (plain_list 5)
                      (heap_of_levels [0; 1; 2; 1; 0]%Z)) 2%nat) = Some p
       /\ nth_error [0; 1]%nat (length [0; 1]%nat - 1) = Some p.
Proof.
  assert (H1 : NoDup (items (plain_list 5))) by (apply seq_NoDup).
  assert (H2 : depth_first_consistent
                 (levels (heap_of_levels [0; 1; 2; 1; 0]%Z)
                    (items (plain_list 5)))).
  { split; cbn; [lia | repeat constructor; lia]. }
  assert (H3 : snd (get_cached_trees (plain_list 5)
                      (heap_of_levels [0; 1; 2; 1; 0]%Z))
               = Ok [0; 4]%nat) by (vm_compute; reflexivity).
  repeat (split; [assumption|]).
  apply (proj2 (last_ancestor_is_parent (plain_list 5)
                  (heap_of_levels [0; 1; 2; 1; 0]%Z) [0; 4]%nat (fun r => r)
                  _ 2%nat 2%nat
                  (mk_structure (Some true) (Some [2%Z]) (Some [0; 1]%nat))
                  [0; 1]%nat H1 H2 H3 tree_item_iterator_scenario
                  eq_refl eq_refl)).
  cbn. discriminate.
Defined.

(** ** clean_tree_ids *)

Lemma remove_dashes_no_dash (s : string) :
  ~ In "-"%char (list_ascii_of_string (remove_dashes s)).
Proof.
  induction s as [|c s IH]; [intros []|].
  cbn [remove_dashes]. destruct (Ascii.eqb_spec c "-"%char) as [->|Hne].
  - exact IH.
  - cbn [list_ascii_of_string]. intros [E|Hin]; [now apply Hne | now apply IH].
Qed.

Section CleanTreeIdsFacts.

Context {T : Type}.
Variable smart_str : T -> string.
Variable truthy : T -> bool.
Variable vendor : option string.



Lemma add_cleaned_ids (results : cleaned T) (c : cleaned_id T) :
  incl (ids_of (add_cleaned truthy results c)) (ids_of results ++ [c]).
Proof.
  unfold add_cleaned. destruct (negb (truthy_results truthy results)).
  - cbn. intros x [<-|[]]. apply in_or_app. right. now left.
  - destruct results as [r|l]; cbn; apply incl_refl.
Qed.

Lemma fold_add_cleaned_ids (rest : list T) :
  forall results : cleaned T,
    incl
      (ids_of
         (fold_left
            (fun results tree_id =>
               add_cleaned truthy results
                 (_clean_tree_id smart_str tree_id vendor))
            rest results))
      (ids_of results
       ++ map (fun t => _clean_tree_id smart_str t vendor) rest).
Proof.
  induction rest as [|t rest IH]; intros results.
  - cbn. rewrite app_nil_r. apply incl_refl.
  - cbn [fold_left map]. eapply incl_tran; [apply IH|].
    intros x Hx. apply in_app_or in Hx. destruct Hx as [Hx|Hx].
    + apply add_cleaned_ids in Hx. apply in_app_or in Hx.
      apply in_or_app. destruct Hx as [Hx|[<-|[]]]; [now left|].
      right. now left.
    + apply in_or_app. right. now right.
Qed.

(** X19: without root ordering and for a vendor other than
    "postgresql", every id that [clean_tree_ids] returns is the string
    of one of the ids it was given with the dashes removed, and holds
    no dash. *)
Theorem clean_tree_ids_no_dash (tree_ids : list T) :
  is_postgresql vendor = false ->
  exists results,
    clean_tree_ids smart_str truthy tree_ids false vendor = Ok results
    /\ forall c,
         In c (ids_of results) ->
         exists t s,
           In t tree_ids
           /\ s = remove_dashes (smart_str t)
           /\ c = Stripped s
           /\ ~ In "-"%char (list_ascii_of_string s).
Proof.
  intros Hv. unfold clean_tree_ids. eexists. split; [reflexivity|].
  intros c Hc. apply fold_add_cleaned_ids in Hc. cbn [ids_of app] in Hc.
  apply in_map_iff in Hc. destruct Hc as (t & <- & Ht).
  exists t, (remove_dashes (smart_str t)). split; [exact Ht|].
  split; [reflexivity|]. split.
  - unfold _clean_tree_id. now rewrite Hv.
  - apply remove_dashes_no_dash.
Qed.

(** X20: without root ordering, a first id whose cleaned form is falsy
    (such as "" or "-") is dropped as soon as another id follows: the
    result is that of the remaining ids. *)
Theorem clean_tree_ids_drops_falsy_first (t u : T) (rest : list T) :
  truthy_id truthy (_clean_tree_id smart_str t vendor) = false ->
  clean_tree_ids smart_str truthy (t :: u :: rest) false vendor
  = clean_tree_ids smart_str truthy (u :: rest) false vendor.
Proof.
  intros Hf. unfold clean_tree_ids. f_equal. cbn [fold_left]. f_equal.
  unfold add_cleaned. cbn [truthy_results negb]. now rewrite Hf.
Qed.

End CleanTreeIdsFacts.


Lemma clean_tree_ids_no_dash_witness :
  is_postgresql (Some "mysql"%string) = false
  /\ exists results,
       clean_tree_ids (fun s => s) (fun s => negb (String.eqb s EmptyString))
         ["a-b"%string; "c-d-e"%string] false (Some "mysql"%string)
       = Ok results
       /\ forall c,
            In c (ids_of results) ->
            exists t s,
              In t ["a-b"%string; "c-d-e"%string]
              /\ s = remove_dashes t
              /\ c = Stripped s
              /\ ~ In "-"%char (list_ascii_of_string s).
Proof.
  split; [reflexivity|].
  exact (clean_tree_ids_no_dash (fun s => s)
           (fun s => negb (String.eqb s EmptyString)) (Some "mysql"%string)
           ["a-b"%string; "c-d-e"%string] eq_refl).
Defined.

Lemma clean_tree_ids_drops_falsy_first_witness :
  truthy_id (fun s => negb (String.eqb s EmptyString))
    (_clean_tree_id (fun s => s) "-"%string None) = false
  /\ clean_tree_ids (fun s => s) (fun s => negb (String.eqb s EmptyString))
       ["-"%string; "a-b"%string; "c"%string] false None
     = clean_tree_ids (fun s => s) (fun s => negb (String.eqb s EmptyString))
         ["a-b"%string; "c"%string] false None.
Proof.
  split; [reflexivity|].
  exact (clean_tree_ids_drops_falsy_first (fun s => s)
           (fun s => negb (String.eqb s EmptyString)) None
           "-"%string "a-b"%string ["c"%string] eq_refl).
Defined.

(** ** _get_tree_model *)

Lemma scan_bases_find (bases : list py_class) :
  Forall has_meta bases ->
  scan_bases bases = Ok (find is_tree_model bases).
Proof.
  induction 1 as [|b rest Hb _ IH]; [reflexivity|].
  cbn [scan_bases find]. unfold is_tree_model, has_meta in *.
  destruct (hasattr_mptt_meta b); cbn [andb]; [|exact IH].
  destruct (_meta b) as [m|]; [|now elim Hb].
  destruct (negb (abstract m || proxy m)); [reflexivity | exact IH].
Qed.

Lemma find_first {A : Type} (f : A -> bool) (l : list A) (x : A) :
  find f l = Some x
  <-> exists l1 l2,
        l = l1 ++ x :: l2
        /\ Forall (fun y => f y = false) l1
        /\ f x = true.
Proof.
  induction l as [|a l IH].
  - split; [discriminate|]. intros (l1 & l2 & E & _). destruct l1; discriminate.
  - cbn [find]. destruct (f a) eqn:Ea.
    + split.
      * intros E; inversion E; subst. exists [], l. repeat split; auto.
      * intros (l1 & l2 & E & Hall & Hx). destruct l1 as [|b l1].
        -- now inversion E.
        -- inversion E; subst. inversion Hall; congruence.
    + rewrite IH. split.
      * intros (l1 & l2 & -> & Hall & Hx). exists (a :: l1), l2.
        repeat split; auto.
      * intros (l1 & l2 & E & Hall & Hx). destruct l1 as [|b l1].
        -- inversion E; congruence.
        -- inversion E; subst. inversion Hall; subst.
           exists l1, l2. repeat split; auto.
Qed.

Lemma find_none_iff {A : Type} (f : A -> bool) (l : list A) :
  find f l = None <-> Forall (fun y => f y = false) l.
Proof.
  split.
  - intros H. apply Forall_forall. now apply find_none.
  - induction 1 as [|a l Ha _ IH]; [reflexivity|].
    cbn [find]. now rewrite Ha.
Qed.

(** X21: when every class of the MRO that has [_mptt_meta] also has a
    [_meta], [_get_tree_model] does not raise and returns the last
    class of the MRO that has [_mptt_meta] and is neither abstract nor
    proxy: every class after it in the MRO fails that test. It returns
    [None] exactly when no class of the MRO passes it. *)
Theorem _get_tree_model_last (mro : list py_class) :
  Forall has_meta mro ->
  (forall b,
      _get_tree_model mro = Ok (Some b)
      <-> exists pre post,
            mro = pre ++ b :: post
            /\ is_tree_model b = true
            /\ Forall (fun c => is_tree_model c = false) post)
  /\ (_get_tree_model mro = Ok None
      <-> Forall (fun c => is_tree_model c = false) mro)
  /\ (exists res, _get_tree_model mro = Ok res).
Proof.
  intros Hall. unfold _get_tree_model.
  rewrite scan_bases_find by (apply Forall_rev; exact Hall).
  split; [|split].
  - intros b. split.
    + intros E. inversion E as [E']. apply find_first in E'.
      destruct E' as (l1 & l2 & Er & Hl1 & Hb).
      exists (rev l2), (rev l1). repeat split; [|exact Hb|].
      * rewrite <- (rev_involutive mro), Er, rev_app_distr. cbn [rev].
        now rewrite <- app_assoc.
      * apply Forall_rev. exact Hl1.
    + intros (pre & post & -> & Hb & Hpost). f_equal. apply find_first.
      exists (rev post), (rev pre). repeat split; [|now apply Forall_rev|exact Hb].
      rewrite rev_app_distr. cbn [rev]. now rewrite <- app_assoc.
  - split.
    + intros E. inversion E as [E']. apply find_none_iff in E'.
      rewrite <- (rev_involutive mro). now apply Forall_rev.
    + intros H. f_equal. apply find_none_iff. now apply Forall_rev.
  - eexists. reflexivity.
Qed.

Lemma _get_tree_model_last_witness :
  Forall has_meta example_mro
  /\ (_get_tree_model example_mro
      = Ok (Some (mk_class 1 true (Some (mk_meta false false))))
      <-> exists pre post,
            example_mro
            = pre ++ mk_class 1 true (Some (mk_meta false false)) :: post
            /\ is_tree_model (mk_class 1 true (Some (mk_meta false false)))
               = true
            /\ Forall (fun c => is_tree_model c = false) post).
Proof.
  assert (H : Forall has_meta example_mro).
  { repeat constructor; unfold has_meta; cbn; congruence. }
  split; [exact H|].
  exact (proj1 (_get_tree_model_last example_mro H)
           (mk_class 1 true (Some (mk_meta false false)))).
Defined.

(** X22: [_get_tree_model] raises [AttributeError] exactly when, going
    through the MRO from its end, it meets a class that has
    [_mptt_meta] and no [_meta] before any class it accepts; it raises
    nothing else. *)
Theorem _get_tree_model_raises (mro : list py_class) (e : exn) :
  _get_tree_model mro = Raise e
  <-> e = AttributeError
      /\ exists pre b post,
           mro = pre ++ b :: post
           /\ hasattr_mptt_meta b = true
           /\ _meta b = None
           /\ Forall (fun c => is_tree_model c = false) post
           /\ Forall has_meta post.
Proof.
  unfold _get_tree_model.
  assert (Hscan : forall bases,
             scan_bases bases = Raise e
             <-> e = AttributeError
                 /\ exists l1 b l2,
                      bases = l1 ++ b :: l2
                      /\ hasattr_mptt_meta b = true
                      /\ _meta b = None
                      /\ Forall (fun c => is_tree_model c = false) l1
                      /\ Forall has_meta l1).
  { induction bases as [|a bases IH].
    - cbn. split; [discriminate|].
      intros (_ & l1 & b & l2 & E & _). destruct l1; discriminate.
    - cbn [scan_bases].
      assert (Hskip : is_tree_model a = false -> has_meta a ->
                 (scan_bases bases = Raise e
                  <-> e = AttributeError
                      /\ exists l1 b l2,
                           a :: bases = l1 ++ b :: l2
                           /\ hasattr_mptt_meta b = true
                           /\ _meta b = None
                           /\ Forall (fun c => is_tree_model c = false) l1
                           /\ Forall has_meta l1)).
      { intros Ha Hm. rewrite IH. split.
        - intros (-> & l1 & b & l2 & -> & H1 & H2 & H3 & H4).
          split; [reflexivity|]. exists (a :: l1), b, l2.
          repeat split; auto.
        - intros (-> & l1 & b & l2 & E & H1 & H2 & H3 & H4).
          split; [reflexivity|]. destruct l1 as [|x l1].
          + inversion E; subst. exfalso. now apply Hm.
          + inversion E; subst. inversion H3; subst. inversion H4; subst.
            exists l1, b, l2. repeat split; auto. }
      destruct (hasattr_mptt_meta a) eqn:Eh.
      + destruct (_meta a) as [m|] eqn:Em.
        * destruct (negb (abstract m || proxy m)) eqn:En.
          -- split; [discriminate|].
             intros (_ & l1 & b & l2 & E & H1 & H2 & H3 & _).
             destruct l1 as [|x l1].
             ++ inversion E; subst. congruence.
             ++ inversion E; subst. inversion H3; subst.
                unfold is_tree_model in *. rewrite Eh, Em, En in *.
                discriminate.
          -- apply Hskip.
             ++ unfold is_tree_model. now rewrite Eh, Em, En.
             ++ unfold has_meta. rewrite Em. discriminate.
        * split.
          -- intros E; inversion E; subst. split; [reflexivity|].
             exists [], a, bases. repeat split; auto.
          -- intros (-> & _). reflexivity.
      + apply Hskip.
        * unfold is_tree_model. now rewrite Eh.
        * unfold has_meta. rewrite Eh. discriminate. }
  rewrite Hscan. split.
  - intros (-> & l1 & b & l2 & Er & H1 & H2 & H3 & H4).
    split; [reflexivity|]. exists (rev l2), b, (rev l1).
    repeat split; auto; try (now apply Forall_rev).
    rewrite <- (rev_involutive mro), Er, rev_app_distr. cbn [rev].
    now rewrite <- app_assoc.
  - intros (-> & pre & b & post & -> & H1 & H2 & H3 & H4).
    split; [reflexivity|]. exists (rev post), b, (rev pre).
    repeat split; auto; try (now apply Forall_rev).
    rewrite rev_app_distr. cbn [rev]. now rewrite <- app_assoc.
Qed.

(** ** The reconstruction depends on the levels only *)

(** Two runs of one step from the same pass state, on two stores that
    agree on the levels and on the children lists of the nodes visited
    so far, end alike and keep agreeing. *)
Lemma visit_sim (f : bool) (obj : ref) (st : pass_state) (h1 h2 : heap)
    (visited : list ref) :
  (forall r, level (h1 r) = level (h2 r)) ->
  path_ready h1 st ->
  path_ready h2 st ->
  incl (current_path st) visited ->
  (forall r, In r visited -> _cached_children (h1 r) = _cached_children (h2 r)) ->
  (forall r, In r visited -> ~ In r (top_nodes st) ->
             parent (h1 r) = parent (h2 r)) ->
  snd (visit f obj st h1) = snd (visit f obj st h2)
  /\ forall st', snd (visit f obj st h1) = Ok st' ->
       incl (current_path st') (obj :: visited)
       /\ (forall r, In r (obj :: visited) ->
                     _cached_children (fst (visit f obj st h1) r)
                     = _cached_children (fst (visit f obj st h2) r))
       /\ (forall r, In r (obj :: visited) -> ~ In r (top_nodes st') ->
                     parent (fst (visit f obj st h1) r)
                     = parent (fst (visit f obj st h2) r)).
Proof.
  intros Hlev Hr1 Hr2 Hpath Hch Hpar.
  destruct (choose_root_level f (root_level st) (level (h1 obj)))
    as [root|e] eqn:Hc1.
  2:{ rewrite (visit_raise f obj st h1 e Hc1).
      rewrite Hlev in Hc1. rewrite (visit_raise f obj st h2 e Hc1).
      split; [reflexivity | discriminate]. }
  assert (Hc2 : choose_root_level f (root_level st) (level (h2 obj)) = Ok root)
    by (now rewrite <- Hlev).
  destruct (visit_spec f obj st h1 root Hc1 Hr1)
    as [[Eroot E1]|[Hlt (p & path' & cs & Es & Ec & E1)]].
  - destruct (visit_spec f obj st h2 root Hc2 Hr2)
      as [[_ E2]|[Hlt2 _]]; [|rewrite <- Hlev in Hlt2; lia].
    rewrite E1, E2. cbn [fst snd]. split; [reflexivity|].
    intros st' E; inversion E; subst st'; clear E. cbn [current_path top_nodes].
    split; [|split].
    + intros x [<-|[]]. now left.
    + intros r [<-|Hin].
      * now rewrite !children_set_cached_children_eq.
      * destruct (Nat.eq_dec r obj) as [->|Hne].
        -- now rewrite !children_set_cached_children_eq.
        -- rewrite !children_set_cached_children_neq by assumption.
           now apply Hch.
    + intros r Hin Hnot. rewrite !parent_set_cached_children.
      destruct Hin as [<-|Hin].
      * exfalso. apply Hnot. apply in_or_app. right. now left.
      * apply Hpar; [exact Hin|]. intros Ht. apply Hnot.
        apply in_or_app. now left.
  - destruct (visit_spec f obj st h2 root Hc2 Hr2)
      as [[Eroot2 _]|[_ (p2 & path2 & cs2 & Es2 & Ec2 & E2)]];
      [rewrite <- Hlev in Eroot2; lia|].
    rewrite <- Hlev, Es in Es2. inversion Es2; subst p2 path2; clear Es2.
    assert (Hp : In p visited).
    { apply Hpath. eapply skipn_incl. rewrite Es. now left. }
    assert (cs2 = cs).
    { destruct (Nat.eq_dec p obj) as [->|Hne].
      - rewrite children_set_cached_children_eq in Ec, Ec2. congruence.
      - rewrite children_set_cached_children_neq in Ec, Ec2 by assumption.
        rewrite (Hch p Hp) in Ec. congruence. }
    subst cs2. rewrite E1, E2. cbn [fst snd]. split; [reflexivity|].
    intros st' E; inversion E; subst st'; clear E. cbn [current_path top_nodes].
    split; [|split].
    + intros x [<-|Hx]; [now left | right].
      apply Hpath. eapply skipn_incl. rewrite Es. exact Hx.
    + intros r Hin. destruct (Nat.eq_dec r p) as [->|Hrp].
      * now rewrite !children_link_parent.
      * destruct (Nat.eq_dec r obj) as [->|Hro].
        -- now rewrite !children_link_obj by congruence.
        -- rewrite !children_link_other by assumption.
           destruct Hin as [<-|Hin]; [now elim Hro | now apply Hch].
    + intros r Hin Hnot. destruct (Nat.eq_dec r obj) as [->|Hro].
      * now rewrite !parent_link_eq.
      * rewrite !parent_link_neq by assumption.
        destruct Hin as [<-|Hin]; [now elim Hro | now apply Hpar].
Qed.

Lemma for_each_sim (f : bool) (rest : list ref) :
  forall (st : pass_state) (h1 h2 : heap) (visited : list ref),
    (forall r, level (h1 r) = level (h2 r)) ->
    path_ready h1 st ->
    path_ready h2 st ->
    incl (current_path st) visited ->
    (forall r, In r visited ->
               _cached_children (h1 r) = _cached_children (h2 r)) ->
    (forall r, In r visited -> ~ In r (top_nodes st) ->
               parent (h1 r) = parent (h2 r)) ->
    snd (for_each f rest st h1) = snd (for_each f rest st h2)
    /\ forall st', snd (for_each f rest st h1) = Ok st' ->
         (forall r, In r rest \/ In r visited ->
                    _cached_children (fst (for_each f rest st h1) r)
                    = _cached_children (fst (for_each f rest st h2) r))
         /\ (forall r, In r rest \/ In r visited -> ~ In r (top_nodes st') ->
                       parent (fst (for_each f rest st h1) r)
                       = parent (fst (for_each f rest st h2) r)).
Proof.
  induction rest as [|obj rest IH];
    intros st h1 h2 visited Hlev Hr1 Hr2 Hpath Hch Hpar.
  - cbn. split; [reflexivity|]. intros st' E; inversion E; subst st'.
    split; [intros r [[]|Hin]; now apply Hch|].
    intros r [[]|Hin] Hnot. now apply Hpar.
  - cbn [for_each].
    destruct (visit_sim f obj st h1 h2 visited Hlev Hr1 Hr2 Hpath Hch Hpar)
      as [Hsame Hstep].
    pose proof (fun r => visit_level f obj st h1 r) as Hl1.
    pose proof (fun r => visit_level f obj st h2 r) as Hl2.
    destruct (visit f obj st h1) as [g1 [st1|e1]] eqn:Hv1;
      destruct (visit f obj st h2) as [g2 [st2|e2]] eqn:Hv2;
      cbn [fst snd] in *; try discriminate.
    + inversion Hsame; subst st2.
      destruct (Hstep st1 eq_refl) as (Hpath' & Hch' & Hpar').
      destruct (visit_ready f obj st st1 h1 g1 Hr1 Hv1) as (Hr1' & _ & _).
      destruct (visit_ready f obj st st1 h2 g2 Hr2 Hv2) as (Hr2' & _ & _).
      destruct (IH st1 g1 g2 (obj :: visited)) as [Hsnd Hrest]; try assumption.
      { intros r. now rewrite Hl1, Hl2. }
      split; [exact Hsnd|]. intros st' Hok.
      destruct (Hrest st' Hok) as [H1 H2]. split.
      * intros r Hin. apply H1. cbn [In] in *. tauto.
      * intros r Hin Hnot. apply H2; [cbn [In] in *; tauto | exact Hnot].
    + cbn. split; [exact Hsame | discriminate].
Qed.

Lemma get_cached_trees_sim (qs : queryset) (h1 h2 : heap) :
  (forall r, level (h1 r) = level (h2 r)) ->
  snd (get_cached_trees qs h1) = snd (get_cached_trees qs h2)
  /\ forall top,
       snd (get_cached_trees qs h1) = Ok top ->
       forall r,
         In r (items qs) ->
         _cached_children (fst (get_cached_trees qs h1) r)
         = _cached_children (fst (get_cached_trees qs h2) r)
         /\ (~ In r top ->
             parent (fst (get_cached_trees qs h1) r)
             = parent (fst (get_cached_trees qs h2) r)).
Proof.
  intros Hlev. unfold get_cached_trees.
  destruct (items qs) as [|first rest] eqn:Ei.
  { cbn. split; [reflexivity|]. intros top _ r []. }
  destruct (for_each_sim (is_filtered_of qs) (first :: rest) pass_init h1 h2 []
              Hlev (path_ready_init h1) (path_ready_init h2))
    as [Hsnd Hrest].
  { apply incl_refl. }
  { intros r []. }
  { intros r []. }
  destruct (for_each (is_filtered_of qs) (first :: rest) pass_init h1)
    as [g1 [st1|e1]];
    destruct (for_each (is_filtered_of qs) (first :: rest) pass_init h2)
      as [g2 [st2|e2]]; cbn [fst snd] in *; try discriminate.
  - inversion Hsnd; subst st2. split; [reflexivity|].
    intros top E; inversion E; subst top. intros r Hin.
    destruct (Hrest st1 eq_refl) as [H1 H2]. split.
    + apply H1. now left.
    + intros Hnot. apply H2; [now left | exact Hnot].
  - split; [congruence | discriminate].
Qed.

(** X23: the outcome of [get_cached_trees] depends only on the order
    and the levels of the nodes: on two stores that give every object
    the same level, whatever children lists and parents were cached
    before, it returns the same roots or raises the same error, and
    after a completed pass the children list of every input node, and
    the parent of every input node that is not a root, are the same. *)
Theorem get_cached_trees_ignores_old_links (qs : queryset) (h1 h2 : heap) :
  (forall r, level (h1 r) = level (h2 r)) ->
  snd (get_cached_trees qs h1) = snd (get_cached_trees qs h2)
  /\ forall top,
       snd (get_cached_trees qs h1) = Ok top ->
       forall r,
         In r (items qs) ->
         _cached_children (fst (get_cached_trees qs h1) r)
         = _cached_children (fst (get_cached_trees qs h2) r)
         /\ (~ In r top ->
             parent (fst (get_cached_trees qs h1) r)
             = parent (fst (get_cached_trees qs h2) r)).
Proof. exact (get_cached_trees_sim qs h1 h2). Qed.

(** X24: running [get_cached_trees] again on the store it produced
    gives the same outcome, and after a completed pass it leaves the
    children list of every input node, and the parent of every input
    node that is not a root, as the first run set them. *)
Theorem get_cached_trees_again (qs : queryset) (h : heap) :
  let h' := fst (get_cached_trees qs h) in
  snd (get_cached_trees qs h') = snd (get_cached_trees qs h)
  /\ forall top,
       snd (get_cached_trees qs h) = Ok top ->
       forall r,
         In r (items qs) ->
         _cached_children (fst (get_cached_trees qs h') r)
         = _cached_children (h' r)
         /\ (~ In r top ->
             parent (fst (get_cached_trees qs h') r) = parent (h' r)).
Proof.
  intros h'.
  assert (Hlev : forall r, level (h r) = level (h' r)).
  { intros r. unfold h', get_cached_trees.
    destruct (items qs) as [|first rest]; [reflexivity|].
    pose proof (for_each_level (is_filtered_of qs) (first :: rest)
                  pass_init h r) as E.
    destruct (for_each _ _ _ _) as [g [st|e]]; cbn [fst] in *; congruence. }
  destruct (get_cached_trees_sim qs h h' Hlev) as [Hsnd Hrest].
  split; [now symmetry|]. intros top Hok r Hin.
  destruct (Hrest top Hok r Hin) as [H1 H2]. fold h' in H1, H2.
  split; [now symmetry|]. intros Hnot. symmetry. now apply H2.
Qed.

Lemma get_cached_trees_ignores_old_links_witness :
  (forall r, level (heap_of_levels [0; 1; 2; 1; 0]%Z r)
             = level (stale_heap_of_levels [0; 1; 2; 1; 0]%Z r))
  /\ snd (get_cached_trees (plain_list 5) (heap_of_levels [0; 1; 2; 1; 0]%Z))
     = snd (get_cached_trees (plain_list 5)
              (stale_heap_of_levels [0; 1; 2; 1; 0]%Z)).
Proof.
  assert (H : forall r, level (heap_of_levels [0; 1; 2; 1; 0]%Z r)
                        = level (stale_heap_of_levels [0; 1; 2; 1; 0]%Z r))
    by (intros r; reflexivity).
  split; [exact H|].
  exact (proj1 (get_cached_trees_ignores_old_links (plain_list 5)
                  (heap_of_levels [0; 1; 2; 1; 0]%Z)
                  (stale_heap_of_levels [0; 1; 2; 1; 0]%Z) H)).
Defined.
